(** * quickjs-emscripten: handles, the context and the deferred promise

    A shallow embedding of [QuickJSContext] (with its [QuickJSContextMemory])
    and of [QuickJSDeferredPromise].  Host objects that the code mutates and
    shares (Lifetimes, Scopes, host Promises) live in an explicit store and
    are referred to by index; every call into the foreign runtime is logged,
    and what the foreign runtime answers is a parameter of the development. *)

From stdpp Require Import gmap strings list pretty.

Open Scope Z_scope.

(** ** Raw data *)

(** A raw foreign reference ([JSValuePointer], [JSContextPointer], a heap
    address): a JS number on the host side. *)
Abbreviation pointer := Z (only parsing).

(** A reference to a [Lifetime] object of the host heap (a [QuickJSHandle]). *)
Abbreviation handle := nat (only parsing).

(** The identity of a [QuickJSContext] object, as compared by [!==]. *)
Abbreviation ctx_id := nat (only parsing).

(** A host number, kept as its 64 bits: the code only passes numbers along. *)
Record float64 := F64 { f64_bits : Z }.

(** Host values as [dump] and [JSON.parse] produce them. *)
#[local] Unset Elimination Schemes.
Inductive hostval :=
| VUndefined
| VNull
| VBool (b : bool)
| VNum (n : float64)
| VStr (s : string)
| VArr (xs : list hostval)
| VObj (fields : list (string * hostval)).
#[local] Set Elimination Schemes.

(** [obj[key]] on a parsed object: the first binding of [key], if any. *)
Fixpoint get_field (key : string) (fields : list (string * hostval)) : option hostval :=
  match fields with
  | [] => None
  | (k, v) :: rest => if decide (k = key) then Some v else get_field key rest
  end.

(** A host [Error] object, by the three properties the code reads. *)
Record host_error := HostError {
  err_name : option string;
  err_message : option string;
  err_stack : option string
}.

(** Whatever a host [throw] can carry here: an [Error], a handle
    ([throw result.error]) or a dumped value ([throw dumped]). *)
Inductive host_exn :=
| ExnError (e : host_error)
| ExnHandle (h : handle)
| ExnOther (v : hostval).

(** [SuccessOrFail<Handle, Handle>] as the JS object it is: each of the two
    keys may be present or not. *)
Record call_result := CallResult {
  res_value : option handle;
  res_error : option handle
}.

(** What a [VmFunctionImplementation] returns:
    [VmHandle | VmCallResult<VmHandle> | void]. *)
Inductive impl_result :=
| ImplVoid
| ImplHandle (h : handle)
| ImplResult (r : call_result).

(** [QuickJSPropertyKey = number | string | QuickJSHandle]. *)
Inductive property_key :=
| KeyNum (n : float64)
| KeyStr (s : string)
| KeyHandle (h : handle).

(** ** Calls into the foreign runtime and into the emscripten heap *)

Inductive ffi_call :=
| QTS_GetUndefined
| QTS_GetNull
| QTS_GetTrue
| QTS_GetFalse
| QTS_GetGlobalObject (ctx : pointer)
| QTS_NewFloat64 (ctx : pointer) (num : float64)
| QTS_NewString (ctx chars : pointer)
| QTS_NewObject (ctx : pointer)
| QTS_NewObjectProto (ctx proto : pointer)
| QTS_NewArray (ctx : pointer)
| QTS_NewError (ctx : pointer)
| QTS_NewPromiseCapability (ctx out : pointer)
| QTS_NewFunction (ctx : pointer) (fn_id : Z) (name : string)
| QTS_Typeof (ctx v : pointer)
| QTS_GetFloat64 (ctx v : pointer)
| QTS_GetString (ctx v : pointer)
| QTS_Dump (ctx v : pointer)
| QTS_GetProp (ctx obj key : pointer)
| QTS_SetProp (ctx obj key v : pointer)
| QTS_DefineProp (ctx obj key v getter setter : pointer)
    (configurable enumerable hasValue : bool)
| QTS_Call (ctx func this : pointer) (argc : Z) (argv : pointer)
| QTS_Eval (ctx code : pointer) (filename : string) (detectModule flags : Z)
| QTS_ResolveException (ctx v : pointer)
| QTS_Throw (ctx v : pointer)
| QTS_DupValuePointer (ctx v : pointer)
| QTS_FreeValuePointer (ctx v : pointer)
| QTS_ArgvGetJSValueConstPointer (argv : pointer) (i : Z)
| Module_malloc_chars (s : string)
| Module_malloc_pointers (ps : list pointer)
| Module_read_pointer (arr : pointer) (i : Z)
| Module_free (p : pointer).

(** What a call answered, as the host received it. *)
Inductive ffi_answer :=
| NoAnswer
| Pointer (p : pointer)
| Text (s : string)
| Number (n : float64).

Definition ffi_event : Type := ffi_call * ffi_answer.

(** ** Host objects *)

(** The [dup] and [free] closures a Lifetime is built with. *)
Inductive copier := CopyJSValue (ctx : pointer).
Inductive disposer := FreeJSValue (ctx : pointer) | FreeHeap.

Inductive lifetime_class := OwnedLifetime | StaticLifetime | WeakLifetime.

Record lifetime := Lifetime {
  lt_class : lifetime_class;
  lt_value : pointer;
  lt_copier : option copier;
  lt_disposer : option disposer;
  lt_owner : option ctx_id;
  lt_alive : bool
}.

Record scope_obj := ScopeObj {
  managed : list handle;
  sc_alive : bool
}.

(** A host [Promise]; [Fulfilled None] is a fulfilled [Promise<void>]. *)
Inductive promise_state :=
| Pending
| Fulfilled (r : option call_result)
| Rejected (e : host_exn).

(** ** Host computations

    A computation over a store [S] either returns or throws, and in both
    cases leaves a store behind: JS exceptions do not roll anything back. *)

Inductive outcome (A : Type) :=
| Ok (a : A)
| Raise (e : host_exn).
Arguments Ok {A} a.
Arguments Raise {A} e.

Definition St (S A : Type) : Type := S -> outcome A * S.

Definition ret {S A} (a : A) : St S A := fun s => (Ok a, s).
Definition raise {S A} (e : host_exn) : St S A := fun s => (Raise e, s).
Definition bind {S A B} (m : St S A) (k : A -> St S B) : St S B :=
  fun s => match m s with
           | (Ok a, s') => k a s'
           | (Raise e, s') => (Raise e, s')
           end.
Definition gets {S A} (f : S -> A) : St S A := fun s => (Ok (f s), s).
Definition modify {S} (f : S -> S) : St S unit := fun s => (Ok tt, f s).

(** [try { m } catch (e) { ... }], with the outcome of [m] as a value. *)
Definition try {S A} (m : St S A) : St S (outcome A) :=
  fun s => let (r, s') := m s in (Ok r, s').
Definition rethrow {S A} (r : outcome A) : St S A :=
  match r with Ok a => ret a | Raise e => raise e end.

(** Sequencing on the outcome, whichever it is, and the computation that
    ends with a given outcome: with them a computation can be followed step
    by step through its [try] blocks. *)
Definition obind {S A B} (m : St S A) (k : outcome A -> St S B) : St S B :=
  fun s => let (r, s') := m s in k r s'.
Definition finish {S A} (r : outcome A) : St S A := fun s => (r, s).

Notation "x <- c1 ;; c2" := (bind c1 (fun x => c2))
  (at level 100, c1 at next level, right associativity).
Notation "c1 ;; c2" := (bind c1 (fun _ => c2))
  (at level 100, right associativity).

(** A [QuickJSContext] object: its identity ([this.owner]) and the raw
    pointers behind [this.ctx.value] and [this.rt.value].  The development
    follows a context from its construction up to, and not including, its
    own [dispose()], so these two reads always succeed. *)
Record context := Context {
  owner : ctx_id;
  ctx : pointer;
  rt : pointer
}.

(** A [QuickJSDeferredPromise] of the context at hand (its [owner]): the
    promise handle, the host promise [settled] that [onSettled] fulfils, and
    the two private callback handles. *)
Record QuickJSDeferredPromise := DeferredPromise {
  dp_handle : handle;
  dp_settled : nat;
  dp_resolveHandle : handle;
  dp_rejectHandle : handle
}.

(** A [VmPropertyDescriptor]: [configurable] and [enumerable] as
    [Boolean(...)] sees them; [F] names the accessor implementations. *)
Record VmPropertyDescriptor (F : Type) := PropertyDescriptor {
  pd_value : option handle;
  pd_configurable : bool;
  pd_enumerable : bool;
  pd_get : option F;
  pd_set : option F
}.
Arguments pd_value {F}.
Arguments pd_configurable {F}.
Arguments pd_enumerable {F}.
Arguments pd_get {F}.
Arguments pd_set {F}.

Section Model.

(** [external]: the state of the collaborators (the foreign interpreter and
    whatever the host implementations close over); [user_fn]: the host
    closures registered with [newFunction]; [eval_options]: the [options]
    of [evalCode]. *)
Context {external user_fn eval_options : Type}.

(** The entries of [fnMap]: a user implementation, or one of the two
    closures [resolvePromise] registers for a host promise. *)
Inductive hostfn :=
| UserFn (u : user_fn)
| ResolveThen (p : nat)
| RejectThen (p : nat).

Record state := State {
  heap : list lifetime;
  scopes : list scope_obj;
  promises : list promise_state;
  trace : list ffi_event;
  ext : external;
  fnNextId : Z;
  fnMap : gmap Z hostfn;
  _undefined : option handle;
  _global : option handle
}.

(** Host computations read and write the store, and return or throw. *)
Definition M (A : Type) : Type := St state A.

Definition upd_heap (f : list lifetime -> list lifetime) (s : state) : state :=
  State (f (heap s)) (scopes s) (promises s) (trace s) (ext s)
        (fnNextId s) (fnMap s) (_undefined s) (_global s).
Definition upd_scopes (f : list scope_obj -> list scope_obj) (s : state) : state :=
  State (heap s) (f (scopes s)) (promises s) (trace s) (ext s)
        (fnNextId s) (fnMap s) (_undefined s) (_global s).
Definition upd_promises (f : list promise_state -> list promise_state) (s : state) : state :=
  State (heap s) (scopes s) (f (promises s)) (trace s) (ext s)
        (fnNextId s) (fnMap s) (_undefined s) (_global s).
Definition set_fn (id : Z) (fn : hostfn) (s : state) : state :=
  State (heap s) (scopes s) (promises s) (trace s) (ext s)
        id (<[id := fn]> (fnMap s)) (_undefined s) (_global s).
Definition set_undefined (h : handle) (s : state) : state :=
  State (heap s) (scopes s) (promises s) (trace s) (ext s)
        (fnNextId s) (fnMap s) (Some h) (_global s).
Definition set_global (h : handle) (s : state) : state :=
  State (heap s) (scopes s) (promises s) (trace s) (ext s)
        (fnNextId s) (fnMap s) (_undefined s) (Some h).

(** What this core consumes from its collaborators.  The answers of the
    foreign runtime depend on the call and on the collaborators' state, which
    every call may change ([ffi_step]); [JSON_parse] is the host's
    [JSON.parse] ([None] when it throws); [host_stack] is the [stack] a new
    host [Error] captures; [evalOptionsToFlags] comes from [./types];
    [text_of_nonstring] is the text the string encoder writes when it is
    handed a value that is not a string. *)
Record collaborators := Collaborators {
  ffi_ptr : ffi_call -> external -> pointer;
  ffi_str : ffi_call -> external -> string;
  ffi_num : ffi_call -> external -> float64;
  ffi_step : ffi_call -> external -> external;
  JSON_parse : string -> option hostval;
  host_stack : string;
  evalOptionsToFlags : option eval_options -> Z;
  text_of_nonstring : hostval -> string
}.

Variable C : collaborators.
Variable vm : context.

(** The host closures handed to [newFunction]: [fn.name], and what
    [fn.apply(thisHandle, argHandles)] does. *)
Variable user_fn_name : user_fn -> string.
Variable apply_user : user_fn -> handle -> list handle -> M impl_result.

(** *** Foreign calls: logged, answered by the collaborators *)

Definition log_call (c : ffi_call) (a : ffi_answer) (s : state) : state :=
  State (heap s) (scopes s) (promises s) (trace s ++ [(c, a)]) (ffi_step C c (ext s))
        (fnNextId s) (fnMap s) (_undefined s) (_global s).

Definition ffi_void (c : ffi_call) : M unit := modify (log_call c NoAnswer).
Definition ffi_pointer (c : ffi_call) : M pointer :=
  fun s => let p := ffi_ptr C c (ext s) in (Ok p, log_call c (Pointer p) s).
Definition ffi_string (c : ffi_call) : M string :=
  fun s => let t := ffi_str C c (ext s) in (Ok t, log_call c (Text t) s).
Definition ffi_number (c : ffi_call) : M float64 :=
  fun s => let n := ffi_num C c (ext s) in (Ok n, log_call c (Number n) s).

(** *** Host errors *)

Definition new_Error (name message : string) : host_exn :=
  ExnError (HostError (Some name) (Some message) (Some (host_stack C))).

Definition ownership_error : host_exn :=
  new_Error "Error" "Given handle created by a different VM".
Definition use_after_dispose : host_exn :=
  new_Error "QuickJSUseAfterFree" "Lifetime not alive".
Definition type_error : host_exn :=
  new_Error "TypeError" "Cannot read properties of undefined".

(** *** Lifetime *)

Definition new_lifetime (l : lifetime) : M handle :=
  fun s => (Ok (length (heap s)), upd_heap (fun hp => hp ++ [l]) s).

Definition is_alive (s : state) (h : handle) : bool :=
  match heap s !! h with Some l => lt_alive l | None => false end.
Definition owner_of (s : state) (h : handle) : option ctx_id :=
  match heap s !! h with Some l => lt_owner l | None => None end.

Definition kill (l : lifetime) : lifetime :=
  Lifetime (lt_class l) (lt_value l) (lt_copier l) (lt_disposer l) (lt_owner l) false.

Definition run_disposer (d : option disposer) (p : pointer) : M unit :=
  match d with
  | Some (FreeJSValue c) => ffi_void (QTS_FreeValuePointer c p)
  | Some FreeHeap => ffi_void (Module_free p)
  | None => ret tt
  end.

Definition run_copier (c : option copier) (p : pointer) : M pointer :=
  match c with
  | Some (CopyJSValue c) => ffi_pointer (QTS_DupValuePointer c p)
  | None => ret p
  end.

(** Modelled from the spec: the [Lifetime], [StaticLifetime] and
    [WeakLifetime] classes of [./lifetime], which is not among the shown
    sources.  [alive] is the flag; reading [value] on a dead Lifetime fails
    with a use-after-dispose error. *)
Definition alive (h : handle) : M bool := gets (fun s => is_alive s h).

Definition value (h : handle) : M pointer :=
  fun s => match heap s !! h with
           | Some l => if lt_alive l then (Ok (lt_value l), s)
                       else (Raise use_after_dispose, s)
           | None => (Raise use_after_dispose, s)
           end.

(** Modelled from the spec: [dispose()] of [./lifetime].  Idempotent: a dead
    Lifetime returns at once; otherwise [free(value)] is invoked if present
    and [alive] becomes false.  A StaticLifetime's dispose is a no-op, and so
    is the dispose of a borrowed WeakLifetime. *)
Definition dispose (h : handle) : M unit :=
  o <- gets (fun s => heap s !! h);;
  match o with
  | Some l =>
      match lt_class l with
      | OwnedLifetime =>
          if lt_alive l
          then (run_disposer (lt_disposer l) (lt_value l);;
                modify (upd_heap (alter kill h)))
          else ret tt
      | StaticLifetime | WeakLifetime => ret tt
      end
  | None => ret tt
  end.

(** Modelled from the spec: [dup()] of [./lifetime].  It requires [alive],
    invokes the duplicate primitive on [value] and returns a new owned
    Lifetime sharing [owner], [dup] and [free]; a StaticLifetime yields a new
    StaticLifetime over the same raw value without any foreign call; the dup
    of a WeakLifetime is a fully owned Lifetime. *)
Definition dup (h : handle) : M handle :=
  o <- gets (fun s => heap s !! h);;
  match o with
  | Some l =>
      match lt_class l with
      | StaticLifetime =>
          new_lifetime (Lifetime StaticLifetime (lt_value l) None None (lt_owner l) true)
      | OwnedLifetime | WeakLifetime =>
          if lt_alive l
          then (p <- run_copier (lt_copier l) (lt_value l);;
                new_lifetime (Lifetime OwnedLifetime p (lt_copier l) (lt_disposer l)
                                       (lt_owner l) true))
          else raise use_after_dispose
      end
  | None => raise use_after_dispose
  end.

(** Modelled from the spec: [consume(fn)] of [./lifetime] invokes [fn(self)],
    then disposes [self] whether [fn] returned or raised, and propagates
    [fn]'s outcome. *)
Definition consume {A} (h : handle) (fn : handle -> M A) : M A :=
  r <- try (fn h);;
  dispose h;;
  rethrow r.

(** *** Scope *)

(** Modelled from the spec: the [Scope] class of [./lifetime].  [manage]
    registers a Lifetime and returns it, and fails on a disposed Scope;
    [dispose] is idempotent and disposes the managed entries in reverse
    registration order ([dispose] on a Lifetime never throws here, so no
    failure has to be aggregated); [withScope] disposes the Scope on every
    exit path and forwards [fn]'s outcome. *)
Definition new_Scope : M nat :=
  fun s => (Ok (length (scopes s)), upd_scopes (fun l => l ++ [ScopeObj [] true]) s).

Definition manage (sc : nat) (h : handle) : M handle :=
  o <- gets (fun s => scopes s !! sc);;
  match o with
  | Some (ScopeObj hs true) =>
      modify (upd_scopes (<[sc := ScopeObj (hs ++ [h]) true]>));;
      ret h
  | _ => raise use_after_dispose
  end.

Fixpoint dispose_all (hs : list handle) : M unit :=
  match hs with
  | [] => ret tt
  | h :: rest => dispose h;; dispose_all rest
  end.

Definition scope_dispose (sc : nat) : M unit :=
  o <- gets (fun s => scopes s !! sc);;
  match o with
  | Some (ScopeObj hs true) =>
      dispose_all (rev hs);;
      modify (upd_scopes (<[sc := ScopeObj hs false]>))
  | _ => ret tt
  end.

Definition withScope {A} (fn : nat -> M A) : M A :=
  sc <- new_Scope;;
  r <- try (fn sc);;
  scope_dispose sc;;
  rethrow r.

(** Modelled from the spec: [Scope.withScopeMaybeAsync] of [./lifetime] and
    [newPromiseLike] / [unwrapPromiseLike] of [./asyncify-helpers], for an
    immediate outcome, where the former behaves like [withScope] and
    [newPromiseLike(body).then(on_value).catch(on_error)] unwrapped is a
    [try]/[catch] around [body] and [on_value].  A pending outcome needs the
    host's event loop and is outside this development. *)
Definition withScopeMaybeAsync {A} (fn : nat -> M A) : M A := withScope fn.

Definition then_catch {A B} (body : M A) (on_value : A -> M B)
    (on_error : host_exn -> M B) : M B :=
  r <- try (x <- body;; on_value x);;
  match r with
  | Ok b => ret b
  | Raise e => on_error e
  end.

(** *** ModuleMemory *)

(** Modelled from the spec: the array and string encoding of [./memory].  A
    host string, or the raw values of a sequence of handles, is copied into a
    transient buffer of the emscripten heap, wrapped in a Lifetime whose
    [free] releases the buffer. *)
Definition heap_lifetime (p : pointer) : lifetime :=
  Lifetime OwnedLifetime p None (Some FreeHeap) None true.

Definition newHeapCharPointer (str : string) : M handle :=
  p <- ffi_pointer (Module_malloc_chars str);;
  new_lifetime (heap_lifetime p).

Fixpoint values (hs : list handle) : M (list pointer) :=
  match hs with
  | [] => ret []
  | h :: rest => p <- value h;; ps <- values rest;; ret (p :: ps)
  end.

Definition toPointerArray (hs : list handle) : M handle :=
  ps <- values hs;;
  p <- ffi_pointer (Module_malloc_pointers ps);;
  new_lifetime (heap_lifetime p).

Definition newMutablePointerArray (n : nat) : M handle :=
  p <- ffi_pointer (Module_malloc_pointers (replicate n 0));;
  new_lifetime (heap_lifetime p).

(** *** QuickJSContextMemory *)

Definition assertOwned (h : handle) : M unit :=
  o <- gets (fun s => owner_of s h);;
  match o with
  | Some o => if decide (o = owner vm) then ret tt else raise ownership_error
  | None => ret tt
  end.

Definition copyJSValue : copier := CopyJSValue (ctx vm).
Definition freeJSValue : disposer := FreeJSValue (ctx vm).

Definition heapValueHandle (ptr : pointer) : M handle :=
  new_lifetime (Lifetime OwnedLifetime ptr (Some copyJSValue) (Some freeJSValue)
                         (Some (owner vm)) true).

(** [this.memory.scope], created with the context. *)
Definition memory_scope : nat := 0%nat.

(** *** Host promises *)

Definition new_promise (st : promise_state) : M nat :=
  fun s => (Ok (length (promises s)), upd_promises (fun l => l ++ [st]) s).

(** The [resolve] / [reject] function of a host promise: only the first call
    on a pending promise has an effect. *)
Definition settle_promise (p : nat) (st : promise_state) : M unit :=
  modify (upd_promises (alter (fun old => match old with Pending => st | _ => old end) p)).

(** *** QuickJSContext: globals and new values *)

Definition undefined : M handle :=
  o <- gets _undefined;;
  match o with
  | Some h => ret h
  | None =>
      ptr <- ffi_pointer QTS_GetUndefined;;
      h <- new_lifetime (Lifetime StaticLifetime ptr None None None true);;
      modify (set_undefined h);;
      ret h
  end.

Definition global : M handle :=
  o <- gets _global;;
  match o with
  | Some h => ret h
  | None =>
      ptr <- ffi_pointer (QTS_GetGlobalObject (ctx vm));;
      owned <- heapValueHandle ptr;;
      manage memory_scope owned;;
      h <- new_lifetime (Lifetime StaticLifetime ptr None None (Some (owner vm)) true);;
      modify (set_global h);;
      ret h
  end.

Definition newNumber (num : float64) : M handle :=
  ptr <- ffi_pointer (QTS_NewFloat64 (ctx vm) num);;
  heapValueHandle ptr.

Definition newString (str : string) : M handle :=
  chars <- newHeapCharPointer str;;
  ptr <- consume chars (fun charHandle =>
           c <- value charHandle;;
           ffi_pointer (QTS_NewString (ctx vm) c));;
  heapValueHandle ptr.

Definition newObject (prototype : option handle) : M handle :=
  match prototype with
  | Some proto =>
      assertOwned proto;;
      p <- value proto;;
      ptr <- ffi_pointer (QTS_NewObjectProto (ctx vm) p);;
      heapValueHandle ptr
  | None =>
      ptr <- ffi_pointer (QTS_NewObject (ctx vm));;
      heapValueHandle ptr
  end.

Definition newArray : M handle :=
  ptr <- ffi_pointer (QTS_NewArray (ctx vm));;
  heapValueHandle ptr.

Definition newFunction (name : string) (fn : hostfn) : M handle :=
  fnId <- gets (fun s => fnNextId s + 1);;
  modify (set_fn fnId fn);;
  ptr <- ffi_pointer (QTS_NewFunction (ctx vm) fnId name);;
  heapValueHandle ptr.

Definition newPromise : M QuickJSDeferredPromise :=
  withScope (fun scope =>
    arr <- newMutablePointerArray 2;;
    mutablePointerArray <- manage scope arr;;
    out <- value mutablePointerArray;;
    promisePtr <- ffi_pointer (QTS_NewPromiseCapability (ctx vm) out);;
    promiseHandle <- heapValueHandle promisePtr;;
    resolvePtr <- ffi_pointer (Module_read_pointer out 0);;
    resolveHandle <- heapValueHandle resolvePtr;;
    rejectPtr <- ffi_pointer (Module_read_pointer out 1);;
    rejectHandle <- heapValueHandle rejectPtr;;
    settled <- new_promise Pending;;
    ret (DeferredPromise promiseHandle settled resolveHandle rejectHandle)).

(** *** Reading values *)

Definition typeof (h : handle) : M string :=
  assertOwned h;;
  v <- value h;;
  ffi_string (QTS_Typeof (ctx vm) v).

Definition getNumber (h : handle) : M float64 :=
  assertOwned h;;
  v <- value h;;
  ffi_number (QTS_GetFloat64 (ctx vm) v).

Definition getString (h : handle) : M string :=
  assertOwned h;;
  v <- value h;;
  ffi_string (QTS_GetString (ctx vm) v).

(** *** Properties *)

Definition borrowPropertyKey (key : property_key) : M handle :=
  match key with
  | KeyNum n => newNumber n
  | KeyStr str => newString str
  | KeyHandle k =>
      v <- value k;;
      new_lifetime (Lifetime StaticLifetime v None None (Some (owner vm)) true)
  end.

Definition getProp (h : handle) (key : property_key) : M handle :=
  assertOwned h;;
  k <- borrowPropertyKey key;;
  ptr <- consume k (fun quickJSKey =>
           hv <- value h;;
           kv <- value quickJSKey;;
           ffi_pointer (QTS_GetProp (ctx vm) hv kv));;
  heapValueHandle ptr.

Definition setProp (h : handle) (key : property_key) (v : handle) : M unit :=
  assertOwned h;;
  k <- borrowPropertyKey key;;
  consume k (fun quickJSKey =>
    hv <- value h;;
    kv <- value quickJSKey;;
    vv <- value v;;
    ffi_void (QTS_SetProp (ctx vm) hv kv vv)).

Definition defineProp (h : handle) (key : property_key)
    (descriptor : VmPropertyDescriptor user_fn) : M unit :=
  assertOwned h;;
  withScope (fun scope =>
    k <- borrowPropertyKey key;;
    quickJSKey <- manage scope k;;
    v <- match pd_value descriptor with Some v => ret v | None => undefined end;;
    let hasValue := bool_decide (is_Some (pd_value descriptor)) in
    getter <- match pd_get descriptor with
              | Some g => f <- newFunction (user_fn_name g) (UserFn g);; manage scope f
              | None => undefined
              end;;
    setter <- match pd_set descriptor with
              | Some g => f <- newFunction (user_fn_name g) (UserFn g);; manage scope f
              | None => undefined
              end;;
    hv <- value h;;
    kv <- value quickJSKey;;
    vv <- value v;;
    gv <- value getter;;
    sv <- value setter;;
    ffi_void (QTS_DefineProp (ctx vm) hv kv vv gv sv
                (pd_configurable descriptor) (pd_enumerable descriptor) hasValue)).

(** *** Evaluation *)

Definition Z_length {A} (l : list A) : Z := Z.of_nat (length l).

Definition callFunction (func thisVal : handle) (args : list handle) : M call_result :=
  assertOwned func;;
  arr <- toPointerArray args;;
  resultPtr <- consume arr (fun argsArrayPtr =>
                 f <- value func;;
                 t <- value thisVal;;
                 a <- value argsArrayPtr;;
                 ffi_pointer (QTS_Call (ctx vm) f t (Z_length args) a));;
  errorPtr <- ffi_pointer (QTS_ResolveException (ctx vm) resultPtr);;
  if decide (errorPtr <> 0)
  then (ffi_void (QTS_FreeValuePointer (ctx vm) resultPtr);;
        h <- heapValueHandle errorPtr;;
        ret (CallResult None (Some h)))
  else (h <- heapValueHandle resultPtr;;
        ret (CallResult (Some h) None)).

Definition evalCode (code : string) (filename : option string)
    (options : option eval_options) : M call_result :=
  let filename := default "eval.js" filename in
  let detectModule := match options with None => 1 | Some _ => 0 end in
  let flags := evalOptionsToFlags C options in
  chars <- newHeapCharPointer code;;
  resultPtr <- consume chars (fun charHandle =>
                 c <- value charHandle;;
                 ffi_pointer (QTS_Eval (ctx vm) c filename detectModule flags));;
  errorPtr <- ffi_pointer (QTS_ResolveException (ctx vm) resultPtr);;
  if decide (errorPtr <> 0)
  then (ffi_void (QTS_FreeValuePointer (ctx vm) resultPtr);;
        h <- heapValueHandle errorPtr;;
        ret (CallResult None (Some h)))
  else (h <- heapValueHandle resultPtr;;
        ret (CallResult (Some h) None)).

(** *** Utilities *)

Definition dump (h : handle) : M hostval :=
  assertOwned h;;
  type <- typeof h;;
  if decide (type = "string") then (str <- getString h;; ret (VStr str))
  else if decide (type = "number") then (n <- getNumber h;; ret (VNum n))
  else if decide (type = "undefined") then ret VUndefined
  else
    v <- value h;;
    str <- ffi_string (QTS_Dump (ctx vm) v);;
    match JSON_parse C str with
    | Some parsed => ret parsed
    | None => ret (VStr str)
    end.

(** [new Error(dumped.message)], renamed when [dumped.name] is a string. *)
Definition unwrapped_exception (name : option hostval) (message : string) : host_exn :=
  new_Error (match name with Some (VStr n) => n | _ => "Error" end) message.

Definition unwrapResult (result : call_result) : M (option handle) :=
  match res_error result with
  | Some error =>
      dumped <- consume error dump;;
      match dumped with
      | VObj fields =>
          match get_field "message" fields with
          | Some (VStr message) =>
              raise (unwrapped_exception (get_field "name" fields) message)
          | _ => raise (ExnOther dumped)
          end
      | _ => raise (ExnOther dumped)
      end
  | None => ret (res_value result)
  end.

(** [x.dispose()] on what [unwrapResult] returned. *)
Definition dispose_unwrapped (v : option handle) : M unit :=
  match v with
  | Some h => dispose h
  | None => raise type_error
  end.

(** *** The callback bridge *)

(** [error.name] and the like, as [errorToHandle] reads them.  The parameter
    is declared [Error | QuickJSHandle]; the [catch] of the bridge casts
    whatever was thrown to it, so a dumped value thrown by [unwrapResult]
    is read here too: a property read on [undefined] or [null] throws. *)
Definition error_prop (pick : host_error -> option string) (key : string)
    (error : host_exn) : M (option string) :=
  match error with
  | ExnError e => ret (pick e)
  | ExnHandle _ => ret None
  | ExnOther VUndefined | ExnOther VNull => raise type_error
  | ExnOther (VObj fields) =>
      ret (match get_field key fields with
           | None | Some VUndefined => None
           | Some (VStr str) => Some str
           | Some v => Some (text_of_nonstring C v)
           end)
  | ExnOther _ => ret None
  end.

Definition errorToHandle (error : host_exn) : M handle :=
  match error with
  | ExnHandle h => ret h
  | _ =>
      ptr <- ffi_pointer (QTS_NewError (ctx vm));;
      errorHandle <- heapValueHandle ptr;;
      name <- error_prop err_name "name" error;;
      match name with
      | Some name =>
          str <- newString name;;
          consume str (fun h => setProp errorHandle (KeyStr "name") h)
      | None => ret tt
      end;;
      message <- error_prop err_message "message" error;;
      match message with
      | Some message =>
          str <- newString message;;
          consume str (fun h => setProp errorHandle (KeyStr "message") h)
      | None => ret tt
      end;;
      stack <- error_prop err_stack "stack" error;;
      match stack with
      | Some _ => ret tt   (* disabled due to security leak concerns *)
      | None => ret tt
      end;;
      ret errorHandle
  end.

Definition throw (error : host_exn) : M pointer :=
  h <- errorToHandle error;;
  consume h (fun handle =>
    v <- value handle;;
    ffi_pointer (QTS_Throw (ctx vm) v)).

(** The closures of [resolvePromise]:
    [value => { resolve({ value: value && value.dup() }) }] and its twin. *)
Definition dup_first (args : list handle) : M (option handle) :=
  match args with
  | h :: _ => d <- dup h;; ret (Some d)
  | [] => ret None
  end.

Definition apply_hostfn (fn : hostfn) (thisHandle : handle) (argHandles : list handle)
    : M impl_result :=
  match fn with
  | UserFn u => apply_user u thisHandle argHandles
  | ResolveThen p =>
      v <- dup_first argHandles;;
      settle_promise p (Fulfilled (Some (CallResult v None)));;
      ret ImplVoid
  | RejectThen p =>
      e <- dup_first argHandles;;
      settle_promise p (Fulfilled (Some (CallResult None e)));;
      ret ImplVoid
  end.

Definition weak_lifetime (ptr : pointer) : lifetime :=
  Lifetime WeakLifetime ptr (Some copyJSValue) (Some freeJSValue) (Some (owner vm)) true.

(** The [for] loop over [argv]: [n] arguments are left, the next is [i]. *)
Fixpoint wrap_args (scope : nat) (argv : pointer) (i : Z) (n : nat) : M (list handle) :=
  match n with
  | O => ret []
  | S n' =>
      ptr <- ffi_pointer (QTS_ArgvGetJSValueConstPointer argv i);;
      w <- new_lifetime (weak_lifetime ptr);;
      h <- manage scope w;;
      rest <- wrap_args scope argv (i + 1) n';;
      ret (h :: rest)
  end.

(** The [then] callback of the bridge. *)
Definition forward_result (scope : nat) (result : impl_result) : M pointer :=
  match result with
  | ImplVoid => ret 0
  | ImplHandle h =>
      handle <- manage scope h;;
      v <- value handle;;
      ffi_pointer (QTS_DupValuePointer (ctx vm) v)
  | ImplResult r =>
      match res_error r with
      | Some e => raise (ExnHandle e)
      | None =>
          match res_value r with
          | Some h =>
              handle <- manage scope h;;
              v <- value handle;;
              ffi_pointer (QTS_DupValuePointer (ctx vm) v)
          | None => raise type_error
          end
      end
  end.

Definition no_callback_error (fn_id : Z) : host_exn :=
  new_Error "Error" ("QuickJSVm had no callback with id " +:+ pretty fn_id).
Definition mismatched_ctx_error : host_exn :=
  new_Error "Error" "QuickJSVm instance received C -> JS call with mismatched ctx".

Definition cToHostCallbackFunction (ctx_arg this_ptr : pointer) (argc : nat)
    (argv : pointer) (fn_id : Z) : M pointer :=
  if decide (ctx_arg <> ctx vm) then raise mismatched_ctx_error
  else
    o <- gets (fun s => fnMap s !! fn_id);;
    match o with
    | None => raise (no_callback_error fn_id)
    | Some fn =>
        withScopeMaybeAsync (fun scope =>
          w <- new_lifetime (weak_lifetime this_ptr);;
          thisHandle <- manage scope w;;
          argHandles <- wrap_args scope argv 0 argc;;
          then_catch (apply_hostfn fn thisHandle argHandles)
            (forward_result scope)
            (fun error =>
               h <- errorToHandle error;;
               consume h (fun errorHandle =>
                 v <- value errorHandle;;
                 ffi_pointer (QTS_Throw (ctx vm) v))))
    end.

(** *** resolvePromise *)

Definition resolvePromise (promiseLikeHandle : handle) : M nat :=
  assertOwned promiseLikeHandle;;
  vmResolveResult <- withScope (fun scope =>
    g <- global;;
    p <- getProp g (KeyStr "Promise");;
    vmPromise <- manage scope p;;
    r <- getProp vmPromise (KeyStr "resolve");;
    vmPromiseResolve <- manage scope r;;
    callFunction vmPromiseResolve vmPromise [promiseLikeHandle]);;
  match res_error vmResolveResult with
  | Some _ => new_promise (Fulfilled (Some vmResolveResult))
  | None =>
      promise <- new_promise Pending;;
      r <- try (withScope (fun scope =>
             f <- newFunction "resolve" (ResolveThen promise);;
             resolveHandle <- manage scope f;;
             f <- newFunction "reject" (RejectThen promise);;
             rejectHandle <- manage scope f;;
             promiseHandle <- match res_value vmResolveResult with
                              | Some h => manage scope h
                              | None => raise type_error
                              end;;
             t <- getProp promiseHandle (KeyStr "then");;
             promiseThenHandle <- manage scope t;;
             called <- callFunction promiseThenHandle promiseHandle
                         [resolveHandle; rejectHandle];;
             v <- unwrapResult called;;
             dispose_unwrapped v));;
      match r with
      | Ok _ => ret tt
      | Raise e => settle_promise promise (Rejected e)
      end;;
      ret promise
  end.

(** ** QuickJSDeferredPromise *)

Definition disposeResolvers (d : QuickJSDeferredPromise) : M unit :=
  a <- alive (dp_resolveHandle d);;
  (if a then dispose (dp_resolveHandle d) else ret tt);;
  a <- alive (dp_rejectHandle d);;
  (if a then dispose (dp_rejectHandle d) else ret tt).

Definition onSettled (d : QuickJSDeferredPromise) : M unit :=
  settle_promise (dp_settled d) (Fulfilled None).

(** [value || this.owner.undefined]. *)
Definition or_undefined (v : option handle) : M handle :=
  match v with
  | Some v => ret v
  | None => undefined
  end.

Definition resolve (d : QuickJSDeferredPromise) (v : option handle) : M unit :=
  a <- alive (dp_resolveHandle d);;
  if negb a then ret tt
  else
    thisVal <- undefined;;
    arg <- or_undefined v;;
    called <- callFunction (dp_resolveHandle d) thisVal [arg];;
    unwrapped <- unwrapResult called;;
    dispose_unwrapped unwrapped;;
    disposeResolvers d;;
    onSettled d.

Definition reject (d : QuickJSDeferredPromise) (v : option handle) : M unit :=
  a <- alive (dp_rejectHandle d);;
  if negb a then ret tt
  else
    thisVal <- undefined;;
    arg <- or_undefined v;;
    called <- callFunction (dp_rejectHandle d) thisVal [arg];;
    unwrapped <- unwrapResult called;;
    dispose_unwrapped unwrapped;;
    disposeResolvers d;;
    onSettled d.

(** The body [resolve] and [reject] share, for either callback handle. *)
Definition settle_with (callback : handle) (d : QuickJSDeferredPromise)
    (v : option handle) : M unit :=
  a <- alive callback;;
  if negb a then ret tt
  else
    thisVal <- undefined;;
    arg <- or_undefined v;;
    called <- callFunction callback thisVal [arg];;
    unwrapped <- unwrapResult called;;
    dispose_unwrapped unwrapped;;
    disposeResolvers d;;
    onSettled d.

Definition deferred_alive (d : QuickJSDeferredPromise) : M bool :=
  a <- alive (dp_handle d);;
  b <- alive (dp_resolveHandle d);;
  c <- alive (dp_rejectHandle d);;
  ret (a || b || c).

Definition deferred_dispose (d : QuickJSDeferredPromise) : M unit :=
  a <- alive (dp_handle d);;
  (if a then dispose (dp_handle d) else ret tt);;
  disposeResolvers d.

(** ** Vocabulary of the statements *)

(** [h] is a handle made by [heapValueHandle] around [p]. *)
Definition heap_value (s : state) (h : handle) (p : pointer) (a : bool) : Prop :=
  heap s !! h = Some (Lifetime OwnedLifetime p (Some copyJSValue) (Some freeJSValue)
                               (Some (owner vm)) a).

(** The three handles of a deferred promise are three distinct Lifetimes made
    by [heapValueHandle], as [newPromise] builds them. *)
Definition deferred_in (s : state) (d : QuickJSDeferredPromise) : Prop :=
  (exists p a, heap_value s (dp_handle d) p a) /\
  (exists p a, heap_value s (dp_resolveHandle d) p a) /\
  (exists p a, heap_value s (dp_rejectHandle d) p a) /\
  dp_handle d <> dp_resolveHandle d /\
  dp_handle d <> dp_rejectHandle d /\
  dp_resolveHandle d <> dp_rejectHandle d.

(** The cached [undefined], when there is one, is the StaticLifetime the
    getter stored. *)
Definition undefined_cached_ok (s : state) : Prop :=
  forall u, _undefined s = Some u ->
    exists p, heap s !! u = Some (Lifetime StaticLifetime p None None None true).

(** A handle argument that may be omitted is alive when it is given. *)
Definition alive_if_given (s : state) (v : option handle) : Prop :=
  forall h, v = Some h -> is_alive s h = true.

(** Exactly one of the two keys of a result is present. *)
Definition one_branch (r : call_result) : Prop :=
  match res_value r, res_error r with
  | Some _, None | None, Some _ => True
  | _, _ => False
  end.

(** The calls that release something. *)
Definition is_free (e : ffi_event) : Prop :=
  match fst e with
  | QTS_FreeValuePointer _ _ | Module_free _ => True
  | _ => False
  end.


(** What [dump] made of a foreign value whose [typeof] is [type]: the
    calls [evs] it made after [QTS_Typeof] and the host value [r] it
    returned. *)
Definition dumped_as (json_parse : string -> option hostval) (p : pointer)
    (type : string) (evs : list ffi_event) (r : hostval) : Prop :=
  (type = "string" /\
     exists str, evs = [(QTS_GetString (ctx vm) p, Text str)] /\ r = VStr str) \/
  (type = "number" /\
     exists n, evs = [(QTS_GetFloat64 (ctx vm) p, Number n)] /\ r = VNum n) \/
  (type = "undefined" /\ evs = [] /\ r = VUndefined) \/
  (type <> "string" /\ type <> "number" /\ type <> "undefined" /\
     exists str, evs = [(QTS_Dump (ctx vm) p, Text str)] /\
       r = match json_parse str with Some parsed => parsed | None => VStr str end).

(** [s'] is [s] with the foreign calls [evs] made: no host object changed. *)
Definition only_called (s s' : state) (evs : list ffi_event) : Prop :=
  heap s' = heap s /\ scopes s' = scopes s /\ promises s' = promises s /\
  fnNextId s' = fnNextId s /\ fnMap s' = fnMap s /\
  _undefined s' = _undefined s /\ _global s' = _global s /\
  trace s' = trace s ++ evs.

(** The foreign [undefined] of the context as a call gets it: the value of
    the cached handle, or else what [QTS_GetUndefined] answers now. *)
Definition foreign_undefined (s : state) (up : pointer) (evs : list ffi_event) : Prop :=
  match _undefined s with
  | Some u => (exists l, heap s !! u = Some l /\ lt_value l = up) /\ evs = []
  | None => evs = [(QTS_GetUndefined, Pointer up)]
  end.

(** The raw value passed for [value || undefined]. *)
Definition argument_pointer (s : state) (v : option handle) (up ap : pointer) : Prop :=
  match v with
  | Some h => exists l, heap s !! h = Some l /\ lt_value l = ap
  | None => ap = up
  end.

Definition is_call (e : ffi_event) : Prop :=
  match fst e with
  | QTS_Call _ _ _ _ _ => True
  | _ => False
  end.

(** What [resolve] (or [reject]) does with a pending promise whose callback
    is the foreign function [cbp], [pr] and [pj] being the two callbacks: it
    calls [cbp] once, with the foreign [undefined] as [this] and one
    argument, and asks for the pending exception.  When there is none it
    releases the result and the two callbacks, which are dead afterwards,
    fulfils [settled] and returns; when there is one it throws, and leaves
    the callbacks alive and [settled] as it was. *)
Definition settlement (d : QuickJSDeferredPromise) (v : option handle)
    (cbp pr pj : pointer) (s : state) (run : outcome unit * state) : Prop :=
  exists up ap argv rp ep evs_u evs_rest,
    foreign_undefined s up evs_u /\
    argument_pointer s v up ap /\
    trace (snd run) =
      trace s ++ evs_u
        ++ [(Module_malloc_pointers [ap], Pointer argv);
            (QTS_Call (ctx vm) cbp up 1 argv, Pointer rp);
            (Module_free argv, NoAnswer);
            (QTS_ResolveException (ctx vm) rp, Pointer ep)]
        ++ evs_rest /\
    (ep = 0 ->
       fst run = Ok tt /\
       evs_rest = [(QTS_FreeValuePointer (ctx vm) rp, NoAnswer);
                   (QTS_FreeValuePointer (ctx vm) pr, NoAnswer);
                   (QTS_FreeValuePointer (ctx vm) pj, NoAnswer)] /\
       is_alive (snd run) (dp_resolveHandle d) = false /\
       is_alive (snd run) (dp_rejectHandle d) = false /\
       promises (snd run) =
         alter (fun old => match old with Pending => Fulfilled None | _ => old end)
               (dp_settled d) (promises s)) /\
    (ep <> 0 ->
       (exists e, fst run = Raise e) /\
       Forall (fun e => ~ is_call e) evs_rest /\
       is_alive (snd run) (dp_resolveHandle d) = true /\
       is_alive (snd run) (dp_rejectHandle d) = true /\
       promises (snd run) = promises s).





(** From [s] to [s1] a foreign value was made: [h] is a new handle, alive,
    made by [heapValueHandle] around [p]; the Lifetimes that existed are as
    they were, every other new Lifetime (a transient buffer) is dead again;
    the foreign calls made are [evs]; Scopes, host promises and the registry
    of host functions are unchanged. *)
Definition fresh_value (s s1 : state) (h : handle) (p : pointer)
    (evs : list ffi_event) : Prop :=
  (length (heap s) <= h)%nat /\
  heap_value s1 h p true /\
  (forall k, (k < length (heap s))%nat -> heap s1 !! k = heap s !! k) /\
  (forall k l, (length (heap s) <= k)%nat -> k <> h ->
     heap s1 !! k = Some l -> lt_alive l = false) /\
  trace s1 = trace s ++ evs /\
  scopes s1 = scopes s /\ promises s1 = promises s /\
  fnNextId s1 = fnNextId s /\ fnMap s1 = fnMap s.

(** The ids handed out so far: every key of [fnMap] is at most [fnNextId]. *)
Definition ids_in_use (s : state) : Prop :=
  forall k fn, fnMap s !! k = Some fn -> k <= fnNextId s.

(** How a property key reaches the runtime as the raw value [kp]: a number
    or a string is made into a foreign value first ([before]) and that value
    is released afterwards ([after]); a handle lends its own value, and
    nothing is made or released. *)
Definition key_events (s : state) (key : property_key) (kp : pointer)
    (before after : list ffi_event) : Prop :=
  match key with
  | KeyNum n =>
      before = [(QTS_NewFloat64 (ctx vm) n, Pointer kp)] /\
      after = [(QTS_FreeValuePointer (ctx vm) kp, NoAnswer)]
  | KeyStr str =>
      (exists c, before = [(Module_malloc_chars str, Pointer c);
                           (QTS_NewString (ctx vm) c, Pointer kp);
                           (Module_free c, NoAnswer)]) /\
      after = [(QTS_FreeValuePointer (ctx vm) kp, NoAnswer)]
  | KeyHandle k =>
      (exists l, heap s !! k = Some l /\ lt_value l = kp) /\
      before = [] /\ after = []
  end.

(** A handle used as a key is alive. *)
Definition key_alive (s : state) (key : property_key) : Prop :=
  forall k, key = KeyHandle k -> is_alive s k = true.

(** The Lifetimes of [s] are in [s1] as they were. *)
Definition same_lifetimes (s s1 : state) : Prop :=
  forall k, (k < length (heap s))%nat -> heap s1 !! k = heap s !! k.

(** The handles [hs] are alive and their raw values are [ps], in order. *)
Definition raw_values (s : state) (hs : list handle) (ps : list pointer) : Prop :=
  Forall2 (fun h p => exists l, heap s !! h = Some l /\ lt_alive l = true /\ lt_value l = p)
          hs ps.

(** The foreign calls of a function call or an evaluation, [enter] being
    the calls that pass the arguments in and produce the raw result [rp]: the
    pending exception [ep] is asked for, and when there is one the raw result
    is released. *)
Definition result_events (enter : list ffi_event) (rp ep : pointer) : list ffi_event :=
  enter ++ [(QTS_ResolveException (ctx vm) rp, Pointer ep)]
        ++ (if decide (ep = 0) then [] else [(QTS_FreeValuePointer (ctx vm) rp, NoAnswer)]).

(** The foreign calls of [getProp] with a string key: the key is made into
    a foreign string, [QTS_GetProp] answers [p], the key is released. *)
Definition get_events (obj : pointer) (key : string) (p : pointer)
    (evs : list ffi_event) : Prop :=
  exists c kp,
    evs = [(Module_malloc_chars key, Pointer c);
           (QTS_NewString (ctx vm) c, Pointer kp);
           (Module_free c, NoAnswer);
           (QTS_GetProp (ctx vm) obj kp, Pointer p);
           (QTS_FreeValuePointer (ctx vm) kp, NoAnswer)].

(** An accessor of a property descriptor as [defineProp] passes it: when
    it is given, a foreign function is made for it under the id [id] ([made])
    and its handle is released after the definition ([freed]); when it is
    not, the foreign [undefined] is passed. *)
Definition accessor_events (o : option user_fn) (id : Z) (p up : pointer)
    (made freed : list ffi_event) : Prop :=
  match o with
  | Some f =>
      made = [(QTS_NewFunction (ctx vm) id (user_fn_name f), Pointer p)] /\
      freed = [(QTS_FreeValuePointer (ctx vm) p, NoAnswer)]
  | None => p = up /\ made = [] /\ freed = []
  end.

(** The result of a call or an evaluation: a new live handle around the raw
    result under [value] when no exception is pending, around the exception
    under [error] when one is. *)
Definition result_of (s1 : state) (rp ep : pointer) (r : call_result) : Prop :=
  exists h,
    if decide (ep = 0)
    then r = CallResult (Some h) None /\ heap_value s1 h rp true
    else r = CallResult None (Some h) /\ heap_value s1 h ep true.

End Model.


(** ** A concrete world, for closed instances *)

Module Demo.

(** The collaborators' state: the next fresh pointer, whether the foreign
    runtime has an exception pending for [QTS_ResolveException], what it
    answers to [QTS_Typeof] and [QTS_Dump], and how often the host
    implementation [Count] ran. *)
Record world := World {
  next : Z;
  pending_exception : bool;
  typeof_answer : string;
  dump_answer : string;
  runs : nat
}.

Definition answer_ptr (c : ffi_call) (w : world) : pointer :=
  match c with
  | QTS_ResolveException _ _ => if pending_exception w then next w else 0
  | _ => next w
  end.

Definition answer_str (c : ffi_call) (w : world) : string :=
  match c with
  | QTS_Typeof _ _ => typeof_answer w
  | QTS_Dump _ _ => dump_answer w
  | _ => "text"
  end.

Definition step (c : ffi_call) (w : world) : world :=
  World (next w + 1) (pending_exception w) (typeof_answer w) (dump_answer w) (runs w).

Definition dq : string := String (Ascii.ascii_of_nat 34) EmptyString.

(** The text [{"name":"RangeError","message":"x"}]. *)
Definition error_json : string :=
  "{" +:+ dq +:+ "name" +:+ dq +:+ ":" +:+ dq +:+ "RangeError" +:+ dq +:+ ","
      +:+ dq +:+ "message" +:+ dq +:+ ":" +:+ dq +:+ "x" +:+ dq +:+ "}".

(** [JSON.parse] on the three texts used below; any other text counts as
    malformed. *)
Definition parse (text : string) : option hostval :=
  if decide (text = "true") then Some (VBool true)
  else if decide (text = "{}") then Some (VObj [])
  else if decide (text = error_json)
       then Some (VObj [("name", VStr "RangeError"); ("message", VStr "x")])
  else None.

Definition C : @collaborators world unit :=
  Collaborators answer_ptr answer_str (fun _ _ => F64 0) step parse
                "at host.js:1:1" (fun _ => 0) (fun _ => "?").

Definition vm : context := Context 1%nat 1000 2000.

(** Host implementations. *)
Inductive impl :=
| Count            (* bumps a host counter, returns nothing *)
| Echo             (* returns its first argument *)
| Raising          (* throws a host RangeError *)
| ReturnDisposed   (* makes a string, disposes it and returns it *)
| ThrowDisposed.   (* makes a string, disposes it and throws it *)

Definition bump : M (external := world) (user_fn := impl) unit :=
  modify (fun s => State (heap s) (scopes s) (promises s) (trace s)
                         (World (next (ext s)) (pending_exception (ext s))
                                (typeof_answer (ext s)) (dump_answer (ext s))
                                (S (runs (ext s))))
                         (fnNextId s) (fnMap s) (_undefined s) (_global s)).

Definition range_error : host_error :=
  HostError (Some "RangeError") (Some "boom") (Some "at impl (host.js:7:3)").

Definition run (f : impl) (thisHandle : handle) (args : list handle)
    : M (external := world) (user_fn := impl) impl_result :=
  match f with
  | Count => bump;; ret ImplVoid
  | Echo => match args with a :: _ => ret (ImplHandle a) | [] => ret ImplVoid end
  | Raising => raise (ExnError range_error)
  | ReturnDisposed => h <- newString C vm "gone";; dispose C h;; ret (ImplHandle h)
  | ThrowDisposed => h <- newString C vm "gone";; dispose C h;; raise (ExnHandle h)
  end.

Definition impl_name (f : impl) : string :=
  match f with
  | Count => "count" | Echo => "echo" | Raising => "raising"
  | ReturnDisposed => "returnDisposed" | ThrowDisposed => "throwDisposed"
  end.

(** A fresh context: its memory Scope and nothing else. *)
Definition initial (w : world) : state (external := world) (user_fn := impl) :=
  State [] [ScopeObj [] true] [] [] w 0 ∅ None None.

Definition calm : world := World 1 false "object" "{}" 0.

(** A runtime that reports an exception, a [RangeError], for every call. *)
Definition stormy : world := World 1 true "object" error_json 0.



(** One object (handle 0) in the world [w]. *)
Definition one_object (w : world) : state (external := world) (user_fn := impl) :=
  snd (newObject C vm None (initial w)).

(** The implementation [f] registered by [newFunction]; its id is 1. *)
Definition registered (f : impl) : state (external := world) (user_fn := impl) :=
  snd (newFunction C vm (impl_name f) (UserFn f) (initial calm)).

(** The deferred promise that [newPromise] makes in a fresh context, the
    store it leaves, and that store after [resolve()]. *)
Definition deferred : QuickJSDeferredPromise := DeferredPromise 1 0 2 3.

Definition pending (w : world) : state (external := world) (user_fn := impl) :=
  snd (newPromise C vm (initial w)).

Definition settled : state (external := world) (user_fn := impl) :=
  snd (resolve C vm deferred None (pending calm)).

(** The pending promise next to a string (handle 4) that was disposed. *)
Definition pending_and_disposed : state (external := world) (user_fn := impl) :=
  snd ((h <- newString C vm "late";; dispose C h) (pending calm)).

(** One object (handle 0) with the global object fetched (handle 2) and
    with [undefined] fetched (handle 1). *)
Definition with_global : state (external := world) (user_fn := impl) :=
  snd (global C vm (one_object calm)).

Definition with_undefined : state (external := world) (user_fn := impl) :=
  snd (undefined C (one_object calm)).

(** The store after [resolvePromise] on the object: its host promise is
    promise 0, its two closures have the ids 1 and 2. *)
Definition awaiting : state (external := world) (user_fn := impl) :=
  snd (resolvePromise C vm 0%nat (one_object calm)).

(** A descriptor with a value and a getter. *)
Definition counted : VmPropertyDescriptor impl :=
  PropertyDescriptor impl (Some 0%nat) true false (Some Count) None.

(** Implementations that return a handle they hold, and a store with one
    object (handle 0) and such an implementation, for that object, under the
    id 1. *)
Inductive keeper := Keeps (h : handle).

Definition run_keeper (f : keeper) (thisHandle : handle) (args : list handle)
    : M (external := world) (user_fn := keeper) impl_result :=
  match f with Keeps h => ret (ImplHandle h) end.

Definition keeping : state (external := world) (user_fn := keeper) :=
  snd ((o <- newObject C vm None;; newFunction C vm "kept" (UserFn (Keeps o)))
         (State [] [ScopeObj [] true] [] [] calm 0 ∅ None None)).

End Demo.

(** ** Properties *)

Section Properties.

Context {external user_fn eval_options : Type}.
Variable C : collaborators (external := external) (eval_options := eval_options).
Variable vm : context.
Variable user_fn_name : user_fn -> string.
Variable apply_user :
  user_fn -> handle -> list handle -> M (external := external) (user_fn := user_fn) impl_result.

Local Abbreviation store := (state (external := external) (user_fn := user_fn)).
Local Abbreviation HM := (M (external := external) (user_fn := user_fn)).

(** *** How the basic operations end *)

Lemma assertOwned_cases (h : handle) (s : store) :
  assertOwned C vm h s = (Ok tt, s) \/ assertOwned C vm h s = (Raise (ownership_error C), s).
Proof.
  unfold assertOwned, bind, gets.
  destruct (owner_of s h) as [o|]; [|by left].
  destruct (decide (o = owner vm)); [by left | by right].
Qed.


Lemma value_cases (h : handle) (s : store) :
  (exists p, value C h s = (Ok p, s)) \/ value C h s = (Raise (use_after_dispose C), s).
Proof.
  unfold value. destruct (heap s !! h) as [l|]; [|by right].
  destruct (lt_alive l); [left; eauto | by right].
Qed.

Lemma values_cases (hs : list handle) (s : store) :
  (exists ps, values C hs s = (Ok ps, s)) \/ values C hs s = (Raise (use_after_dispose C), s).
Proof.
  induction hs as [|h hs IH]; simpl.
  - left. by exists [].
  - unfold bind. destruct (value_cases h s) as [[p ->] | ->]; [|by right].
    destruct IH as [[ps ->] | ->]; [left; eauto | by right].
Qed.

Lemma dispose_returns (h : handle) (s : store) :
  exists s', dispose C h s = (Ok tt, s').
Proof.
  unfold dispose, bind, gets.
  destruct (heap s !! h) as [l|]; [|eauto].
  destruct (lt_class l); eauto.
  destruct (lt_alive l); eauto.
  destruct (lt_disposer l) as [[c|]|]; simpl; eauto.
Qed.


(** *** Running a computation step by step *)

Lemma bind_ok {A B} (m : M A) (k : A -> M B) (s s1 : store) a R :
  m s = (Ok a, s1) -> k a s1 = R -> bind m k s = R.
Proof. intros E <-. unfold bind. by rewrite E. Qed.

Lemma bind_raise {A B} (m : M A) (k : A -> M B) (s s1 : store) e :
  m s = (Raise e, s1) -> bind m k s = (Raise e, s1).
Proof. intros E. unfold bind. by rewrite E. Qed.

Lemma bind_inv {A B} (m : M A) (k : A -> M B) (s s2 : store) r :
  bind m k s = (r, s2) ->
  (exists a s1, m s = (Ok a, s1) /\ k a s1 = (r, s2)) \/
  (exists e, m s = (Raise e, s2) /\ r = Raise e).
Proof.
  unfold bind. destruct (m s) as [[a|e] s1]; intros E.
  - left. eauto.
  - right. inversion E; subst. eauto.
Qed.

Lemma try_eq {A} (m : M A) (s s1 : store) r :
  m s = (r, s1) -> try m s = (Ok r, s1).
Proof. intros E. unfold try. by rewrite E. Qed.

(** *** Frames: what a computation leaves alone

    [framed n m Q]: started in a store whose heap has at least [n] entries,
    [m] leaves the first [n] Lifetimes exactly as they were, and what it
    returns satisfies [Q]. *)

Definition keeps (n : nat) (s s' : store) : Prop :=
  (length (heap s) <= length (heap s'))%nat /\
  forall h, (h < n)%nat -> heap s' !! h = heap s !! h.

Definition framed {A} (n : nat) (m : M A) (Q : A -> Prop) : Prop :=
  forall (s s' : store) r,
    (n <= length (heap s))%nat -> m s = (r, s') ->
    keeps n s s' /\ (forall a, r = Ok a -> Q a).

Lemma keeps_refl n (s : store) : keeps n s s.
Proof. split; [lia | done]. Qed.

Lemma keeps_trans n (s1 s2 s3 : store) :
  keeps n s1 s2 -> keeps n s2 s3 -> keeps n s1 s3.
Proof.
  intros [L1 H1] [L2 H2]. split; [lia|].
  intros h Hh. by rewrite H2, H1.
Qed.

Lemma framed_weaken {A} n (m : M A) (Q Q' : A -> Prop) :
  framed n m Q -> (forall a, Q a -> Q' a) -> framed n m Q'.
Proof. intros H HQ s s' r Hn E. destruct (H s s' r Hn E). split; eauto. Qed.

Lemma framed_ret {A} n (a : A) (Q : A -> Prop) : Q a -> framed n (ret a) Q.
Proof.
  intros HQ s s' r _ E. inversion E; subst. split; [apply keeps_refl|].
  intros ? [= <-]. done.
Qed.

Lemma framed_raise {A} n e (Q : A -> Prop) : framed n (raise e) Q.
Proof. intros s s' r _ E. inversion E; subst. split; [apply keeps_refl | done]. Qed.

Lemma framed_bind {A B} n (m : M A) (k : A -> M B) Q R :
  framed n m Q -> (forall a, Q a -> framed n (k a) R) -> framed n (bind m k) R.
Proof.
  intros Hm Hk s s' r Hn E.
  apply bind_inv in E as [(a & s1 & E1 & E2) | (e & E1 & ->)].
  - destruct (Hm _ _ _ Hn E1) as [K1 Q1].
    assert (n <= length (heap s1))%nat as Hn1 by (destruct K1; lia).
    destruct (Hk a (Q1 _ eq_refl) _ _ _ Hn1 E2) as [K2 Q2].
    split; [eapply keeps_trans; eauto | done].
  - destruct (Hm _ _ _ Hn E1) as [K1 _]. split; [done | done].
Qed.

Lemma framed_try {A} n (m : M A) Q :
  framed n m Q -> framed n (try m) (fun r => forall a, r = Ok a -> Q a).
Proof.
  intros Hm s s' r Hn E. unfold try in E.
  destruct (m s) as [r0 s0] eqn:E0. inversion E; subst.
  destruct (Hm _ _ _ Hn E0) as [K Q0]. split; [done|].
  intros ? [= <-]. done.
Qed.

Lemma framed_rethrow {A} n (r : outcome A) (Q : A -> Prop) :
  (forall a, r = Ok a -> Q a) -> framed n (rethrow r) Q.
Proof.
  intros H. destruct r; simpl; [apply framed_ret; auto | apply framed_raise].
Qed.

Lemma framed_gets {A} n (f : store -> A) : framed n (gets f) (fun _ => True).
Proof. intros s s' r _ E. inversion E; subst. split; [apply keeps_refl | done]. Qed.

(** A step that does not touch the heap. *)
Lemma framed_same_heap {A} n (m : M A) :
  (forall s r s', m s = (r, s') -> heap s' = heap s) -> framed n m (fun _ => True).
Proof.
  intros H s s' r _ E. apply H in E. split; [|done].
  split; rewrite E; [lia | done].
Qed.

Lemma framed_ffi_pointer n c : framed n (ffi_pointer C c) (fun _ => True).
Proof. apply framed_same_heap. intros s r s' E. by inversion E. Qed.
Lemma framed_ffi_string n c : framed n (ffi_string C c) (fun _ => True).
Proof. apply framed_same_heap. intros s r s' E. by inversion E. Qed.
Lemma framed_ffi_number n c : framed n (ffi_number C c) (fun _ => True).
Proof. apply framed_same_heap. intros s r s' E. by inversion E. Qed.
Lemma framed_ffi_void n c : framed n (ffi_void C c) (fun _ => True).
Proof. apply framed_same_heap. intros s r s' E. by inversion E. Qed.

Lemma framed_value n (h : handle) : framed n (value C h) (fun _ => True).
Proof.
  apply framed_same_heap. intros s r s'. unfold value, ret.
  destruct (heap s !! h) as [l|]; [destruct (lt_alive l)|]; by intros [= <- <-].
Qed.

Lemma framed_assertOwned n (h : handle) : framed n (assertOwned C vm h) (fun _ => True).
Proof.
  apply framed_same_heap. intros s r s' E.
  destruct (assertOwned_cases h s) as [E'|E']; rewrite E' in E; by inversion E.
Qed.

Lemma framed_new_lifetime n l : framed n (new_lifetime l) (fun h => (n <= h)%nat).
Proof.
  intros s s' r Hn E. inversion E; subst. split; [|by intros ? [= <-]].
  split; simpl; [rewrite length_app; lia|].
  intros h Hh. apply lookup_app_l. lia.
Qed.

(** Disposing a Lifetime beyond the frame is within the frame. *)
Lemma framed_dispose n (h : handle) : (n <= h)%nat -> framed n (dispose C h) (fun _ => True).
Proof.
  intros Hh s s' r Hn E. split; [|done].
  revert E. unfold dispose, bind, gets, ret.
  destruct (heap s !! h) as [l|]; [|intros [= <- <-]; apply keeps_refl].
  destruct (lt_class l); try (intros [= <- <-]; apply keeps_refl).
  destruct (lt_alive l); [|intros [= <- <-]; apply keeps_refl].
  destruct (lt_disposer l) as [[c|]|]; intros [= <- <-]; simpl;
    (split; simpl; [rewrite length_alter; lia |
                    intros h' Hh'; apply list_lookup_alter_ne; lia]).
Qed.

Lemma framed_ret_eq {A} n (a : A) : framed n (ret a) (fun x => x = a).
Proof. by apply framed_ret. Qed.

Lemma framed_dispose_returns n (h : handle) (Q : unit -> Prop) :
  (n <= h)%nat -> Q tt -> framed n (dispose C h) Q.
Proof.
  intros Hh HQ. eapply framed_weaken; [by apply framed_dispose|]. by intros [].
Qed.

(** [consume] of a Lifetime beyond the frame. *)
Lemma framed_consume {A} n (h : handle) (fn : handle -> M A) Q :
  (n <= h)%nat -> framed n (fn h) Q -> framed n (consume C h fn) Q.
Proof.
  intros Hh Hfn. unfold consume.
  eapply framed_bind; [by apply framed_try|]. cbv beta. intros r Hr.
  eapply framed_bind; [by apply framed_dispose|]. intros _ _.
  by apply framed_rethrow.
Qed.

Lemma framed_values n (hs : list handle) : framed n (values C hs) (fun _ => True).
Proof.
  apply framed_same_heap. intros s r s' E.
  destruct (values_cases hs s) as [[ps E']|E']; rewrite E' in E; by inversion E.
Qed.

Lemma framed_heapValueHandle n p :
  framed n (heapValueHandle vm p) (fun h => (n <= h)%nat).
Proof. apply framed_new_lifetime. Qed.

Lemma framed_toPointerArray n (hs : list handle) :
  framed n (toPointerArray C hs) (fun h => (n <= h)%nat).
Proof.
  unfold toPointerArray.
  eapply framed_bind; [apply framed_values|]. intros ps _.
  eapply framed_bind; [apply framed_ffi_pointer|]. intros p _.
  apply framed_new_lifetime.
Qed.

Lemma framed_newHeapCharPointer n str :
  framed n (newHeapCharPointer C str) (fun h => (n <= h)%nat).
Proof.
  unfold newHeapCharPointer.
  eapply framed_bind; [apply framed_ffi_pointer|]. intros p _.
  apply framed_new_lifetime.
Qed.

(** What [callFunction] and [evalCode] hand back: a fresh handle under
    exactly one of the two keys. *)
Definition fresh_result (n : nat) (r : call_result) : Prop :=
  exists h : handle, (n <= h)%nat /\
    (r = CallResult (Some h) None \/ r = CallResult None (Some h)).

Lemma framed_resolve_exception n resultPtr :
  framed n
    (errorPtr <- ffi_pointer C (QTS_ResolveException (ctx vm) resultPtr);;
     if decide (errorPtr <> 0)
     then (ffi_void C (QTS_FreeValuePointer (ctx vm) resultPtr);;
           h <- heapValueHandle vm errorPtr;;
           ret (CallResult None (Some h)))
     else (h <- heapValueHandle vm resultPtr;;
           ret (CallResult (Some h) None)))
    (fresh_result n).
Proof.
  eapply framed_bind; [apply framed_ffi_pointer|]. intros errorPtr _.
  destruct (decide (errorPtr <> 0)).
  - eapply framed_bind; [apply framed_ffi_void|]. intros _ _.
    eapply framed_bind; [apply framed_heapValueHandle|]. intros h Hh.
    apply framed_ret. exists h. auto.
  - eapply framed_bind; [apply framed_heapValueHandle|]. intros h Hh.
    apply framed_ret. exists h. auto.
Qed.

Lemma framed_callFunction n (func thisVal : handle) (args : list handle) :
  framed n (callFunction C vm func thisVal args) (fresh_result n).
Proof.
  unfold callFunction.
  eapply framed_bind; [apply framed_assertOwned|]. intros _ _.
  eapply framed_bind; [apply framed_toPointerArray|]. intros arr Harr.
  eapply framed_bind.
  { apply framed_consume; [done|].
    eapply framed_bind; [apply framed_value|]. intros f _.
    eapply framed_bind; [apply framed_value|]. intros t _.
    eapply framed_bind; [apply framed_value|]. intros a _.
    apply framed_ffi_pointer. }
  intros resultPtr _. apply framed_resolve_exception.
Qed.

Lemma framed_evalCode n code filename options :
  framed n (evalCode C vm code filename options) (fresh_result n).
Proof.
  unfold evalCode.
  eapply framed_bind; [apply framed_newHeapCharPointer|]. intros chars Hchars.
  eapply framed_bind.
  { apply framed_consume; [done|].
    eapply framed_bind; [apply framed_value|]. intros c _.
    apply framed_ffi_pointer. }
  intros resultPtr _. apply framed_resolve_exception.
Qed.

Lemma fresh_result_one_branch n r : fresh_result n r -> one_branch r.
Proof. intros (h & _ & [-> | ->]); exact I. Qed.

Lemma framed_typeof n (h : handle) : framed n (typeof C vm h) (fun _ => True).
Proof.
  unfold typeof.
  eapply framed_bind; [apply framed_assertOwned|]. intros _ _.
  eapply framed_bind; [apply framed_value|]. intros v _.
  apply framed_ffi_string.
Qed.

Lemma framed_dump n (h : handle) : framed n (dump C vm h) (fun _ => True).
Proof.
  unfold dump, getString, getNumber.
  eapply framed_bind; [apply framed_assertOwned|]. intros _ _.
  eapply framed_bind; [apply framed_typeof|]. intros type _.
  repeat case_decide.
  - eapply framed_bind; [|intros; by apply framed_ret].
    eapply framed_bind; [apply framed_assertOwned|]. intros _ _.
    eapply framed_bind; [apply framed_value|]. intros v _.
    apply framed_ffi_string.
  - eapply framed_bind; [|intros; by apply framed_ret].
    eapply framed_bind; [apply framed_assertOwned|]. intros _ _.
    eapply framed_bind; [apply framed_value|]. intros v _.
    apply framed_ffi_number.
  - by apply framed_ret.
  - eapply framed_bind; [apply framed_value|]. intros v _.
    eapply framed_bind; [apply framed_ffi_string|]. intros str _.
    destruct (JSON_parse C str); by apply framed_ret.
Qed.

(** [unwrapResult] returns only on a result without an error, and then it
    returns [result.value] and touches nothing. *)
Lemma unwrapResult_returns_inv (r : call_result) (s s' : store) x :
  unwrapResult C vm r s = (Ok x, s') ->
  res_error r = None /\ x = res_value r /\ s' = s.
Proof.
  unfold unwrapResult. destruct (res_error r) as [e|].
  - intros E. exfalso.
    apply bind_inv in E as [(dumped & s1 & _ & E) | (? & _ & [=])].
    revert E. unfold raise. repeat case_match; discriminate.
  - intros [= <- <-]. done.
Qed.

Lemma framed_undefined n : framed n (undefined C) (fun _ => True).
Proof.
  unfold undefined.
  eapply framed_bind; [apply framed_gets|]. intros [u|] _.
  - by apply framed_ret.
  - eapply framed_bind; [apply framed_ffi_pointer|]. intros p _.
    eapply framed_bind; [apply framed_new_lifetime|]. intros h _.
    eapply framed_bind; [|intros; by apply framed_ret].
    apply framed_same_heap. by intros s r s' [= <- <-].
Qed.

Lemma framed_or_undefined n v : framed n (or_undefined C v) (fun _ => True).
Proof. destruct v; simpl; [by apply framed_ret | apply framed_undefined]. Qed.

(** A settling call that completes ran the whole body: up to
    [disposeResolvers] every Lifetime that existed before is left as it
    was. *)
Lemma settle_with_inv (cb : handle) d v (s s' : store) :
  is_alive s cb = true ->
  settle_with C vm cb d v s = (Ok tt, s') ->
  exists s3 s4, keeps (length (heap s)) s s3 /\
    disposeResolvers C d s3 = (Ok tt, s4) /\ onSettled d s4 = (Ok tt, s').
Proof.
  intros Ha. unfold settle_with.
  unfold bind at 1, alive at 1, gets at 1. rewrite Ha. cbn [negb].
  set (n := length (heap s)). assert (n <= length (heap s))%nat as Hn by done.
  clearbody n. intros E.
  apply bind_inv in E as [(thisVal & s1 & E1 & E) | (? & _ & [=])].
  destruct (framed_undefined n _ _ _ Hn E1) as [K1 _].
  assert (n <= length (heap s1))%nat as Hn1 by (destruct K1; lia).
  apply bind_inv in E as [(arg & s2 & E2 & E) | (? & _ & [=])].
  destruct (framed_or_undefined n v _ _ _ Hn1 E2) as [K2 _].
  assert (n <= length (heap s2))%nat as Hn2 by (destruct K2; lia).
  apply bind_inv in E as [(called & s3 & E3 & E) | (? & _ & [=])].
  destruct (framed_callFunction n _ _ _ _ _ _ Hn2 E3) as [K3 F3].
  assert (n <= length (heap s3))%nat as Hn3 by (destruct K3; lia).
  specialize (F3 _ eq_refl) as (h & Hh & Hr).
  apply bind_inv in E as [(unwrapped & s4 & E4 & E) | (? & _ & [=])].
  apply unwrapResult_returns_inv in E4 as (Herr & -> & ->).
  destruct Hr as [-> | ->]; [|discriminate]. cbn [res_value dispose_unwrapped] in E.
  apply bind_inv in E as [([] & s5 & E5 & E) | (? & _ & [=])].
  destruct (framed_dispose n h Hh _ _ _ Hn3 E5) as [K5 _].
  apply bind_inv in E as [([] & s6 & E6 & E) | (? & _ & [=])].
  exists s5, s6. split; [|done].
  eauto using keeps_trans.
Qed.

(** *** Disposing owned Lifetimes *)

Ltac norm :=
  cbn beta iota zeta delta
      [heap scopes promises trace ext fnNextId fnMap _undefined _global
       upd_heap upd_scopes upd_promises set_fn set_undefined set_global log_call
       run_disposer run_copier ffi_void ffi_pointer ffi_string ffi_number
       modify gets ret raise new_lifetime fst snd
       kill lt_class lt_value lt_copier lt_disposer lt_owner lt_alive
       heap_lifetime weak_lifetime copyJSValue freeJSValue
       res_value res_error dispose_unwrapped or_undefined
       err_name err_message err_stack].

Lemma kill_dead (l : lifetime) : lt_alive l = false -> kill l = l.
Proof. destruct l; simpl; by intros ->. Qed.

Lemma dispose_owned_spec (h : handle) (l : lifetime) (s : store) :
  heap s !! h = Some l -> lt_class l = OwnedLifetime ->
  exists s', dispose C h s = (Ok tt, s') /\
    heap s' !! h = Some (kill l) /\
    (forall h' : handle, h' <> h -> heap s' !! h' = heap s !! h') /\
    length (heap s') = length (heap s) /\
    promises s' = promises s /\ scopes s' = scopes s.
Proof.
  intros Hl Hc. unfold dispose, bind, gets. rewrite Hl, Hc.
  destruct (lt_alive l) eqn:Ha.
  - destruct (lt_disposer l) as [[c|]|]; norm; eexists; (split; [reflexivity|]);
      norm; rewrite list_lookup_alter_eq, Hl, length_alter;
      (repeat split; try done); intros h' Hne; by apply list_lookup_alter_ne.
  - exists s. rewrite kill_dead by done. done.
Qed.

Lemma is_alive_lookup (s : store) (h : handle) (l : lifetime) :
  heap s !! h = Some l -> is_alive s h = lt_alive l.
Proof. intros H. unfold is_alive. by rewrite H. Qed.

Lemma dispose_if_alive_spec {A} (h : handle) (l : lifetime) (s : store) (k : M A) :
  heap s !! h = Some l -> lt_class l = OwnedLifetime ->
  exists s',
    (a <- alive h;; (if a then dispose C h else ret tt);; k) s = k s' /\
    heap s' !! h = Some (kill l) /\
    (forall h' : handle, h' <> h -> heap s' !! h' = heap s !! h') /\
    length (heap s') = length (heap s) /\
    promises s' = promises s /\ scopes s' = scopes s.
Proof.
  intros Hl Hc. unfold bind at 1, alive, gets. rewrite (is_alive_lookup _ _ _ Hl).
  destruct (lt_alive l) eqn:Ha.
  - destruct (dispose_owned_spec _ _ _ Hl Hc) as (s' & E & H).
    exists s'. split; [|done]. unfold bind. by rewrite E.
  - exists s. rewrite kill_dead by done. done.
Qed.

Lemma disposeResolvers_spec d (lr lj : lifetime) (s : store) :
  heap s !! dp_resolveHandle d = Some lr -> lt_class lr = OwnedLifetime ->
  heap s !! dp_rejectHandle d = Some lj -> lt_class lj = OwnedLifetime ->
  exists s', disposeResolvers C d s = (Ok tt, s') /\
    is_alive s' (dp_resolveHandle d) = false /\
    is_alive s' (dp_rejectHandle d) = false /\
    (forall h : handle, h <> dp_resolveHandle d -> h <> dp_rejectHandle d ->
       heap s' !! h = heap s !! h) /\
    promises s' = promises s.
Proof.
  intros Hr Hcr Hj Hcj. unfold disposeResolvers.
  edestruct (dispose_if_alive_spec (A := unit)) as (s1 & E1 & Hr1 & Ho1 & _ & Hp1 & _);
    [exact Hr | exact Hcr |]. rewrite E1. clear E1.
  assert (exists lj', heap s1 !! dp_rejectHandle d = Some lj' /\
                      lt_class lj' = OwnedLifetime) as (lj' & Hj1 & Hcj1).
  { destruct (decide (dp_rejectHandle d = dp_resolveHandle d)) as [e|ne].
    - rewrite e, Hr1. eauto.
    - rewrite (Ho1 _ ne). eauto. }
  destruct (dispose_if_alive_spec (A := unit) _ _ s1 (ret tt) Hj1 Hcj1)
    as (s2 & E2 & Hj2 & Ho2 & _ & Hp2 & _).
  exists s2. split.
  { etrans; [|exact E2]. unfold bind, alive, gets.
    destruct (is_alive s1 (dp_rejectHandle d)); [|done].
    by destruct (dispose C (dp_rejectHandle d) s1) as [[[]|] ?]. }
  rewrite (is_alive_lookup _ _ _ Hj2).
  split; [|split; [done|split]].
  - destruct (decide (dp_resolveHandle d = dp_rejectHandle d)) as [e|ne].
    + rewrite e. by rewrite (is_alive_lookup _ _ _ Hj2).
    + unfold is_alive. by rewrite (Ho2 _ ne), Hr1.
  - intros h H1 H2. by rewrite Ho2, Ho1.
  - congruence.
Qed.

Lemma onSettled_spec d (s : store) :
  exists s', onSettled d s = (Ok tt, s') /\ heap s' = heap s /\ trace s' = trace s /\
    promises s' = alter (fun old => match old with Pending => Fulfilled None | _ => old end)
                        (dp_settled d) (promises s).
Proof. eexists. split; [reflexivity|]. done. Qed.

(** ** The deferred promise *)

Lemma resolve_eq d v (s : store) :
  resolve C vm d v s = settle_with C vm (dp_resolveHandle d) d v s.
Proof. reflexivity. Qed.
Lemma reject_eq d v (s : store) :
  reject C vm d v s = settle_with C vm (dp_rejectHandle d) d v s.
Proof. reflexivity. Qed.

Lemma settle_with_dead (cb : handle) d v (s : store) :
  is_alive s cb = false -> settle_with C vm cb d v s = (Ok tt, s).
Proof.
  intros Ha. unfold settle_with, bind at 1, alive, gets. by rewrite Ha.
Qed.

(** A settling call that completes leaves both callbacks dead and every
    other Lifetime that existed before as it was. *)
Lemma settle_with_completes (cb : handle) d v (s s' : store) :
  deferred_in vm s d -> is_alive s cb = true ->
  settle_with C vm cb d v s = (Ok tt, s') ->
  is_alive s' (dp_resolveHandle d) = false /\
  is_alive s' (dp_rejectHandle d) = false /\
  (forall h : handle, (h < length (heap s))%nat ->
     h <> dp_resolveHandle d -> h <> dp_rejectHandle d -> heap s' !! h = heap s !! h).
Proof.
  intros (_ & (pr & ar & Hr) & (pj & aj & Hj) & _) Ha E.
  destruct (settle_with_inv _ _ _ _ _ Ha E) as (s3 & s4 & [_ K] & E3 & E4).
  unfold heap_value in Hr, Hj.
  assert (heap s3 !! dp_resolveHandle d = heap s !! dp_resolveHandle d) as Hr3
    by (apply K; by eapply lookup_lt_Some).
  assert (heap s3 !! dp_rejectHandle d = heap s !! dp_rejectHandle d) as Hj3
    by (apply K; by eapply lookup_lt_Some).
  rewrite Hr in Hr3. rewrite Hj in Hj3.
  destruct (disposeResolvers_spec d _ _ s3 Hr3 eq_refl Hj3 eq_refl)
    as (s4' & E3' & D1 & D2 & Ho & _).
  rewrite E3 in E3'. injection E3' as <-.
  destruct (onSettled_spec d s4) as (s5 & E5 & Hh & _).
  rewrite E4 in E5. injection E5 as <-.
  unfold is_alive in *. rewrite Hh. repeat split; try done.
  intros h Hlt H1 H2. by rewrite Ho, K.
Qed.

(** *** Running on known Lifetimes *)

Lemma value_ok (h : handle) (l : lifetime) (s : store) :
  heap s !! h = Some l -> lt_alive l = true -> value C h s = (Ok (lt_value l), s).
Proof. intros H1 H2. unfold value. by rewrite H1, H2. Qed.

Lemma alive_known (h : handle) (l : lifetime) (s : store) :
  heap s !! h = Some l -> alive h s = (Ok (lt_alive l), s).
Proof. intros H. unfold alive, gets, is_alive. by rewrite H. Qed.

Lemma assertOwned_mine (h : handle) (l : lifetime) (s : store) :
  heap s !! h = Some l -> lt_owner l = Some (owner vm) -> assertOwned C vm h s = (Ok tt, s).
Proof.
  intros H1 H2. unfold assertOwned, bind, gets, owner_of. rewrite H1, H2.
  by rewrite decide_True.
Qed.

Lemma assertOwned_unowned (h : handle) (l : lifetime) (s : store) :
  heap s !! h = Some l -> lt_owner l = None -> assertOwned C vm h s = (Ok tt, s).
Proof. intros H1 H2. unfold assertOwned, bind, gets, owner_of. by rewrite H1, H2. Qed.

Lemma dispose_known (h : handle) (l : lifetime) (s : store) :
  heap s !! h = Some l ->
  dispose C h s =
    (Ok tt,
     match lt_class l with
     | OwnedLifetime =>
         if lt_alive l
         then upd_heap (alter kill h) (snd (run_disposer C (lt_disposer l) (lt_value l) s))
         else s
     | StaticLifetime | WeakLifetime => s
     end).
Proof.
  intros H. unfold dispose, bind, gets. rewrite H.
  destruct (lt_class l); try done. destruct (lt_alive l); [|done].
  by destruct (lt_disposer l) as [[c|]|].
Qed.

Lemma manage_ok (sc : nat) (h : handle) (hs : list handle) (s : store) :
  scopes s !! sc = Some (ScopeObj hs true) ->
  manage C sc h s = (Ok h, upd_scopes (<[sc := ScopeObj (hs ++ [h]) true]>) s).
Proof. intros H. unfold manage, bind, gets. by rewrite H. Qed.

Ltac len :=
  repeat first [rewrite length_app | rewrite length_alter | rewrite length_insert];
  cbn [length]; lia.

(** Looks up an entry of a store that is known up to appends and kills. *)
Ltac look :=
  norm;
  repeat first
    [ rewrite list_lookup_middle by len
    | rewrite lookup_app_l by len
    | rewrite list_lookup_alter_ne by len
    | rewrite list_lookup_alter_eq
    | rewrite list_lookup_insert_eq by len
    | rewrite list_lookup_insert_ne by len ];
  cbn [fmap option_fmap option_map kill lt_class lt_value lt_copier lt_disposer
       lt_owner lt_alive heap_lifetime weak_lifetime];
  first [eassumption | reflexivity].

(** *** The call's Scope *)

Lemma dispose_trace (h : handle) (s : store) :
  exists s' frees, dispose C h s = (Ok tt, s') /\
    trace s' = trace s ++ frees /\ Forall is_free frees /\
    scopes s' = scopes s /\ promises s' = promises s /\ fnMap s' = fnMap s.
Proof.
  unfold dispose, bind, gets.
  destruct (heap s !! h) as [l|]; [|by exists s, []; rewrite app_nil_r].
  destruct (lt_class l); try (by exists s, []; rewrite app_nil_r).
  destruct (lt_alive l); [|by exists s, []; rewrite app_nil_r].
  destruct (lt_disposer l) as [[c|]|]; cbn.
  - eexists _, [_]. repeat split; try done. by repeat constructor.
  - eexists _, [_]. repeat split; try done. by repeat constructor.
  - eexists _, []. repeat split; try done. cbn. by rewrite app_nil_r.
Qed.

Lemma dispose_all_run (hs : list nat) (s : store) :
  exists s' frees, dispose_all C hs s = (Ok tt, s') /\
    trace s' = trace s ++ frees /\ Forall is_free frees /\
    scopes s' = scopes s /\ promises s' = promises s /\ fnMap s' = fnMap s.
Proof.
  revert s. induction hs as [|h hs IH]; intros s.
  - exists s, []. by rewrite app_nil_r.
  - destruct (dispose_trace h s) as (s1 & f1 & E1 & T1 & F1 & S1 & P1 & M1).
    destruct (IH s1) as (s2 & f2 & E2 & T2 & F2 & S2 & P2 & M2).
    exists s2, (f1 ++ f2). cbn [dispose_all]. split.
    { eapply bind_ok; [exact E1 | exact E2]. }
    rewrite T2, T1, app_assoc, S2, S1, P2, P1, M2, M1. repeat split; try done.
    by apply Forall_app.
Qed.

Lemma scope_dispose_run (sc : nat) (hs : list nat) (s : store) :
  scopes s !! sc = Some (ScopeObj hs true) ->
  exists s' frees, scope_dispose C sc s = (Ok tt, s') /\
    trace s' = trace s ++ frees /\ Forall is_free frees /\
    scopes s' = <[sc := ScopeObj hs false]> (scopes s) /\
    promises s' = promises s /\ fnMap s' = fnMap s.
Proof.
  intros H. unfold scope_dispose, bind at 1, gets. rewrite H.
  destruct (dispose_all_run (rev hs) s) as (s1 & frees & E & T & F & S & P & M).
  eexists _, frees. split; [eapply bind_ok; [exact E | reflexivity]|].
  cbn. by rewrite T, S, P, M.
Qed.


(** *** Following a computation step by step

    A goal [Q (m s)] is turned into [Q (obind m finish s)] and the
    computation is then consumed from the left, one primitive at a time; what
    the foreign runtime answers is kept as a variable. *)

Section Steps.
Context {A B : Type} (Q : outcome B * store -> Prop) (K : outcome A -> HM B) (s : store).

Lemma run_start (m : HM B) : Q (obind m finish s) -> Q (m s).
Proof. unfold obind, finish. by destruct (m s). Qed.

Lemma obind_bind {X} (m : HM X) (k : X -> HM A) :
  Q (obind m (fun r => match r with Ok x => obind (k x) K | Raise e => K (Raise e) end) s) ->
  Q (obind (bind m k) K s).
Proof. unfold obind, bind. by destruct (m s) as [[x|e] s1]. Qed.

Lemma obind_try (m : HM A) (K' : outcome (outcome A) -> HM B) :
  Q (obind m (fun r => K' (Ok r)) s) -> Q (obind (try m) K' s).
Proof. unfold obind, try. by destruct (m s). Qed.

Lemma obind_ret (a : A) : Q (K (Ok a) s) -> Q (obind (ret a) K s).
Proof. done. Qed.

Lemma obind_raise e : Q (K (Raise e) s) -> Q (obind (raise e) K s).
Proof. done. Qed.

Lemma obind_finish (r : outcome A) : Q (K r s) -> Q (obind (finish r) K s).
Proof. done. Qed.

Lemma obind_gets (f : store -> A) : Q (K (Ok (f s)) s) -> Q (obind (gets f) K s).
Proof. done. Qed.

Lemma obind_new_lifetime (l : lifetime) (n : nat) (K' : outcome nat -> HM B) :
  length (heap s) = n ->
  Q (K' (Ok n) (upd_heap (fun hp => hp ++ [l]) s)) ->
  Q (obind (new_lifetime l) K' s).
Proof. by intros <-. Qed.

Lemma obind_value (h : handle) (l : lifetime) (K' : outcome Z -> HM B) :
  heap s !! h = Some l -> lt_alive l = true ->
  Q (K' (Ok (lt_value l)) s) -> Q (obind (value C h) K' s).
Proof. intros H1 H2 HQ. unfold obind. by rewrite (value_ok _ _ _ H1 H2). Qed.

Lemma obind_value_dead (h : handle) (l : lifetime) (K' : outcome Z -> HM B) :
  heap s !! h = Some l -> lt_alive l = false ->
  Q (K' (Raise (use_after_dispose C)) s) -> Q (obind (value C h) K' s).
Proof. intros H1 H2 HQ. unfold obind, value. by rewrite H1, H2. Qed.

Lemma obind_alive (h : handle) (l : lifetime) (K' : outcome bool -> HM B) :
  heap s !! h = Some l -> Q (K' (Ok (lt_alive l)) s) -> Q (obind (alive h) K' s).
Proof. intros H HQ. unfold obind. by rewrite (alive_known _ _ _ H). Qed.

Lemma obind_assertOwned_mine (h : handle) (l : lifetime) (K' : outcome unit -> HM B) :
  heap s !! h = Some l -> lt_owner l = Some (owner vm) ->
  Q (K' (Ok tt) s) -> Q (obind (assertOwned C vm h) K' s).
Proof. intros H1 H2 HQ. unfold obind. by rewrite (assertOwned_mine _ _ _ H1 H2). Qed.

Lemma obind_assertOwned_unowned (h : handle) (l : lifetime) (K' : outcome unit -> HM B) :
  heap s !! h = Some l -> lt_owner l = None ->
  Q (K' (Ok tt) s) -> Q (obind (assertOwned C vm h) K' s).
Proof. intros H1 H2 HQ. unfold obind. by rewrite (assertOwned_unowned _ _ _ H1 H2). Qed.

Lemma obind_dispose (h : handle) (l : lifetime) (K' : outcome unit -> HM B) :
  heap s !! h = Some l ->
  Q (K' (Ok tt)
        match lt_class l with
        | OwnedLifetime =>
            if lt_alive l
            then upd_heap (alter kill h)
                   match lt_disposer l with
                   | Some (FreeJSValue c) =>
                       log_call C (QTS_FreeValuePointer c (lt_value l)) NoAnswer s
                   | Some FreeHeap => log_call C (Module_free (lt_value l)) NoAnswer s
                   | None => s
                   end
            else s
        | StaticLifetime | WeakLifetime => s
        end) ->
  Q (obind (dispose C h) K' s).
Proof.
  intros H HQ. unfold obind. rewrite (dispose_known _ _ _ H).
  destruct (lt_class l); try done. destruct (lt_alive l); [|done].
  by destruct (lt_disposer l) as [[c|]|].
Qed.

Lemma obind_manage (sc : nat) (h : handle) (hs : list nat) (K' : outcome nat -> HM B) :
  scopes s !! sc = Some (ScopeObj hs true) ->
  Q (K' (Ok h) (upd_scopes (<[sc := ScopeObj (hs ++ [h]) true]>) s)) ->
  Q (obind (manage C sc h) K' s).
Proof. intros H HQ. unfold obind. by rewrite (manage_ok _ _ _ _ H). Qed.

Lemma obind_modify (f : store -> store) (K' : outcome unit -> HM B) :
  Q (K' (Ok tt) (f s)) -> Q (obind (modify f) K' s).
Proof. done. Qed.

Lemma obind_ffi_void c (K' : outcome unit -> HM B) :
  Q (K' (Ok tt) (log_call C c NoAnswer s)) -> Q (obind (ffi_void C c) K' s).
Proof. done. Qed.

Lemma obind_ffi_pointer c (K' : outcome Z -> HM B) :
  (forall p, Q (K' (Ok p) (log_call C c (Pointer p) s))) ->
  Q (obind (ffi_pointer C c) K' s).
Proof. intros H. apply H. Qed.

Lemma obind_ffi_string c (K' : outcome string -> HM B) :
  (forall t, Q (K' (Ok t) (log_call C c (Text t) s))) ->
  Q (obind (ffi_string C c) K' s).
Proof. intros H. apply H. Qed.

Lemma obind_ffi_number c (K' : outcome float64 -> HM B) :
  (forall n, Q (K' (Ok n) (log_call C c (Number n) s))) ->
  Q (obind (ffi_number C c) K' s).
Proof. intros H. apply H. Qed.

Lemma obind_scope_dispose (sc : nat) (hs : list nat) (K' : outcome unit -> HM B) :
  scopes s !! sc = Some (ScopeObj hs true) ->
  (forall s1 frees,
     trace s1 = trace s ++ frees -> Forall is_free frees ->
     promises s1 = promises s -> fnMap s1 = fnMap s ->
     Q (K' (Ok tt) s1)) ->
  Q (obind (scope_dispose C sc) K' s).
Proof.
  intros H HQ. destruct (scope_dispose_run sc hs s H) as (s' & fr & E & T & F & _ & P & M).
  unfold obind. rewrite E. by eapply HQ.
Qed.

Lemma obind_known (m : HM A) r (s1 : store) :
  m s = (r, s1) -> Q (K r s1) -> Q (obind m K s).
Proof. intros E HQ. unfold obind. by rewrite E. Qed.

End Steps.

Ltac xnorm :=
  cbn beta iota zeta delta
      [heap scopes promises trace ext fnNextId fnMap _undefined _global
       upd_heap upd_scopes upd_promises set_fn set_undefined set_global log_call
       run_disposer fst snd rethrow
       kill lt_class lt_value lt_copier lt_disposer lt_owner lt_alive
       heap_lifetime weak_lifetime copyJSValue freeJSValue
       res_value res_error dispose_unwrapped or_undefined
       err_name err_message err_stack error_prop negb].

(** Brings a length to the form [length hp + k]. *)
Ltac xlength :=
  repeat first [rewrite length_app | rewrite length_alter | rewrite length_insert];
  cbn [length]; rewrite <- ?Nat.add_assoc; cbn [Nat.add].

Ltac xlook :=
  xnorm;
  repeat first
    [ rewrite list_lookup_middle by len
    | rewrite lookup_app_l by len
    | rewrite list_lookup_alter_ne by len
    | rewrite list_lookup_alter_eq
    | rewrite list_lookup_insert_eq by len
    | rewrite list_lookup_insert_ne by len ];
  cbn [fmap option_fmap option_map kill lt_class lt_value lt_copier lt_disposer
       lt_owner lt_alive heap_lifetime weak_lifetime];
  first [eassumption | reflexivity].

Ltac xside := first [reflexivity | eassumption].

Ltac xstep :=
  lazymatch goal with
  | |- _ (obind (bind _ _) _ _) => apply obind_bind
  | |- _ (obind (try _) _ _) => apply obind_try
  | |- _ (obind (ret _) _ _) => apply obind_ret; xnorm
  | |- _ (obind (raise _) _ _) => apply obind_raise; xnorm
  | |- _ (obind (finish _) _ _) => apply obind_finish; xnorm
  | |- _ (obind (gets _) _ _) => apply obind_gets; xnorm
  | |- _ (obind (modify _) _ _) => apply obind_modify; xnorm
  | |- _ (obind (new_lifetime _) _ _) =>
      eapply obind_new_lifetime; [xnorm; xlength; reflexivity | xnorm]
  | |- _ (obind (ffi_void _ _) _ _) => apply obind_ffi_void; xnorm
  | |- _ (obind (ffi_pointer _ _) _ _) => apply obind_ffi_pointer; intros ?p; xnorm
  | |- _ (obind (ffi_string _ _) _ _) => apply obind_ffi_string; intros ?t; xnorm
  | |- _ (obind (ffi_number _ _) _ _) => apply obind_ffi_number; intros ?n; xnorm
  | |- _ (obind (values _ _) _ _) => cbn [values]
  | |- _ (obind (value _ _) _ _) =>
      first [ eapply obind_value; [xlook | xside | xnorm]
            | eapply obind_value_dead; [xlook | xside | xnorm] ]
  | |- _ (obind (alive _) _ _) => eapply obind_alive; [xlook | xnorm]
  | |- _ (obind (assertOwned _ _ _) _ _) =>
      first [ eapply obind_assertOwned_mine; [xlook | xside | xnorm]
            | eapply obind_assertOwned_unowned; [xlook | xside | xnorm] ]
  | |- _ (obind (dispose _ _) _ _) => eapply obind_dispose; [xlook | xnorm]
  | |- _ (obind (manage _ _ _) _ _) => eapply obind_manage; [xlook | xnorm]
  | |- _ (obind (consume _ _ _) _ _) => unfold consume at 1
  | |- _ (obind (heapValueHandle _ _) _ _) => unfold heapValueHandle at 1
  | |- _ (obind (newHeapCharPointer _ _) _ _) => unfold newHeapCharPointer at 1
  | |- _ (obind (toPointerArray _ _) _ _) => unfold toPointerArray at 1
  | |- _ (obind (newString _ _ _) _ _) => unfold newString at 1
  | |- _ (obind (newNumber _ _ _) _ _) => unfold newNumber at 1
  | |- _ (obind (borrowPropertyKey _ _ _) _ _) => unfold borrowPropertyKey at 1; xnorm
  | |- _ (obind (setProp _ _ _ _ _) _ _) => unfold setProp at 1
  | |- _ (obind (getProp _ _ _ _) _ _) => unfold getProp at 1
  | |- _ (obind (typeof _ _ _) _ _) => unfold typeof at 1
  | |- _ (obind (getString _ _ _) _ _) => unfold getString at 1
  | |- _ (obind (getNumber _ _ _) _ _) => unfold getNumber at 1
  | |- _ (obind (errorToHandle _ _ _) _ _) => unfold errorToHandle at 1; xnorm
  | |- _ (obind (callFunction _ _ _ _ _) _ _) => unfold callFunction at 1
  | |- _ (obind (evalCode _ _ _ _ _) _ _) => unfold evalCode at 1; xnorm
  | |- _ (obind (withScope _ _) _ _) => unfold withScope at 1
  | |- _ (obind (withScopeMaybeAsync _ _) _ _) => unfold withScopeMaybeAsync, withScope at 1
  | |- _ (obind (then_catch _ _ _) _ _) => unfold then_catch at 1
  | |- _ (obind (new_Scope) _ _) => unfold new_Scope at 1, obind at 1; xnorm
  | |- _ (obind (new_promise _) _ _) => unfold new_promise at 1, obind at 1; xnorm
  | |- _ (obind (settle_promise _ _) _ _) => unfold settle_promise at 1
  | |- _ (obind (onSettled _) _ _) => unfold onSettled at 1
  | |- _ (obind (undefined _) _ _) => unfold undefined at 1
  | |- _ (obind (disposeResolvers _ _) _ _) => unfold disposeResolvers at 1
  end.

Ltac xrun := repeat xstep.
(** [xstart t]: follow the computation [t] that the goal speaks of. *)
Ltac xstart t :=
  pattern t;
  lazymatch goal with
  | |- ?P _ => let Q := fresh "Q" in set (Q := P); apply run_start
  end.
Ltac xdone :=
  lazymatch goal with
  | Q := _ |- _ => unfold finish; subst Q; cbv beta
  end.

(** *** Results of calls *)

Lemma is_alive_true (s : store) (h : handle) :
  is_alive s h = true -> exists l, heap s !! h = Some l /\ lt_alive l = true.
Proof. unfold is_alive. destruct (heap s !! h) as [l|]; [eauto | discriminate]. Qed.

Lemma values_alive (hs : list handle) (s : store) :
  Forall (fun h => is_alive s h = true) hs ->
  exists ps, values C hs s = (Ok ps, s).
Proof.
  induction 1 as [|h hs Hh _ [ps IH]]; [by exists []|].
  apply is_alive_true in Hh as (l & Hl & Ha).
  exists (lt_value l :: ps). cbn [values].
  eapply bind_ok; [by apply value_ok|]. eapply bind_ok; [exact IH | reflexivity].
Qed.

(** C2.  What [callFunction] and [evalCode] return has exactly one of the
    two keys [value] and [error].  [evalCode] always returns, and so does
    [callFunction] when the function passes [assertOwned] and the function,
    [thisVal] and the arguments are alive. *)
Theorem call_result_has_one_branch :
  (forall func thisVal args (s s' : store) r,
     callFunction C vm func thisVal args s = (Ok r, s') -> one_branch r) /\
  (forall code filename options (s s' : store) r,
     evalCode C vm code filename options s = (Ok r, s') -> one_branch r) /\
  (forall code filename options (s : store),
     exists r s', evalCode C vm code filename options s = (Ok r, s')) /\
  (forall func thisVal args (s : store),
     owner_of s func = None \/ owner_of s func = Some (owner vm) ->
     Forall (fun h => is_alive s h = true) (func :: thisVal :: args) ->
     exists r s', callFunction C vm func thisVal args s = (Ok r, s')).
Proof.
  split; [|split; [|split]].
  - intros func thisVal args s s' r E.
    destruct (framed_callFunction 0 func thisVal args s s' (Ok r) (Nat.le_0_l _) E) as [_ H].
    eapply fresh_result_one_branch, H. reflexivity.
  - intros code filename options s s' r E.
    destruct (framed_evalCode 0 code filename options s s' (Ok r) (Nat.le_0_l _) E) as [_ H].
    eapply fresh_result_one_branch, H. reflexivity.
  - intros code filename options s. destruct s as [hp sc pr tr ex id fm u g].
    xstart (evalCode C vm code filename options (State hp sc pr tr ex id fm u g)).
    xrun. case_decide; xrun; xdone; eauto.
  - intros func thisVal args s Ho Hall.
    inversion Hall as [|? ? Hf Hrest]; subst. inversion Hrest as [|? ? Ht Hargs]; subst.
    apply is_alive_true in Hf as (lf & Hlf & Haf).
    apply is_alive_true in Ht as (lt & Hlt & Hat).
    destruct (values_alive _ _ Hargs) as [ps Eps].
    assert (lt_owner lf = None \/ lt_owner lf = Some (owner vm)) as Ho'
      by (unfold owner_of in Ho; by rewrite Hlf in Ho).
    pose proof (lookup_lt_Some _ _ _ Hlf). pose proof (lookup_lt_Some _ _ _ Hlt).
    destruct s as [hp sc pr tr ex id fm u g]. cbn [heap] in *.
    xstart (callFunction C vm func thisVal args (State hp sc pr tr ex id fm u g)).
    destruct Ho' as [Ho' | Ho']; xrun.
    all: (eapply obind_known; [exact Eps|]); xnorm; xrun.
    all: case_decide; xrun; xdone; eauto.
Qed.

(** *** dump and unwrapResult *)

Lemma dump_run (h : handle) (l : lifetime) (s : store) :
  heap s !! h = Some l -> lt_alive l = true ->
  lt_owner l = None \/ lt_owner l = Some (owner vm) ->
  exists type evs r s',
    dump C vm h s = (Ok r, s') /\
    only_called s s' ((QTS_Typeof (ctx vm) (lt_value l), Text type) :: evs) /\
    dumped_as vm (JSON_parse C) (lt_value l) type evs r.
Proof.
  intros Hl Ha Ho. destruct s as [hp sc pr tr ex id fm u g]. cbn [heap] in Hl.
  xstart (dump C vm h (State hp sc pr tr ex id fm u g)). unfold dump at 1.
  destruct Ho as [Ho | Ho].
  all: xrun.
  all: repeat (case_decide; xrun).
  all: try (lazymatch goal with
            | |- _ (obind (match JSON_parse C ?t with _ => _ end) _ _) =>
                destruct (JSON_parse C t) eqn:Hparse
            end; xrun).
  all: xdone; eexists _, _, _, _; (split; [reflexivity|]);
    (split; [repeat split; xnorm; rewrite <- ?app_assoc; reflexivity|]).
  all: unfold dumped_as;
    first [ left; split; [assumption | eauto]
          | right; left; split; [assumption | eauto]
          | right; right; left; done
          | right; right; right; (repeat split; try assumption);
            eexists; (split; [reflexivity|]); by rewrite Hparse ].
Qed.



(** C6.  [unwrapResult] returns [result.value] as it is, and touches
    nothing, when the result has no error.  When it has one, the error handle
    is consumed: it is dumped, then disposed, and [unwrapResult] throws.  What
    it throws is a host [Error] with the message of the dump, and with its
    name when that is a string (["Error"] otherwise), when the dump is an
    object with a string message; it is the dumped value itself in the other
    cases, and the failure of [dump] when [dump] failed.  An owned error
    handle is dead afterwards. *)
Theorem unwrapResult_returns_or_throws (result : call_result) (s : store) :
  (res_error result = None -> unwrapResult C vm result s = (Ok (res_value result), s)) /\
  (forall h, res_error result = Some h ->
     exists rd s1 s2 e,
       dump C vm h s = (rd, s1) /\ dispose C h s1 = (Ok tt, s2) /\
       unwrapResult C vm result s = (Raise e, s2) /\
       (forall e0, rd = Raise e0 -> e = e0) /\
       (forall fields message, rd = Ok (VObj fields) ->
          get_field "message" fields = Some (VStr message) ->
          e = ExnError (HostError
                (Some match get_field "name" fields with
                      | Some (VStr name) => name
                      | _ => "Error"
                      end)
                (Some message) (Some (host_stack C)))) /\
       (forall dumped, rd = Ok dumped ->
          (forall fields message, dumped = VObj fields ->
             get_field "message" fields <> Some (VStr message)) ->
          e = ExnOther dumped) /\
       (forall l, heap s !! h = Some l -> lt_class l = OwnedLifetime ->
          is_alive s2 h = false)).
Proof.
  split.
  - intros H. unfold unwrapResult. by rewrite H.
  - intros h H. unfold unwrapResult. rewrite H.
    unfold consume, bind, try.
    destruct (dump C vm h s) as [rd s1] eqn:Ed.
    destruct (dispose_returns h s1) as [s2 E2]. rewrite E2.
    assert (forall l, heap s !! h = Some l -> lt_class l = OwnedLifetime ->
              is_alive s2 h = false) as Hdead.
    { intros l Hl Hc.
      destruct (framed_dump (length (heap s)) h s s1 rd (le_n _) Ed) as [[_ K] _].
      rewrite <- K in Hl by (by eapply lookup_lt_Some).
      destruct (dispose_owned_spec _ _ _ Hl Hc) as (s2' & E2' & Hk & _).
      rewrite E2 in E2'. injection E2' as <-.
      unfold is_alive. by rewrite Hk. }
    exists rd, s1, s2,
      match rd with
      | Raise e0 => e0
      | Ok (VObj fields) =>
          match get_field "message" fields with
          | Some (VStr message) =>
              unwrapped_exception C (get_field "name" fields) message
          | _ => ExnOther (VObj fields)
          end
      | Ok dumped => ExnOther dumped
      end.
    split; [done|]. split; [done|]. split; [|split; [|split; [|split]]].
    + destruct rd as [[| |b|n|str|xs|fields]|e0]; try reflexivity.
      unfold rethrow, ret. cbv beta iota.
      by destruct (get_field "message" fields) as [[| |b|n|str|xs|fs]|].
    + by intros e0 ->.
    + intros fields message -> Hm. by rewrite Hm.
    + intros dumped -> Hnot. destruct dumped as [| |b|n|str|xs|fields]; try done.
      destruct (get_field "message" fields) as [[| |b|n|str|xs|fs]|] eqn:Hm; try done.
      exfalso. by eapply Hnot.
    + exact Hdead.
Qed.

(** [unwrapResult] on the error of a call: the fresh error handle is dumped
    and released, and the dump, or an [Error] made of it, is thrown. *)
Lemma unwrapResult_error_run (x : option nat) (h : handle) (p : Z) (s : store) :
  heap_value vm s h p true ->
  exists e evs s',
    unwrapResult C vm (CallResult x (Some h)) s = (Raise e, s') /\
    heap s' = alter kill h (heap s) /\
    scopes s' = scopes s /\ promises s' = promises s /\
    _undefined s' = _undefined s /\
    trace s' = trace s ++ evs /\ Forall (fun e => ~ is_call e) evs.
Proof.
  intros Hh. unfold heap_value in Hh.
  edestruct (dump_run h _ s Hh) as (type & evs & r & s1 & E & Hs1 & Hd);
    [reflexivity | by right |].
  destruct Hs1 as (Hheap & Hsc & Hpr & _ & _ & Hu & _ & Htr).
  cbn [lt_value] in Htr, Hd.
  assert (Forall (fun e => ~ is_call e)
            ((QTS_Typeof (ctx vm) p, Text type) :: evs)) as Hnc.
  { constructor; [exact (fun H => H)|].
    destruct Hd as [(_ & ? & -> & _) | [(_ & ? & -> & _) | [(_ & -> & _) |
                    (_ & _ & _ & ? & -> & _)]]];
      repeat constructor; exact (fun H => H). }
  xstart (unwrapResult C vm (CallResult x (Some h)) s).
  unfold unwrapResult at 1. xnorm. xrun.
  eapply obind_known; [exact E|]. xnorm. xrun.
  eapply obind_dispose; [rewrite Hheap; exact Hh|]. xnorm.
  assert (forall (e : host_exn) (s2 : store) (evs2 : list ffi_event),
            heap s2 = alter kill h (heap s1) -> scopes s2 = scopes s1 ->
            promises s2 = promises s1 -> _undefined s2 = _undefined s1 ->
            trace s2 = trace s1 ++ evs2 -> Forall (fun e => ~ is_call e) evs2 ->
            Q (Raise e, s2)) as Hend.
  { intros e s2 evs2 H1 H2 H3 H4 H5 H6. subst Q. cbv beta.
    exists e, (((QTS_Typeof (ctx vm) p, Text type) :: evs) ++ evs2), s2.
    split; [reflexivity|].
    rewrite H1, H2, H3, H4, H5, Hheap, Hsc, Hpr, Hu, Htr. repeat split; try done.
    - by rewrite <- app_assoc.
    - by apply Forall_app. }
  destruct r as [| |b|n|str|xs|fields]; xrun;
    [..| destruct (get_field "message" fields) as [[| |b|n|str|xs|fs]|]; xrun];
    unfold finish; (eapply Hend; [reflexivity..|]);
    repeat constructor; exact (fun H => H).
Qed.

(** *** Settling a pending promise *)

Lemma settle_with_run (cb : handle) (cbp pr pj : Z) d v (s : store) :
  (cb = dp_resolveHandle d /\ cbp = pr) \/ (cb = dp_rejectHandle d /\ cbp = pj) ->
  heap_value vm s (dp_resolveHandle d) pr true ->
  heap_value vm s (dp_rejectHandle d) pj true ->
  dp_resolveHandle d <> dp_rejectHandle d ->
  undefined_cached_ok s -> alive_if_given s v ->
  settlement vm d v cbp pr pj s (settle_with C vm cb d v s).
Proof.
  intros Hcb Hr Hj Hne Hu Hv. unfold heap_value in Hr, Hj.
  pose proof (lookup_lt_Some _ _ _ Hr) as Lr. pose proof (lookup_lt_Some _ _ _ Hj) as Lj.
  assert (forall hv, v = Some hv ->
            exists lv, heap s !! hv = Some lv /\ lt_alive lv = true) as Hv'
    by (intros hv E; apply is_alive_true; by apply Hv).
  destruct s as [hp sc pr0 tr ex id fm u g]. cbn [heap] in *.
  unfold undefined_cached_ok in Hu. cbn [_undefined heap] in Hu.
  xstart (settle_with C vm cb d v (State hp sc pr0 tr ex id fm u g)).
  unfold settle_with at 1.
  destruct Hcb as [[-> ->] | [-> ->]].
  all: destruct u as [uh|]; [destruct (Hu uh eq_refl) as [up Hup];
                             pose proof (lookup_lt_Some _ _ _ Hup) as Lu |].
  all: destruct v as [hv|]; [destruct (Hv' hv eq_refl) as (lv & Hlv & Hav);
                             pose proof (lookup_lt_Some _ _ _ Hlv) as Lv |].
  all: xrun.
  all: case_decide.
  all: xrun.
  all: lazymatch goal with
       | |- _ (obind (unwrapResult _ _ (CallResult None (Some ?hh))) _ ?S) =>
           edestruct unwrapResult_error_run with (x := @None nat) (h := hh) (s := S)
             as (e & evs & s' & E & Hh' & Hsc' & Hpr' & Hu' & Htr' & Hnc);
             [unfold heap_value; xlook |];
           (eapply obind_known; [exact E|]); xnorm; xdone
       | |- _ (obind (unwrapResult _ _ (CallResult (Some _) None)) _ _) =>
           unfold unwrapResult at 1; xnorm; xrun; xdone
       end.
  all: unfold settlement; cbn [fst snd]; eexists _, _, _, _, _, _, _.
  all: split;
    [ unfold foreign_undefined; xnorm;
      first [reflexivity | split; [eexists; split; [eassumption | reflexivity] | reflexivity]] |].
  all: split;
    [ unfold argument_pointer; xnorm;
      first [reflexivity | eexists; split; [eassumption | reflexivity]] |].
  all: split;
    [ try rewrite Htr'; xnorm; rewrite <- ?app_assoc; cbn [app]; reflexivity |].
  all: split; intros Hep; try (exfalso; lia).
  all: unfold is_alive; try rewrite Hh'; try rewrite Hpr'; xnorm.
  all: repeat first
         [ rewrite list_lookup_alter_ne by len
         | rewrite list_lookup_alter_eq
         | rewrite lookup_app_l by len ].
  all: rewrite ?Hr, ?Hj; cbn [fmap option_fmap option_map kill lt_alive].
  all: repeat split; eauto.
  all: constructor; [exact (fun H => H) | exact Hnc].
Qed.

(** C5, as amended.  On a pending deferred promise, with the value alive
    when one is given, [resolve] (and likewise [reject]) calls the
    corresponding foreign callback exactly once, with the foreign [undefined]
    as [this] and the value, or the foreign [undefined] when it is omitted,
    as the sole argument.  When the foreign runtime reports no exception for
    the call, the result and both callbacks are released, both callbacks are
    dead, [settled] is fulfilled and the call returns; when it reports one,
    the call throws and both callbacks stay alive. *)
Theorem pending_promise_is_settled d v (pr pj : Z) (s : store) :
  heap_value vm s (dp_resolveHandle d) pr true ->
  heap_value vm s (dp_rejectHandle d) pj true ->
  dp_resolveHandle d <> dp_rejectHandle d ->
  undefined_cached_ok s -> alive_if_given s v ->
  settlement vm d v pr pr pj s (resolve C vm d v s) /\
  settlement vm d v pj pr pj s (reject C vm d v s).
Proof.
  intros Hr Hj Hne Hu Hv. split.
  - rewrite resolve_eq. apply settle_with_run; auto.
  - rewrite reject_eq. apply settle_with_run; auto.
Qed.

(** *** Host errors crossing the bridge *)



(** *** Settling an inbound call *)





(** *** Ownership *)


(** *** Dispatch *)

(** C7.  An inbound call whose context pointer is not this context's, or
    whose function id has no entry in [fnMap], throws a host error at once:
    the store is left as it was, so no argument was wrapped and no
    implementation ran, and in the second case the message names the id. *)
Theorem dispatch_fails_fast (ctx_arg this_ptr argv : pointer) (argc : nat)
    (fn_id : Z) (s : store) :
  (ctx_arg <> ctx vm ->
   cToHostCallbackFunction C vm apply_user ctx_arg this_ptr argc argv fn_id s
   = (Raise (ExnError (HostError (Some "Error")
        (Some "QuickJSVm instance received C -> JS call with mismatched ctx")
        (Some (host_stack C)))), s)) /\
  (ctx_arg = ctx vm -> fnMap s !! fn_id = None ->
   cToHostCallbackFunction C vm apply_user ctx_arg this_ptr argc argv fn_id s
   = (Raise (ExnError (HostError (Some "Error")
        (Some ("QuickJSVm had no callback with id " +:+ pretty fn_id))
        (Some (host_stack C)))), s)).
Proof.
  unfold cToHostCallbackFunction. split.
  - intros Hne. destruct (decide (ctx_arg <> ctx vm)); [reflexivity | contradiction].
  - intros -> Hnone. destruct (decide (ctx vm <> ctx vm)); [contradiction |].
    unfold bind, gets. by rewrite Hnone.
Qed.


(** C10.  Settling disposes the two callback handles only.  After a
    [resolve] or [reject] that completed, the promise handle, if it was alive
    before, is alive still, so [alive] of the deferred promise is true; every
    other Lifetime that existed before, the two callbacks apart, is exactly
    as it was; and once [handle.dispose()] has run on the settled promise
    [alive] is false. *)
Theorem settling_keeps_promise_handle d v (s s' : store) :
  deferred_in vm s d ->
  is_alive s (dp_handle d) = true ->
  resolve C vm d v s = (Ok tt, s') \/ reject C vm d v s = (Ok tt, s') ->
  is_alive s' (dp_handle d) = true /\
  deferred_alive d s' = (Ok true, s') /\
  (forall h : handle, (h < length (heap s))%nat ->
     h <> dp_resolveHandle d -> h <> dp_rejectHandle d -> heap s' !! h = heap s !! h) /\
  (is_alive s' (dp_resolveHandle d) = false ->
   is_alive s' (dp_rejectHandle d) = false ->
   exists s'', dispose C (dp_handle d) s' = (Ok tt, s'') /\
     deferred_alive d s'' = (Ok false, s'')).
Proof.
  intros Hd Ha H.
  assert (forall h : handle, (h < length (heap s))%nat ->
     h <> dp_resolveHandle d -> h <> dp_rejectHandle d -> heap s' !! h = heap s !! h)
    as Hkeep.
  { assert (forall cb : handle, settle_with C vm cb d v s = (Ok tt, s') ->
      forall h : handle, (h < length (heap s))%nat ->
        h <> dp_resolveHandle d -> h <> dp_rejectHandle d -> heap s' !! h = heap s !! h)
      as Hcb.
    { intros cb E. destruct (is_alive s cb) eqn:Hcb.
      - by destruct (settle_with_completes _ _ _ _ _ Hd Hcb E) as (_ & _ & ?).
      - rewrite settle_with_dead in E by done. by injection E as <-. }
    destruct H as [E | E]; [rewrite resolve_eq in E | rewrite reject_eq in E]; eauto. }
  destruct Hd as ((pp & ap & Hp) & _ & _ & N1 & N2 & _). unfold heap_value in Hp.
  assert (heap s' !! dp_handle d = heap s !! dp_handle d) as Hp'
    by (apply Hkeep; [by eapply lookup_lt_Some | done | done]).
  assert (is_alive s' (dp_handle d) = true) as Ha'
    by (unfold is_alive in *; by rewrite Hp').
  split; [done|]. split; [|split; [done|]].
  - unfold deferred_alive, bind, alive, gets, ret. by rewrite Ha'.
  - intros D1 D2. rewrite Hp in Hp'.
    destruct (dispose_owned_spec _ _ _ Hp' eq_refl) as (s'' & E & Hk & Ho & _).
    exists s''. split; [done|].
    unfold deferred_alive, bind, alive, gets, ret, is_alive in *.
    rewrite Hk, !Ho by done. cbn [kill lt_alive].
    by rewrite D1, D2.
Qed.


(** ** More of the context *)

(** Disposing a Scope whose entries are known runs through them, last
    first. *)
Lemma obind_scope_dispose_list {B} (Q : outcome B * store -> Prop) (sc : nat)
    (hs : list nat) (K' : outcome unit -> HM B) (s : store) :
  scopes s !! sc = Some (ScopeObj hs true) ->
  Q (obind (dispose_all C (rev hs);;
            modify (upd_scopes (<[sc := ScopeObj hs false]>))) K' s) ->
  Q (obind (scope_dispose C sc) K' s).
Proof. intros H. unfold scope_dispose, obind, bind at 2, gets. by rewrite H. Qed.

(** [dup] of a live Lifetime that is not static. *)
Lemma obind_dup {B} (Q : outcome B * store -> Prop) (h : handle) (l : lifetime)
    (c : pointer) (n : nat) (K' : outcome nat -> HM B) (s : store) :
  heap s !! h = Some l -> lt_class l <> StaticLifetime -> lt_alive l = true ->
  lt_copier l = Some (CopyJSValue c) -> length (heap s) = n ->
  (forall q,
     Q (K' (Ok n)
          (upd_heap (fun hp => hp ++ [Lifetime OwnedLifetime q (Some (CopyJSValue c))
                                        (lt_disposer l) (lt_owner l) true])
             (log_call C (QTS_DupValuePointer c (lt_value l)) (Pointer q) s)))) ->
  Q (obind (dup C h) K' s).
Proof.
  intros Hl Hc Ha Hcp <- HQ.
  unfold obind, dup, bind, gets, run_copier, ffi_pointer, new_lifetime.
  rewrite Hl, Ha, Hcp. destruct (lt_class l); try done; apply HQ.
Qed.

(** The steps of the operations that the earlier runs do not meet. *)
Ltac ystep :=
  first
    [ lazymatch goal with
      | |- _ (obind (disposeResolvers _ _) _ _) =>
          unfold disposeResolvers at 1;
          cbn [dp_handle dp_resolveHandle dp_rejectHandle dp_settled]
      end
    | xstep
    | lazymatch goal with
      | |- _ (obind (global _ _) _ _) => unfold global at 1
      | |- _ (obind (newObject _ _ _) _ _) => unfold newObject at 1; xnorm
      | |- _ (obind (newArray _ _) _ _) => unfold newArray at 1
      | |- _ (obind (newFunction _ _ _ _) _ _) => unfold newFunction at 1
      | |- _ (obind (newMutablePointerArray _ _) _ _) =>
          unfold newMutablePointerArray at 1
      | |- _ (obind (throw _ _ _) _ _) => unfold throw at 1
      | |- _ (obind (deferred_dispose _ _) _ _) => unfold deferred_dispose at 1
      | |- _ (obind (deferred_alive _) _ _) => unfold deferred_alive at 1
      | |- _ (obind (apply_hostfn _ _ _ _ _) _ _) => unfold apply_hostfn at 1
      | |- _ (obind (dup_first _ _) _ _) => unfold dup_first at 1
      | |- _ (obind (wrap_args _ _ _ _ _ _) _ _) => cbn [wrap_args]
      | |- _ (obind (forward_result _ _ _ _) _ _) => unfold forward_result at 1
      | |- _ (obind (dup _ _) _ _) =>
          eapply obind_dup;
          [xlook | done | reflexivity | reflexivity | xnorm; xlength; reflexivity
          | intros ?q; xnorm]
      | |- _ (obind (scope_dispose _ _) _ _) =>
          eapply obind_scope_dispose_list; [xlook | cbn [rev app dispose_all]]
      end ].
Ltac yrun := repeat ystep.

(** Rewrites the lookups of a store that is known up to appends and kills. *)
Ltac ylook :=
  xnorm;
  repeat first
    [ rewrite list_lookup_middle by len
    | rewrite lookup_app_l by len
    | rewrite list_lookup_alter_ne by len
    | rewrite list_lookup_alter_eq
    | rewrite list_lookup_insert_eq by len
    | rewrite list_lookup_insert_ne by len ];
  cbn [fmap option_fmap option_map kill lt_class lt_value lt_copier lt_disposer
       lt_owner lt_alive heap_lifetime weak_lifetime].

(** Disposing a StaticLifetime or a borrowed Lifetime changes nothing. *)
Lemma dispose_unowned (h : handle) (l : lifetime) (s : store) :
  heap s !! h = Some l -> lt_class l <> OwnedLifetime -> dispose C h s = (Ok tt, s).
Proof. intros H Hc. rewrite (dispose_known _ _ _ H). by destruct (lt_class l). Qed.

(** *** Globals *)

(** X1.  [undefined] asks the runtime once: with nothing cached it calls
    [QTS_GetUndefined], wraps the answer in a StaticLifetime and caches it;
    from then on it returns that same handle and leaves the store alone.
    Disposing the handle does nothing. *)
Theorem undefined_is_cached (s : store) :
  exists h s1,
    undefined C s = (Ok h, s1) /\
    _undefined s1 = Some h /\
    undefined C s1 = (Ok h, s1) /\
    match _undefined s with
    | Some u => h = u /\ s1 = s
    | None =>
        exists p,
          h = length (heap s) /\
          heap s1 = heap s ++ [Lifetime StaticLifetime p None None None true] /\
          trace s1 = trace s ++ [(QTS_GetUndefined, Pointer p)] /\
          scopes s1 = scopes s /\ promises s1 = promises s /\ fnMap s1 = fnMap s /\
          dispose C h s1 = (Ok tt, s1)
    end.
Proof.
  destruct s as [hp sc pr tr ex id fm [u|] g].
  - exists u, (State hp sc pr tr ex id fm (Some u) g). by repeat split.
  - set (p := ffi_ptr C QTS_GetUndefined ex).
    exists (length hp),
      (State (hp ++ [Lifetime StaticLifetime p None None None true]) sc pr
             (tr ++ [(QTS_GetUndefined, Pointer p)]) (ffi_step C QTS_GetUndefined ex)
             id fm (Some (length hp)) g).
    split; [reflexivity|]. split; [reflexivity|]. split; [reflexivity|].
    exists p. repeat split.
    eapply dispose_unowned; [cbn; by apply list_lookup_middle | done].
Qed.

(** X2.  [global] asks the runtime once.  With nothing cached and the
    context's memory Scope alive, it calls [QTS_GetGlobalObject], hands an
    owned handle around the answer to the memory Scope, and returns and
    caches a StaticLifetime around the same pointer, owned by this context.
    From then on it returns that handle and leaves the store alone, and
    disposing the handle releases nothing. *)
Theorem global_is_cached (s : store) :
  (forall g, _global s = Some g -> global C vm s = (Ok g, s)) /\
  (forall hs, _global s = None ->
     scopes s !! memory_scope = Some (ScopeObj hs true) ->
     exists p s1,
       global C vm s = (Ok ((length (heap s) + 1)%nat), s1) /\
       trace s1 = trace s ++ [(QTS_GetGlobalObject (ctx vm), Pointer p)] /\
       heap s1 = heap s ++
         [Lifetime OwnedLifetime p (Some (copyJSValue vm)) (Some (freeJSValue vm))
                   (Some (owner vm)) true;
          Lifetime StaticLifetime p None None (Some (owner vm)) true] /\
       scopes s1 = <[memory_scope := ScopeObj (hs ++ [length (heap s)]) true]> (scopes s) /\
       promises s1 = promises s /\ fnMap s1 = fnMap s /\
       global C vm s1 = (Ok ((length (heap s) + 1)%nat), s1) /\
       dispose C ((length (heap s) + 1)%nat) s1 = (Ok tt, s1) /\
       assertOwned C vm ((length (heap s) + 1)%nat) s1 = (Ok tt, s1)).
Proof.
  destruct s as [hp sc pr tr ex id fm u g]. cbn [_global scopes heap trace promises fnMap].
  split.
  - intros g0 ->. reflexivity.
  - intros hs -> Hsc.
    xstart (global C vm (State hp sc pr tr ex id fm u None)). yrun. xdone.
    eexists _, _. split; [reflexivity|]. cbn [fst snd]. xnorm.
    split; [reflexivity|]. split; [by rewrite <- app_assoc|]. repeat split.
    + eapply dispose_unowned; [xlook | done].
    + eapply assertOwned_mine; [xlook | reflexivity].
Qed.

(** *** New values *)

Ltac fresh_value_done :=
  xdone; eexists _, _, _; cbn [fst snd]; (split; [reflexivity|]);
  unfold fresh_value, heap_value; xnorm;
  refine (conj _ (conj _ (conj _ (conj _ (conj _ _)))));
  [ len
  | xlook
  | intros ? ?; xlook
  | let Hk := fresh in let Hne := fresh in let Hl := fresh in
    intros ? ? Hk Hne Hl; exfalso; apply lookup_lt_Some in Hl; revert Hk Hne Hl;
    xlength; lia
  | rewrite <- ?app_assoc; reflexivity
  | done ].

(** X3.  [newNumber], [newString], [newObject] and [newArray] each make
    one foreign value and return a new live handle around it, owned by this
    context and wired to this context's dup and free.  No Lifetime that
    existed is touched, and the text buffer [newString] needs is released
    before it returns.  [newObject] with a prototype passes the prototype's
    raw value. *)
Theorem new_values_are_owned (s : store) :
  (forall num, exists p h s1,
     newNumber C vm num s = (Ok h, s1) /\
     fresh_value vm s s1 h p [(QTS_NewFloat64 (ctx vm) num, Pointer p)]) /\
  (forall str, exists c p h s1,
     newString C vm str s = (Ok h, s1) /\
     fresh_value vm s s1 h p
       [(Module_malloc_chars str, Pointer c); (QTS_NewString (ctx vm) c, Pointer p);
        (Module_free c, NoAnswer)]) /\
  (exists p h s1,
     newObject C vm None s = (Ok h, s1) /\
     fresh_value vm s s1 h p [(QTS_NewObject (ctx vm), Pointer p)]) /\
  (exists p h s1,
     newArray C vm s = (Ok h, s1) /\
     fresh_value vm s s1 h p [(QTS_NewArray (ctx vm), Pointer p)]) /\
  (forall proto l,
     heap s !! proto = Some l -> lt_alive l = true ->
     lt_owner l = None \/ lt_owner l = Some (owner vm) ->
     exists p h s1,
       newObject C vm (Some proto) s = (Ok h, s1) /\
       fresh_value vm s s1 h p [(QTS_NewObjectProto (ctx vm) (lt_value l), Pointer p)]).
Proof.
  destruct s as [hp sc pr tr ex id fm u g]. cbn [heap].
  refine (conj _ (conj _ (conj _ (conj _ _)))).
  - intros num. xstart (newNumber C vm num (State hp sc pr tr ex id fm u g)).
    unfold newNumber at 1. yrun. fresh_value_done.
  - intros str. xstart (newString C vm str (State hp sc pr tr ex id fm u g)).
    unfold newString at 1. yrun. xdone. eexists _, _, _, _. cbn [fst snd].
    split; [reflexivity|]. unfold fresh_value, heap_value. xnorm.
    refine (conj _ (conj _ (conj _ (conj _ (conj _ _))))); [len | xlook | | | | done].
    + intros k Hk. xlook.
    + intros k l Hk Hne. revert Hk Hne. xlength. intros Hk Hne Hl.
      assert (k = length hp) as -> by (apply lookup_lt_Some in Hl; revert Hl; xlength; lia).
      revert Hl. ylook. by intros [= <-].
    + by rewrite <- !app_assoc.
  - xstart (newObject C vm None (State hp sc pr tr ex id fm u g)).
    unfold newObject at 1. yrun. fresh_value_done.
  - xstart (newArray C vm (State hp sc pr tr ex id fm u g)).
    unfold newArray at 1. yrun. fresh_value_done.
  - intros proto l Hl Ha Ho.
    xstart (newObject C vm (Some proto) (State hp sc pr tr ex id fm u g)).
    unfold newObject at 1. destruct Ho as [Ho|Ho]; yrun; fresh_value_done.
Qed.

(** *** Handles made by heapValueHandle *)

(** X4.  A handle made by [heapValueHandle] releases its value once, with
    [QTS_FreeValuePointer] on this context: the first [dispose] makes that
    one call and kills the handle, a second one does nothing, and reading
    the dead handle fails.  Its [dup] asks [QTS_DupValuePointer] on this
    context and returns a new handle of the same kind around the answer,
    which stays alive when the original is disposed. *)
Theorem owned_value_is_released_once (h : handle) (p : pointer) (s : store) :
  heap_value vm s h p true ->
  (exists s1,
     dispose C h s = (Ok tt, s1) /\
     trace s1 = trace s ++ [(QTS_FreeValuePointer (ctx vm) p, NoAnswer)] /\
     heap s1 = alter kill h (heap s) /\
     dispose C h s1 = (Ok tt, s1) /\
     value C h s1 = (Raise (use_after_dispose C), s1) /\
     dup C h s1 = (Raise (use_after_dispose C), s1)) /\
  (exists q s1 s2,
     dup C h s = (Ok (length (heap s)), s1) /\
     trace s1 = trace s ++ [(QTS_DupValuePointer (ctx vm) p, Pointer q)] /\
     heap s1 = heap s ++ [Lifetime OwnedLifetime q (Some (copyJSValue vm))
                             (Some (freeJSValue vm)) (Some (owner vm)) true] /\
     dispose C h s1 = (Ok tt, s2) /\
     heap_value vm s2 (length (heap s)) q true /\
     is_alive s2 h = false).
Proof.
  unfold heap_value. intros Hh. pose proof (lookup_lt_Some _ _ _ Hh) as Lh. split.
  - set (s1 := upd_heap (alter kill h)
                 (log_call C (QTS_FreeValuePointer (ctx vm) p) NoAnswer s)).
    assert (heap s1 !! h = Some (kill (Lifetime OwnedLifetime p (Some (copyJSValue vm))
              (Some (freeJSValue vm)) (Some (owner vm)) true))) as Hk
      by (subst s1; cbn; by rewrite list_lookup_alter_eq, Hh).
    exists s1. split; [by rewrite (dispose_known _ _ _ Hh)|].
    split; [done|]. split; [done|].
    split; [by rewrite (dispose_known _ _ _ Hk)|].
    unfold value, dup, bind, gets. by rewrite Hk.
  - set (q := ffi_ptr C (QTS_DupValuePointer (ctx vm) p) (ext s)).
    set (s1 := upd_heap (fun hp => hp ++ [Lifetime OwnedLifetime q (Some (copyJSValue vm))
                             (Some (freeJSValue vm)) (Some (owner vm)) true])
                 (log_call C (QTS_DupValuePointer (ctx vm) p) (Pointer q) s)).
    assert (heap s1 !! h = Some (Lifetime OwnedLifetime p (Some (copyJSValue vm))
              (Some (freeJSValue vm)) (Some (owner vm)) true)) as Hk
      by (subst s1; cbn; by rewrite lookup_app_l).
    exists q, s1. eexists. split; [unfold dup, bind, gets; by rewrite Hh|].
    split; [done|]. split; [done|].
    split; [by rewrite (dispose_known _ _ _ Hk)|].
    unfold is_alive. cbn. split.
    + rewrite list_lookup_alter_ne by lia. by apply list_lookup_middle.
    + rewrite list_lookup_alter_eq, lookup_app_l, Hh by done. done.
Qed.

(** X5.  A handle that is no longer alive is never read: [typeof],
    [getNumber], [getString], [dump] and [newObject] with it as prototype
    throw the use-after-dispose error and leave the whole store as it was, so
    no foreign call is made.  (The handle is not one of another context,
    which would be refused first.) *)
Theorem dead_handle_is_refused (h : handle) (s : store) :
  is_alive s h = false ->
  owner_of s h = None \/ owner_of s h = Some (owner vm) ->
  typeof C vm h s = (Raise (use_after_dispose C), s) /\
  getNumber C vm h s = (Raise (use_after_dispose C), s) /\
  getString C vm h s = (Raise (use_after_dispose C), s) /\
  dump C vm h s = (Raise (use_after_dispose C), s) /\
  newObject C vm (Some h) s = (Raise (use_after_dispose C), s).
Proof.
  intros Ha Ho.
  assert (assertOwned C vm h s = (Ok tt, s)) as Eo.
  { unfold assertOwned, bind, gets. destruct Ho as [-> | ->]; [done|].
    by rewrite decide_True. }
  assert (value C h s = (Raise (use_after_dispose C), s)) as Ev.
  { revert Ha. unfold is_alive, value. destruct (heap s !! h) as [l|]; [|done].
    by intros ->. }
  assert (typeof C vm h s = (Raise (use_after_dispose C), s)) as Et.
  { unfold typeof, bind. by rewrite Eo, Ev. }
  repeat split; try done; unfold getNumber, getString, dump, newObject, bind;
    by rewrite Eo, ?Et, ?Ev.
Qed.

(** *** The registry of host functions *)

(** X6.  [newFunction] takes the next id, [fnNextId + 1], registers the
    implementation under it and passes that same id, with the name, to
    [QTS_NewFunction]; it returns a new live handle around the answer.  While
    every registered id is at most [fnNextId], no registration is overwritten,
    and that remains so.  Disposing the function handle releases the foreign
    function and leaves the registration in place. *)
Theorem newFunction_registers (name : string) (fn : hostfn) (s : store) :
  ids_in_use s ->
  exists p s1 s2,
    newFunction C vm name fn s = (Ok (length (heap s)), s1) /\
    trace s1 = trace s ++ [(QTS_NewFunction (ctx vm) (fnNextId s + 1) name, Pointer p)] /\
    heap s1 = heap s ++ [Lifetime OwnedLifetime p (Some (copyJSValue vm))
                            (Some (freeJSValue vm)) (Some (owner vm)) true] /\
    fnNextId s1 = fnNextId s + 1 /\
    fnMap s !! (fnNextId s + 1) = None /\
    fnMap s1 !! (fnNextId s + 1) = Some fn /\
    (forall k, k <> fnNextId s + 1 -> fnMap s1 !! k = fnMap s !! k) /\
    ids_in_use s1 /\
    scopes s1 = scopes s /\ promises s1 = promises s /\
    dispose C (length (heap s)) s1 = (Ok tt, s2) /\
    trace s2 = trace s1 ++ [(QTS_FreeValuePointer (ctx vm) p, NoAnswer)] /\
    fnMap s2 = fnMap s1.
Proof.
  intros Hids. destruct s as [hp sc pr tr ex id fm u g].
  unfold ids_in_use in *. cbn [fnMap fnNextId heap trace scopes promises] in *.
  xstart (newFunction C vm name fn (State hp sc pr tr ex id fm u g)).
  unfold newFunction at 1. yrun. xdone. cbn [fst snd]. xnorm.
  eexists p, _, _. split; [reflexivity|]. split; [reflexivity|]. split; [reflexivity|].
  split; [reflexivity|]. split.
  { destruct (fm !! (id + 1)) as [fn0|] eqn:E; [|done]. apply Hids in E. lia. }
  split; [xnorm; by rewrite lookup_insert_eq|].
  split; [intros k Hk; xnorm; by rewrite lookup_insert_ne|].
  split.
  { intros k fn0. xnorm. destruct (decide (k = id + 1)) as [->|Hk]; [lia|].
    rewrite lookup_insert_ne by done. intros E%Hids. lia. }
  split; [done|]. split; [done|].
  split; [erewrite dispose_known by xlook; reflexivity|]. done.
Qed.

(** *** Properties *)

Ltac key_events_done :=
  unfold key_events; xnorm;
  first [ split; reflexivity
        | split; [eexists; reflexivity | reflexivity]
        | split; [eexists; split; [eassumption | reflexivity] | split; reflexivity] ].

(** X7.  [getProp] and [setProp] on a live object of this context, with a
    live value: a number or string key is made into a foreign value, passed
    to [QTS_GetProp] / [QTS_SetProp] and released right after the call; a
    handle used as key lends its raw value and is not released.  The handles
    passed in stay as they were, and [getProp] returns a new live handle
    around what [QTS_GetProp] answered. *)
Theorem property_key_is_borrowed (h : handle) (key : property_key) (lh : lifetime)
    (s : store) :
  heap s !! h = Some lh -> lt_alive lh = true ->
  lt_owner lh = None \/ lt_owner lh = Some (owner vm) ->
  key_alive s key ->
  (exists kp before after p r s1,
     getProp C vm h key s = (Ok r, s1) /\
     key_events vm s key kp before after /\
     trace s1 = trace s ++ before
                  ++ [(QTS_GetProp (ctx vm) (lt_value lh) kp, Pointer p)] ++ after /\
     heap_value vm s1 r p true /\ (length (heap s) <= r)%nat /\
     same_lifetimes s s1) /\
  (forall v lv, heap s !! v = Some lv -> lt_alive lv = true ->
     exists kp before after s1,
       setProp C vm h key v s = (Ok tt, s1) /\
       key_events vm s key kp before after /\
       trace s1 = trace s ++ before
                    ++ [(QTS_SetProp (ctx vm) (lt_value lh) kp (lt_value lv), NoAnswer)]
                    ++ after /\
       same_lifetimes s s1).
Proof.
  intros Hh Ha Ho Hk.
  assert (forall k, key = KeyHandle k ->
            exists lk, heap s !! k = Some lk /\ lt_alive lk = true) as Hk'
    by (intros k E; apply is_alive_true; by apply Hk).
  destruct s as [hp sc pr tr ex id fm u g]. cbn [heap] in *.
  pose proof (lookup_lt_Some _ _ _ Hh) as Lh. split.
  - xstart (getProp C vm h key (State hp sc pr tr ex id fm u g)). unfold getProp at 1.
    destruct key as [n|str|k]; [| |destruct (Hk' k eq_refl) as (lk & Hlk & Hak);
                                pose proof (lookup_lt_Some _ _ _ Hlk) as Lk];
      destruct Ho as [Ho|Ho]; yrun; xdone; cbn [fst snd]; xnorm;
      eexists _, _, _, _, _, _; (split; [reflexivity|]); (split; [key_events_done|]);
      (split; [xnorm; rewrite <- ?app_assoc; cbn [app]; reflexivity|]);
      (split; [unfold heap_value; xlook|]); (split; [len|]);
      unfold same_lifetimes; xnorm; intros j Hj; xlook.
  - intros v lv Hv Hav. pose proof (lookup_lt_Some _ _ _ Hv) as Lv.
    xstart (setProp C vm h key v (State hp sc pr tr ex id fm u g)). unfold setProp at 1.
    destruct key as [n|str|k]; [| |destruct (Hk' k eq_refl) as (lk & Hlk & Hak);
                                pose proof (lookup_lt_Some _ _ _ Hlk) as Lk];
      destruct Ho as [Ho|Ho]; yrun; xdone; cbn [fst snd]; xnorm;
      eexists _, _, _, _; (split; [reflexivity|]); (split; [key_events_done|]);
      (split; [xnorm; rewrite <- ?app_assoc; cbn [app]; reflexivity|]);
      unfold same_lifetimes; xnorm; intros j Hj; xlook.
Qed.

(** X8.  When the object of [getProp] / [setProp], or the value of
    [setProp], is no longer alive, the operation throws the
    use-after-dispose error without calling [QTS_GetProp] / [QTS_SetProp],
    and the foreign value made for a number or string key is released all
    the same.  When a handle used as key is no longer alive, the operation
    throws at once and leaves the store as it was. *)
Theorem failed_property_access_frees_key (h : handle) (key : property_key)
    (lh : lifetime) (s : store) :
  heap s !! h = Some lh ->
  lt_owner lh = None \/ lt_owner lh = Some (owner vm) ->
  (key_alive s key -> lt_alive lh = false ->
     exists kp before after s1,
       getProp C vm h key s = (Raise (use_after_dispose C), s1) /\
       key_events vm s key kp before after /\
       trace s1 = trace s ++ before ++ after /\ same_lifetimes s s1) /\
  (forall v lv, key_alive s key -> heap s !! v = Some lv ->
     lt_alive lh = false \/ lt_alive lv = false ->
     exists kp before after s1,
       setProp C vm h key v s = (Raise (use_after_dispose C), s1) /\
       key_events vm s key kp before after /\
       trace s1 = trace s ++ before ++ after /\ same_lifetimes s s1) /\
  (forall k, key = KeyHandle k -> is_alive s k = false ->
     getProp C vm h key s = (Raise (use_after_dispose C), s) /\
     forall v, setProp C vm h key v s = (Raise (use_after_dispose C), s)).
Proof.
  intros Hh Ho.
  assert (key_alive s key -> forall k, key = KeyHandle k ->
            exists lk, heap s !! k = Some lk /\ lt_alive lk = true) as Hk'
    by (intros Hk k E; apply is_alive_true; by apply Hk).
  destruct s as [hp sc pr tr ex id fm u g]. cbn [heap] in *.
  pose proof (lookup_lt_Some _ _ _ Hh) as Lh. split; [|split].
  - intros Hk Ha. specialize (Hk' Hk).
    xstart (getProp C vm h key (State hp sc pr tr ex id fm u g)). unfold getProp at 1.
    destruct key as [n|str|k]; [| |destruct (Hk' k eq_refl) as (lk & Hlk & Hak);
                                pose proof (lookup_lt_Some _ _ _ Hlk) as Lk];
      destruct Ho as [Ho|Ho]; yrun; xdone; cbn [fst snd]; xnorm;
      eexists _, _, _, _; (split; [reflexivity|]); (split; [key_events_done|]);
      (split; [xnorm; rewrite <- ?app_assoc; cbn [app]; rewrite ?app_nil_r; reflexivity|]);
      unfold same_lifetimes; xnorm; intros j Hj; xlook.
  - intros v lv Hk Hv Hdead. specialize (Hk' Hk).
    pose proof (lookup_lt_Some _ _ _ Hv) as Lv.
    xstart (setProp C vm h key v (State hp sc pr tr ex id fm u g)). unfold setProp at 1.
    destruct (lt_alive lh) eqn:Ha; [destruct Hdead as [Hd|Hd]; [discriminate|] |].
    all: destruct key as [n|str|k]; [| |destruct (Hk' k eq_refl) as (lk & Hlk & Hak);
                                pose proof (lookup_lt_Some _ _ _ Hlk) as Lk];
      destruct Ho as [Ho|Ho]; yrun; xdone; cbn [fst snd]; xnorm;
      eexists _, _, _, _; (split; [reflexivity|]); (split; [key_events_done|]);
      (split; [xnorm; rewrite <- ?app_assoc; cbn [app]; rewrite ?app_nil_r; reflexivity|]);
      unfold same_lifetimes; xnorm; intros j Hj; xlook.
  - intros k -> Hdead.
    assert (assertOwned C vm h (State hp sc pr tr ex id fm u g)
            = (Ok tt, State hp sc pr tr ex id fm u g)) as Eo
      by (destruct Ho; [by eapply assertOwned_unowned | by eapply assertOwned_mine]).
    assert (value C k (State hp sc pr tr ex id fm u g)
            = (Raise (use_after_dispose C), State hp sc pr tr ex id fm u g)) as Ev.
    { revert Hdead. unfold is_alive, value. cbn [heap].
      destruct (hp !! k) as [l|]; [|done]. by intros ->. }
    split; [|intros v]; unfold getProp, setProp, borrowPropertyKey, bind;
      by rewrite Eo, Ev.
Qed.

(** *** Calls and evaluation *)

Lemma raw_values_run (hs : list handle) (ps : list pointer) (s : store) :
  raw_values s hs ps -> values C hs s = (Ok ps, s).
Proof.
  induction 1 as [|h p hs ps (l & Hl & Ha & <-) _ IH]; [done|].
  cbn [values]. eapply bind_ok; [by apply value_ok|].
  eapply bind_ok; [exact IH | reflexivity].
Qed.

Ltac result_done :=
  xdone; cbn [fst snd]; xnorm;
  lazymatch goal with
  | |- context [log_call _ (QTS_ResolveException _ ?rp) (Pointer ?ep)] =>
      eexists _, rp, ep, _, _
  end;
  (split; [reflexivity|]);
  (split; [unfold result_events; xnorm;
           first [rewrite decide_True by lia | rewrite decide_False by lia];
           rewrite <- ?app_assoc; cbn [app]; rewrite ?app_nil_r; reflexivity|]);
  (split; [unfold result_of, heap_value; eexists;
           first [rewrite decide_True by lia | rewrite decide_False by lia];
           split; [reflexivity | xlook]|]);
  unfold same_lifetimes; xnorm; intros ? ?; xlook.

(** X9.  [callFunction] on live handles makes one [QTS_Call]: the raw
    values of the arguments are written, in order, to a buffer which is
    passed with their number, the function's and [thisVal]'s raw values, and
    which is released right after the call.  Then the pending exception is
    asked for: without one the result is a new live handle around what
    [QTS_Call] answered; with one that raw answer is released and the result
    is a new live handle around the exception.  No handle passed in is
    touched. *)
Theorem callFunction_calls_once (func thisVal : handle) (args : list handle)
    (lf lt : lifetime) (ps : list pointer) (s : store) :
  heap s !! func = Some lf -> lt_alive lf = true ->
  lt_owner lf = None \/ lt_owner lf = Some (owner vm) ->
  heap s !! thisVal = Some lt -> lt_alive lt = true ->
  raw_values s args ps ->
  exists argv rp ep r s1,
    callFunction C vm func thisVal args s = (Ok r, s1) /\
    trace s1 = trace s ++
      result_events vm
        [(Module_malloc_pointers ps, Pointer argv);
         (QTS_Call (ctx vm) (lt_value lf) (lt_value lt) (Z.of_nat (length args)) argv,
          Pointer rp);
         (Module_free argv, NoAnswer)] rp ep /\
    result_of vm s1 rp ep r /\
    same_lifetimes s s1.
Proof.
  intros Hf Haf Ho Ht Hat Hps.
  pose proof (raw_values_run _ _ _ Hps) as Eps.
  pose proof (lookup_lt_Some _ _ _ Hf) as Lf. pose proof (lookup_lt_Some _ _ _ Ht) as Lt.
  destruct s as [hp sc pr tr ex id fm u g]. cbn [heap] in *.
  xstart (callFunction C vm func thisVal args (State hp sc pr tr ex id fm u g)).
  unfold callFunction at 1. destruct Ho as [Ho|Ho]; yrun.
  all: (eapply obind_known; [exact Eps|]); xnorm; yrun.
  all: unfold Z_length.
  all: case_decide; yrun; result_done.
Qed.

(** X10.  When an argument of [callFunction] is no longer alive the call
    throws the use-after-dispose error before anything is written: the store
    is as it was.  When the arguments are alive and the function or
    [thisVal] is not, the argument buffer has been written; it is released
    and [QTS_Call] is not made. *)
Theorem callFunction_on_dead_handles (func thisVal : handle) (args : list handle)
    (lf lt : lifetime) (s : store) :
  heap s !! func = Some lf ->
  lt_owner lf = None \/ lt_owner lf = Some (owner vm) ->
  heap s !! thisVal = Some lt ->
  (Exists (fun a => is_alive s a = false) args ->
     callFunction C vm func thisVal args s = (Raise (use_after_dispose C), s)) /\
  (forall ps, raw_values s args ps ->
     lt_alive lf = false \/ lt_alive lt = false ->
     exists argv s1,
       callFunction C vm func thisVal args s = (Raise (use_after_dispose C), s1) /\
       trace s1 = trace s ++ [(Module_malloc_pointers ps, Pointer argv);
                              (Module_free argv, NoAnswer)] /\
       same_lifetimes s s1).
Proof.
  intros Hf Ho Ht.
  assert (assertOwned C vm func s = (Ok tt, s)) as Eo
    by (destruct Ho; [by eapply assertOwned_unowned | by eapply assertOwned_mine]).
  split.
  - intros Hdead.
    assert (values C args s = (Raise (use_after_dispose C), s)) as Ev.
    { induction Hdead as [a rest Ha | a rest _ IH]; cbn [values]; unfold bind.
      - revert Ha. unfold is_alive, value. destruct (heap s !! a) as [l|]; [|done].
        by intros ->.
      - destruct (value_cases a s) as [[p ->] | ->]; [|done]. by rewrite IH. }
    unfold callFunction, toPointerArray, bind. by rewrite Eo, Ev.
  - intros ps Hps Hdead. pose proof (raw_values_run _ _ _ Hps) as Eps.
    pose proof (lookup_lt_Some _ _ _ Hf) as Lf. pose proof (lookup_lt_Some _ _ _ Ht) as Lt.
    destruct s as [hp sc pr tr ex id fm u g]. cbn [heap] in *.
    xstart (callFunction C vm func thisVal args (State hp sc pr tr ex id fm u g)).
    unfold callFunction at 1.
    apply obind_bind. (eapply obind_known; [exact Eo|]). xnorm. yrun.
    (eapply obind_known; [exact Eps|]). xnorm. yrun.
    destruct (lt_alive lf) eqn:Haf; [destruct Hdead as [Hd|Hd]; [discriminate|] |].
    all: yrun; xdone; cbn [fst snd]; xnorm; eexists _, _; (split; [reflexivity|]);
      (split; [xnorm; rewrite <- ?app_assoc; reflexivity|]);
      unfold same_lifetimes; xnorm; intros ? ?; xlook.
Qed.

(** X11.  [evalCode] writes the code to a buffer, makes one [QTS_Eval]
    with the file name (["eval.js"] when none is given), with module
    detection on exactly when no options are given, and with the flags of the
    options, and releases the buffer right after the call.  The result is
    built as by [callFunction]: a new live handle around the raw result, or,
    when an exception is pending, around the exception, the raw result being
    released. *)
Theorem evalCode_evaluates_once (code : string) (filename : option string)
    (options : option eval_options) (s : store) :
  exists c rp ep r s1,
    evalCode C vm code filename options s = (Ok r, s1) /\
    trace s1 = trace s ++
      result_events vm
        [(Module_malloc_chars code, Pointer c);
         (QTS_Eval (ctx vm) c (match filename with Some f => f | None => "eval.js" end)
                   (match options with None => 1 | Some _ => 0 end)
                   (evalOptionsToFlags C options), Pointer rp);
         (Module_free c, NoAnswer)] rp ep /\
    result_of vm s1 rp ep r /\
    same_lifetimes s s1.
Proof.
  destruct s as [hp sc pr tr ex id fm u g].
  xstart (evalCode C vm code filename options (State hp sc pr tr ex id fm u g)).
  unfold evalCode at 1. yrun. case_decide; yrun; destruct filename; result_done.
Qed.

(** *** throw *)

(** X12.  [throw] with a live handle hands its raw value to [QTS_Throw],
    returns the answer and disposes the handle: the value is released and the
    handle is dead afterwards.  With a handle that is no longer alive it
    throws the use-after-dispose error and calls nothing. *)
Theorem throw_consumes_the_handle (h : handle) (p : pointer) (s : store) :
  (heap_value vm s h p true ->
   exists tp s1,
     throw C vm (ExnHandle h) s = (Ok tp, s1) /\
     trace s1 = trace s ++ [(QTS_Throw (ctx vm) p, Pointer tp);
                            (QTS_FreeValuePointer (ctx vm) p, NoAnswer)] /\
     heap s1 = alter kill h (heap s) /\
     is_alive s1 h = false) /\
  (heap_value vm s h p false ->
   throw C vm (ExnHandle h) s = (Raise (use_after_dispose C), s)).
Proof.
  unfold heap_value. destruct s as [hp sc pr tr ex id fm u g]. cbn [heap]. split.
  - intros Hh. pose proof (lookup_lt_Some _ _ _ Hh) as Lh.
    xstart (throw C vm (ExnHandle h) (State hp sc pr tr ex id fm u g)).
    unfold throw at 1. yrun. xdone. cbn [fst snd]. xnorm.
    eexists _, _. split; [reflexivity|]. xnorm.
    split; [by rewrite <- app_assoc|]. split; [done|].
    unfold is_alive. xnorm. by rewrite list_lookup_alter_eq, Hh.
  - intros Hh.
    xstart (throw C vm (ExnHandle h) (State hp sc pr tr ex id fm u g)).
    unfold throw at 1. yrun. xdone. reflexivity.
Qed.

(** *** Deferred promises *)

(** X13.  [newPromise] asks the runtime for a promise capability through a
    buffer of two pointers, which it releases before it returns.  The
    deferred promise it returns has three new handles, all alive and made by
    [heapValueHandle]: the promise around what
    [QTS_NewPromiseCapability] answered, and the two callbacks around the two
    pointers read from the buffer; its [settled] is a new pending host
    promise; it is alive.  No Lifetime that existed is touched. *)
Theorem newPromise_makes_three_handles (s : store) :
  exists buf pp pr pj d s1,
    newPromise C vm s = (Ok d, s1) /\
    trace s1 = trace s ++
      [(Module_malloc_pointers [0; 0], Pointer buf);
       (QTS_NewPromiseCapability (ctx vm) buf, Pointer pp);
       (Module_read_pointer buf 0, Pointer pr);
       (Module_read_pointer buf 1, Pointer pj);
       (Module_free buf, NoAnswer)] /\
    heap_value vm s1 (dp_handle d) pp true /\
    heap_value vm s1 (dp_resolveHandle d) pr true /\
    heap_value vm s1 (dp_rejectHandle d) pj true /\
    deferred_in vm s1 d /\
    dp_settled d = length (promises s) /\
    promises s1 = promises s ++ [Pending] /\
    fnMap s1 = fnMap s /\
    same_lifetimes s s1 /\
    deferred_alive d s1 = (Ok true, s1).
Proof.
  destruct s as [hp sc pr0 tr ex id fm u g].
  xstart (newPromise C vm (State hp sc pr0 tr ex id fm u g)).
  unfold newPromise at 1. yrun. cbn [replicate]. yrun.
  xdone. cbn [fst snd]. xnorm. eexists _, _, _, _, _, _. split; [reflexivity|].
  cbn [dp_handle dp_resolveHandle dp_rejectHandle dp_settled]. xnorm.
  split; [by rewrite <- !app_assoc|].
  split; [unfold heap_value; xlook|].
  split; [unfold heap_value; xlook|].
  split; [unfold heap_value; xlook|].
  split.
  { unfold deferred_in, heap_value.
    cbn [dp_handle dp_resolveHandle dp_rejectHandle]. xnorm.
    repeat split; try lia; eexists _, _; xlook. }
  split; [done|]. split; [done|]. split; [done|].
  split; [unfold same_lifetimes; xnorm; intros ? ?; xlook|].
  lazymatch goal with |- ?t = _ => xstart t end.
  unfold deferred_alive at 1. cbn [dp_handle dp_resolveHandle dp_rejectHandle].
  yrun. xdone. reflexivity.
Qed.

Lemma deferred_dead_run d (lh lr lj : lifetime) (s : store) :
  heap s !! dp_handle d = Some lh -> lt_alive lh = false ->
  heap s !! dp_resolveHandle d = Some lr -> lt_alive lr = false ->
  heap s !! dp_rejectHandle d = Some lj -> lt_alive lj = false ->
  deferred_alive d s = (Ok false, s) /\ deferred_dispose C d s = (Ok tt, s).
Proof.
  intros Hh Ah Hr Ar Hj Aj.
  unfold deferred_alive, deferred_dispose, disposeResolvers, bind, ret.
  repeat (rewrite ?(alive_known _ _ _ Hh), ?(alive_known _ _ _ Hr),
            ?(alive_known _ _ _ Hj), ?Ah, ?Ar, ?Aj; cbv beta iota).
  done.
Qed.

(** X14.  [dispose] of a deferred promise releases each of its three
    handles that is still alive, the promise first, then the resolve and the
    reject callback, and none that is dead already.  Afterwards the deferred
    promise is not alive and a second [dispose] does nothing.  [settled] is
    left as it was. *)
Theorem deferred_dispose_is_idempotent d (pp pr pj : pointer) (a1 a2 a3 : bool)
    (s : store) :
  heap_value vm s (dp_handle d) pp a1 ->
  heap_value vm s (dp_resolveHandle d) pr a2 ->
  heap_value vm s (dp_rejectHandle d) pj a3 ->
  dp_handle d <> dp_resolveHandle d ->
  dp_handle d <> dp_rejectHandle d ->
  dp_resolveHandle d <> dp_rejectHandle d ->
  exists s1,
    deferred_dispose C d s = (Ok tt, s1) /\
    trace s1 = trace s
      ++ (if a1 then [(QTS_FreeValuePointer (ctx vm) pp, NoAnswer)] else [])
      ++ (if a2 then [(QTS_FreeValuePointer (ctx vm) pr, NoAnswer)] else [])
      ++ (if a3 then [(QTS_FreeValuePointer (ctx vm) pj, NoAnswer)] else []) /\
    promises s1 = promises s /\
    deferred_alive d s1 = (Ok false, s1) /\
    deferred_dispose C d s1 = (Ok tt, s1).
Proof.
  unfold heap_value. destruct d as [h st r j].
  cbn [dp_handle dp_resolveHandle dp_rejectHandle]. intros Hh Hr Hj N1 N2 N3.
  pose proof (lookup_lt_Some _ _ _ Hh) as Lh. pose proof (lookup_lt_Some _ _ _ Hr) as Lr.
  pose proof (lookup_lt_Some _ _ _ Hj) as Lj.
  destruct s as [hp sc pr0 tr ex id fm u g]. cbn [heap] in *.
  xstart (deferred_dispose C (DeferredPromise h st r j) (State hp sc pr0 tr ex id fm u g)).
  unfold deferred_dispose at 1. cbn [dp_handle dp_resolveHandle dp_rejectHandle].
  destruct a1, a2, a3; yrun; xdone; cbn [fst snd]; xnorm;
    eexists; (split; [reflexivity|]); xnorm;
    (split; [rewrite <- ?app_assoc; cbn [app]; rewrite ?app_nil_r; reflexivity|]);
    (split; [reflexivity|]).
  all: eapply deferred_dead_run; cbn [dp_handle dp_resolveHandle dp_rejectHandle];
    try (ylook; rewrite ?Hh, ?Hr, ?Hj; reflexivity); reflexivity.
Qed.

(** *** The callbacks of resolvePromise *)

Lemma settle_pending (pr : list promise_state) (p : nat) (st : promise_state) :
  pr !! p = Some Pending ->
  alter (fun old => match old with Pending => st | _ => old end) p pr = <[p := st]> pr.
Proof.
  intros H. apply list_eq. intros i. destruct (decide (i = p)) as [->|].
  - rewrite list_lookup_alter_eq, list_lookup_insert_eq by (by eapply lookup_lt_Some).
    by rewrite H.
  - by rewrite list_lookup_alter_ne, list_lookup_insert_ne.
Qed.

(** X15.  The two closures [resolvePromise] registers settle its host
    promise across the bridge.  An inbound call of the resolve closure with
    one argument duplicates the argument ([QTS_DupValuePointer] on the raw
    value read from [argv]) and fulfils the pending host promise with
    [{ value: dup }]; the reject closure fulfils it with [{ error: dup }].
    The duplicate is a new owned handle which is alive after the call, the
    bridge returns 0, and nothing is released. *)
Theorem promise_callbacks_fulfil (this_ptr argv : pointer) (fn_id : Z) (fn : hostfn)
    (pidx : nat) (s : store) :
  fnMap s !! fn_id = Some fn ->
  fn = ResolveThen pidx \/ fn = RejectThen pidx ->
  promises s !! pidx = Some Pending ->
  exists a q d s1,
    cToHostCallbackFunction C vm apply_user (ctx vm) this_ptr 1 argv fn_id s = (Ok 0, s1) /\
    trace s1 = trace s ++ [(QTS_ArgvGetJSValueConstPointer argv 0, Pointer a);
                           (QTS_DupValuePointer (ctx vm) a, Pointer q)] /\
    heap_value vm s1 d q true /\ (length (heap s) <= d)%nat /\
    promises s1 =
      <[pidx := Fulfilled (Some (match fn with
                                 | RejectThen _ => CallResult None (Some d)
                                 | _ => CallResult (Some d) None
                                 end))]> (promises s) /\
    fnMap s1 = fnMap s /\
    same_lifetimes s s1.
Proof.
  intros Hfn Hcase Hp. pose proof (lookup_lt_Some _ _ _ Hp) as Lp.
  destruct s as [hp sc pr tr ex id fm u g]. cbn [fnMap promises] in *.
  xstart (cToHostCallbackFunction C vm apply_user (ctx vm) this_ptr 1 argv fn_id
            (State hp sc pr tr ex id fm u g)).
  unfold cToHostCallbackFunction at 1. rewrite decide_False by (by intros ?).
  yrun. rewrite Hfn.
  destruct Hcase as [-> | ->]; yrun; xdone; cbn [fst snd]; xnorm;
    eexists _, _, (length hp + 2)%nat, _; (split; [reflexivity|]); xnorm.
  all: (split; [by rewrite <- app_assoc|]).
  all: (split; [unfold heap_value; xlook|]).
  all: (split; [len|]).
  all: (split; [by apply settle_pending|]).
  all: (split; [reflexivity|]).
  all: unfold same_lifetimes; xnorm; intros ? ?; xlook.
Qed.

(** *** The arguments of an inbound call *)

Lemma wrap_args_exact (sc : nat) (argv : pointer) (n : nat) :
  forall (i : nat) (hs : list nat) (s : store),
    scopes s !! sc = Some (ScopeObj hs true) ->
    exists ptrs s1,
      wrap_args C vm sc argv (Z.of_nat i) n s = (Ok (seq (length (heap s)) n), s1) /\
      length ptrs = n /\
      trace s1 = trace s ++
        imap (fun j a => (QTS_ArgvGetJSValueConstPointer argv (Z.of_nat (i + j)), Pointer a))
             ptrs /\
      heap s1 = heap s ++ map (weak_lifetime vm) ptrs /\
      scopes s1 = <[sc := ScopeObj (hs ++ seq (length (heap s)) n) true]> (scopes s) /\
      promises s1 = promises s /\ fnMap s1 = fnMap s.
Proof.
  induction n as [|n IH]; intros i hs s Hsc.
  - exists [], s. cbn. rewrite !app_nil_r. repeat split; try done.
    symmetry. by apply list_insert_id.
  - set (p := ffi_ptr C (QTS_ArgvGetJSValueConstPointer argv (Z.of_nat i)) (ext s)).
    set (s' := upd_scopes (<[sc := ScopeObj (hs ++ [length (heap s)]) true]>)
                 (upd_heap (fun hp => hp ++ [weak_lifetime vm p])
                    (log_call C (QTS_ArgvGetJSValueConstPointer argv (Z.of_nat i))
                       (Pointer p) s))).
    destruct (IH (S i) (hs ++ [length (heap s)]) s') as
      (ptrs & s1 & E & Lp & T & Hp & Sc & P & M).
    { subst s'. cbn. apply list_lookup_insert_eq. by eapply lookup_lt_Some. }
    exists (p :: ptrs), s1. split.
    { cbn [wrap_args]. eapply bind_ok; [reflexivity|].
      eapply bind_ok; [reflexivity|].
      eapply bind_ok; [by apply manage_ok|].
      replace (Z.of_nat i + 1) with (Z.of_nat (S i)) by lia.
      eapply bind_ok; [exact E|]. subst s'. cbn [heap upd_scopes upd_heap log_call].
      rewrite length_app. cbn [length seq]. by rewrite Nat.add_1_r. }
    subst s'. cbn [heap scopes trace promises fnMap upd_scopes upd_heap log_call] in *.
    rewrite Hp, Sc, T, P, M, length_app. cbn [length map imap seq].
    rewrite Nat.add_0_r, Nat.add_1_r, <- !app_assoc, list_insert_insert_eq. cbn [app].
    repeat split; try (by f_equal).
    do 2 f_equal. apply imap_ext. intros j a _. cbn. do 3 f_equal. lia.
Qed.

(** X16.  The bridge reads the [argc] arguments of an inbound call one by
    one and in order, each with [QTS_ArgvGetJSValueConstPointer] on [argv]
    and its index; each raw value read is wrapped in a new borrowed Lifetime
    of this context, and these handles are registered, in order, in the
    call's Scope. *)
Theorem arguments_are_read_in_order (sc : nat) (argv : pointer) (argc : nat)
    (hs : list nat) (s : store) :
  scopes s !! sc = Some (ScopeObj hs true) ->
  exists ptrs s1,
    wrap_args C vm sc argv 0 argc s = (Ok (seq (length (heap s)) argc), s1) /\
    length ptrs = argc /\
    trace s1 = trace s ++
      imap (fun i a => (QTS_ArgvGetJSValueConstPointer argv (Z.of_nat i), Pointer a)) ptrs /\
    heap s1 = heap s ++ map (weak_lifetime vm) ptrs /\
    scopes s1 = <[sc := ScopeObj (hs ++ seq (length (heap s)) argc) true]> (scopes s) /\
    promises s1 = promises s /\ fnMap s1 = fnMap s.
Proof.
  intros Hsc. destruct (wrap_args_exact sc argv argc 0%nat hs s Hsc) as (ptrs & s1 & E & H).
  exists ptrs, s1. split; [exact E | exact H].
Qed.

(** *** What the bridge does with a returned handle *)

Lemma dispose_keeps_dead (h k : handle) (s s' : store) :
  dispose C h s = (Ok tt, s') -> is_alive s k = false -> is_alive s' k = false.
Proof.
  unfold dispose, bind, gets, is_alive.
  destruct (heap s !! h) as [l|] eqn:Hl; [|by intros [= <-]].
  destruct (lt_class l); try (by intros [= <-]).
  destruct (lt_alive l); [|by intros [= <-]].
  destruct (lt_disposer l) as [[c|]|]; cbn; intros [= <-]; cbn;
    (destruct (decide (k = h)) as [->|];
     [by rewrite list_lookup_alter_eq, Hl | by rewrite list_lookup_alter_ne]).
Qed.

Lemma dispose_all_keeps_dead (hs : list nat) (k : handle) (s : store) :
  exists s' frees, dispose_all C hs s = (Ok tt, s') /\
    trace s' = trace s ++ frees /\ Forall is_free frees /\
    (is_alive s k = false -> is_alive s' k = false).
Proof.
  revert s. induction hs as [|h hs IH]; intros s.
  - exists s, []. by rewrite app_nil_r.
  - destruct (dispose_trace h s) as (s1 & f1 & E1 & T1 & F1 & _).
    destruct (IH s1) as (s2 & f2 & E2 & T2 & F2 & D2).
    exists s2, (f1 ++ f2). split; [cbn [dispose_all]; eapply bind_ok; [exact E1 | exact E2]|].
    rewrite T2, T1, app_assoc. split; [done|]. split; [by apply Forall_app|].
    intros Hd. apply D2. by eapply dispose_keeps_dead.
Qed.

(** X17.  A live owned handle that the implementation returns (as it is or
    as [{ value: handle }]) is taken over by the bridge: its value is
    duplicated for the caller, and then the handle itself is disposed with
    the call's Scope, so that the implementation's handle is dead once the
    call is over.  An implementation that wants to keep a value has to
    return a [dup] of it. *)
Theorem returned_handle_is_released (this_ptr argv : Z) (argc : nat) (fn_id : Z)
    (fn : hostfn) (s : store) :
  fnMap s !! fn_id = Some fn ->
  exists scope thisHandle argHandles s1,
    length argHandles = argc /\
    scopes s1 !! scope = Some (ScopeObj (thisHandle :: argHandles) true) /\
    same_lifetimes s s1 /\
    forall r s2 h p,
      apply_hostfn C apply_user fn thisHandle argHandles s1 = (Ok r, s2) ->
      r = ImplHandle h \/ r = ImplResult (CallResult (Some h) None) ->
      (exists hs, scopes s2 !! scope = Some (ScopeObj hs true)) ->
      heap_value vm s2 h p true ->
      exists q frees s3,
        cToHostCallbackFunction C vm apply_user (ctx vm) this_ptr argc argv fn_id s
        = (Ok q, s3) /\
        trace s3 = trace s2 ++ [(QTS_DupValuePointer (ctx vm) p, Pointer q);
                                (QTS_FreeValuePointer (ctx vm) p, NoAnswer)] ++ frees /\
        Forall is_free frees /\
        is_alive s3 h = false.
Proof.
  intros Hfn. destruct s as [hp sc pr tr ex id fm u g]. cbn [fnMap] in Hfn.
  set (s0 := State (hp ++ [weak_lifetime vm this_ptr])
                   (<[length sc := ScopeObj [length hp] true]> (sc ++ [ScopeObj [] true]))
                   pr tr ex id fm u g).
  destruct (wrap_args_exact (length sc) argv argc 0%nat [length hp] s0)
    as (ptrs & s1 & E & Lp & T & Hp & S & P & M).
  { subst s0. cbn [scopes]. apply list_lookup_insert_eq. len. }
  exists (length sc), (length hp), (seq (length (heap s0)) argc), s1.
  split; [by rewrite length_seq|]. split.
  { rewrite S. subst s0. cbn [scopes]. rewrite list_lookup_insert_eq; [done|].
    rewrite length_insert. len. }
  split.
  { unfold same_lifetimes. rewrite Hp. subst s0. cbn [heap]. intros k Hk.
    by rewrite <- app_assoc, lookup_app_l. }
  intros r s2 h p Himpl Hr [hs Hsc2] Hh. unfold heap_value in Hh.
  pose proof (lookup_lt_Some _ _ _ Hsc2) as Lsc2.
  xstart (cToHostCallbackFunction C vm apply_user (ctx vm) this_ptr argc argv fn_id
            (State hp sc pr tr ex id fm u g)).
  unfold cToHostCallbackFunction at 1. rewrite decide_False by (by intros ?).
  xrun. rewrite Hfn. xrun.
  (eapply obind_known; [exact E|]). xnorm. xrun.
  (eapply obind_known; [exact Himpl|]). xnorm.
  unfold forward_result at 1.
  destruct Hr as [-> | ->]; xnorm; xrun.
  all: (eapply obind_scope_dispose_list; [xnorm; by apply list_lookup_insert_eq|]).
  all: rewrite rev_app_distr; cbn [rev app dispose_all]; xrun.
  all: lazymatch goal with
       | |- _ (obind (dispose_all C ?l) _ ?S) =>
           destruct (dispose_all_keeps_dead l h S) as (s3 & frees & E3 & T3 & F3 & D3)
       end.
  all: (eapply obind_known; [exact E3|]); xnorm; xrun; xdone; cbn [fst snd].
  all: eexists _, frees, _; (split; [reflexivity|]); xnorm.
  all: split; [rewrite T3; xnorm; by rewrite <- !app_assoc|].
  all: split; [done|].
  all: unfold is_alive; xnorm; apply D3.
  all: unfold is_alive; xnorm; by rewrite list_lookup_alter_eq, Hh.
Qed.


(** *** resolvePromise *)

Ltac get_events_done := unfold get_events; eexists _, _; reflexivity.

Lemma alter_last {A} (f : A -> A) (l : list A) (x : A) :
  alter f (length l) (l ++ [x]) = l ++ [f x].
Proof. by rewrite <- (Nat.add_0_r (length l)), alter_app_r. Qed.

Lemma bind_keeps_fnMap {A B} (m : HM A) (k : A -> HM B) :
  (forall s r s', m s = (r, s') -> fnMap s' = fnMap s) ->
  (forall a s r s', k a s = (r, s') -> fnMap s' = fnMap s) ->
  forall s r s', bind m k s = (r, s') -> fnMap s' = fnMap s.
Proof.
  intros Hm Hk s r s' E.
  apply bind_inv in E as [(a & s1 & E1 & E2) | (e & E1 & _)].
  - rewrite (Hk _ _ _ _ E2). eauto.
  - eauto.
Qed.

Lemma assertOwned_keeps_fnMap (h : handle) (s s' : store) r :
  assertOwned C vm h s = (r, s') -> fnMap s' = fnMap s.
Proof. destruct (assertOwned_cases h s) as [-> | ->]; by intros [= _ <-]. Qed.

Lemma value_keeps_fnMap (h : handle) (s s' : store) r :
  value C h s = (r, s') -> fnMap s' = fnMap s.
Proof. destruct (value_cases h s) as [[p ->] | ->]; by intros [= _ <-]. Qed.

Lemma dump_keeps_fnMap (h : handle) (s s' : store) r :
  dump C vm h s = (r, s') -> fnMap s' = fnMap s.
Proof.
  revert s r s'. unfold dump, typeof, getString, getNumber.
  apply bind_keeps_fnMap; [intros; by eapply assertOwned_keeps_fnMap|]. intros _.
  apply bind_keeps_fnMap.
  { apply bind_keeps_fnMap; [intros; by eapply assertOwned_keeps_fnMap|]. intros _.
    apply bind_keeps_fnMap; [intros; by eapply value_keeps_fnMap|].
    intros v s r s'. by intros [= _ <-]. }
  intros type. repeat case_decide.
  - apply bind_keeps_fnMap; [|intros str s r s'; by intros [= _ <-]].
    apply bind_keeps_fnMap; [intros; by eapply assertOwned_keeps_fnMap|]. intros _.
    apply bind_keeps_fnMap; [intros; by eapply value_keeps_fnMap|].
    intros v s r s'. by intros [= _ <-].
  - apply bind_keeps_fnMap; [|intros n s r s'; by intros [= _ <-]].
    apply bind_keeps_fnMap; [intros; by eapply assertOwned_keeps_fnMap|]. intros _.
    apply bind_keeps_fnMap; [intros; by eapply value_keeps_fnMap|].
    intros v s r s'. by intros [= _ <-].
  - intros s r s'. by intros [= _ <-].
  - apply bind_keeps_fnMap; [intros; by eapply value_keeps_fnMap|]. intros v.
    apply bind_keeps_fnMap; [intros s r s'; by intros [= _ <-]|].
    intros str s r s'. destruct (JSON_parse C str); by intros [= _ <-].
Qed.

Lemma unwrapResult_keeps_fnMap (r : call_result) (s s' : store) x :
  unwrapResult C vm r s = (x, s') -> fnMap s' = fnMap s.
Proof.
  unfold unwrapResult. destruct (res_error r) as [h|]; [|by intros [= _ <-]].
  unfold consume, bind, try. destruct (dump C vm h s) as [rd s1] eqn:Ed.
  apply dump_keeps_fnMap in Ed.
  destruct (dispose_trace h s1) as (s2 & frees & E2 & _ & _ & _ & _ & M2). rewrite E2.
  intros E. rewrite <- Ed, <- M2. clear Ed E2 M2.
  destruct rd as [[| |b|n|str|xs|fields]|e0]; cbn in E; try (by injection E as _ <-).
  destruct (get_field "message" fields) as [[| |b|n|str|xs|fs]|];
    by injection E as _ <-.
Qed.

(** X18.  [resolvePromise] on a live handle, the global object being
    cached: it reads [Promise] from the global object and [resolve] from
    [Promise], calls [Promise.resolve] with the handle's raw value as the one
    argument, and releases both.  When that call reports an exception, the
    host promise it returns is already fulfilled with [{ error }] around the
    exception and no host function is registered.  Otherwise it registers the
    closures ["resolve"] and ["reject"] under the next two ids, reads [then]
    from the promise that [Promise.resolve] answered and calls it with the
    two new functions; it then releases the result of [then], [then], the
    promise and the two function handles, and returns a pending host promise
    (a rejected one if the call of [then] reported an exception).  The two
    registrations stay. *)
Theorem resolvePromise_protocol (h g : handle) (lh : lifetime) (gp : pointer)
    (s : store) :
  heap s !! h = Some lh -> lt_alive lh = true ->
  lt_owner lh = None \/ lt_owner lh = Some (owner vm) ->
  _global s = Some g ->
  heap s !! g = Some (Lifetime StaticLifetime gp None None (Some (owner vm)) true) ->
  exists P R evsP evsR argv rp ep rest s1,
    resolvePromise C vm h s = (Ok (length (promises s)), s1) /\
    get_events vm gp "Promise" P evsP /\
    get_events vm P "resolve" R evsR /\
    trace s1 = trace s ++ evsP ++ evsR
      ++ [(Module_malloc_pointers [lt_value lh], Pointer argv);
          (QTS_Call (ctx vm) R P 1 argv, Pointer rp);
          (Module_free argv, NoAnswer);
          (QTS_ResolveException (ctx vm) rp, Pointer ep)]
      ++ rest /\
    (ep <> 0 ->
       exists eh,
         rest = [(QTS_FreeValuePointer (ctx vm) rp, NoAnswer);
                 (QTS_FreeValuePointer (ctx vm) R, NoAnswer);
                 (QTS_FreeValuePointer (ctx vm) P, NoAnswer)] /\
         promises s1 = promises s ++ [Fulfilled (Some (CallResult None (Some eh)))] /\
         heap_value vm s1 eh ep true /\
         fnMap s1 = fnMap s) /\
    (ep = 0 ->
       exists F1 F2 T evsT argv2 rp2 ep2 rest2,
         get_events vm rp "then" T evsT /\
         rest = [(QTS_FreeValuePointer (ctx vm) R, NoAnswer);
                 (QTS_FreeValuePointer (ctx vm) P, NoAnswer);
                 (QTS_NewFunction (ctx vm) (fnNextId s + 1) "resolve", Pointer F1);
                 (QTS_NewFunction (ctx vm) (fnNextId s + 2) "reject", Pointer F2)]
                ++ evsT
                ++ [(Module_malloc_pointers [F1; F2], Pointer argv2);
                    (QTS_Call (ctx vm) T rp 2 argv2, Pointer rp2);
                    (Module_free argv2, NoAnswer);
                    (QTS_ResolveException (ctx vm) rp2, Pointer ep2)]
                ++ rest2 /\
         fnMap s1 = <[fnNextId s + 2 := RejectThen (length (promises s))]>
                      (<[fnNextId s + 1 := ResolveThen (length (promises s))]> (fnMap s)) /\
         (ep2 = 0 ->
            rest2 = [(QTS_FreeValuePointer (ctx vm) rp2, NoAnswer);
                     (QTS_FreeValuePointer (ctx vm) T, NoAnswer);
                     (QTS_FreeValuePointer (ctx vm) rp, NoAnswer);
                     (QTS_FreeValuePointer (ctx vm) F2, NoAnswer);
                     (QTS_FreeValuePointer (ctx vm) F1, NoAnswer)] /\
            promises s1 = promises s ++ [Pending]) /\
         (ep2 <> 0 -> exists e, promises s1 = promises s ++ [Rejected e])).
Proof.
  intros Hh Ha Ho Hg Hgl.
  pose proof (lookup_lt_Some _ _ _ Hh) as Lh. pose proof (lookup_lt_Some _ _ _ Hgl) as Lg.
  destruct s as [hp sc pr tr ex id fm u g0]. cbn [heap _global promises fnMap fnNextId trace] in *.
  subst g0.
  xstart (resolvePromise C vm h (State hp sc pr tr ex id fm u (Some g))).
  unfold resolvePromise at 1.
  destruct Ho as [Ho|Ho]; yrun.
  all: case_decide; yrun.
  all: try (case_decide; yrun).
  all: try lazymatch goal with
       | |- _ (obind (unwrapResult _ _ (CallResult (Some _) None)) _ _) =>
           unfold unwrapResult at 1; xnorm; yrun
       end.
  all: try lazymatch goal with
       | |- _ (obind (unwrapResult _ _ (CallResult None (Some ?hh))) _ ?S) =>
           edestruct unwrapResult_error_run with (x := @None nat) (h := hh) (s := S)
             as (e & evs & s' & E & Hh' & Hsc' & Hpr' & Hu' & Htr' & Hnc);
             [unfold heap_value; xlook |];
           pose proof (unwrapResult_keeps_fnMap _ _ _ _ E) as Hfm';
           (eapply obind_known; [exact E|]); xnorm; yrun;
           (eapply obind_scope_dispose; [rewrite Hsc'; xlook|]);
           intros s3 frees T3 F3 P3 M3; xnorm; yrun
       end.
  all: xdone; cbn [fst snd].
  all: eexists _, _, _, _, _, _, _, _, _; (split; [reflexivity|]);
    (split; [get_events_done|]); (split; [get_events_done|]);
    (split; [xnorm; rewrite ?T3, ?Htr'; xnorm; rewrite <- ?app_assoc; cbn [app];
             reflexivity|]).
  all: split; intros Hep; try (exfalso; lia).
  all: try (eexists; (split; [reflexivity|]); (split; [xnorm; reflexivity|]);
      (split; [unfold heap_value; xlook | reflexivity])).
  all: eexists _, _, _, _, _, _, _, _; (split; [get_events_done|]).
  all: (split; [cbn [app]; replace (id + 1 + 1) with (id + 2) by lia; reflexivity|]).
  all: (split; [xnorm; rewrite ?M3, ?Hfm'; xnorm;
                replace (id + 1 + 1) with (id + 2) by lia; reflexivity|]);
      split; intros Hep2; try (exfalso; lia).
  all: first
    [ split; [reflexivity | xnorm; reflexivity]
    | eexists; xnorm; rewrite P3, Hpr'; xnorm; rewrite alter_last; reflexivity ].
Qed.

(** *** defineProp *)

Ltac accessor_events_done :=
  unfold accessor_events; xnorm;
  first [ split; reflexivity | split; [reflexivity | split; reflexivity] ].

(** X19.  [defineProp] on a live object of this context, the foreign
    [undefined] being cached: one [QTS_DefineProp] is made.  It gets the raw
    value of [descriptor.value], or [undefined] with [hasValue] false when
    there is none; for a getter or setter that is given, a foreign function
    is made first, registered under the next id, and its handle is released
    once the property is defined, while the registration stays; for one that
    is not given [undefined] is passed.  The key is treated as by
    [setProp]. *)
Theorem defineProp_defines_once (h u : handle) (key : property_key)
    (d : VmPropertyDescriptor user_fn) (lh : lifetime) (up vp : pointer) (s : store) :
  heap s !! h = Some lh -> lt_alive lh = true ->
  lt_owner lh = None \/ lt_owner lh = Some (owner vm) ->
  key_alive s key ->
  _undefined s = Some u ->
  heap s !! u = Some (Lifetime StaticLifetime up None None None true) ->
  alive_if_given s (pd_value d) ->
  argument_pointer s (pd_value d) up vp ->
  exists kp before after gp sp gmade gfreed smade sfreed s1,
    defineProp C vm user_fn_name h key d s = (Ok tt, s1) /\
    key_events vm s key kp before after /\
    accessor_events vm user_fn_name (pd_get d) (fnNextId s + 1) gp up gmade gfreed /\
    accessor_events vm user_fn_name (pd_set d)
      (fnNextId s + match pd_get d with Some _ => 2 | None => 1 end) sp up smade sfreed /\
    trace s1 = trace s ++ before ++ gmade ++ smade
      ++ [(QTS_DefineProp (ctx vm) (lt_value lh) kp vp gp sp
             (pd_configurable d) (pd_enumerable d)
             (match pd_value d with Some _ => true | None => false end), NoAnswer)]
      ++ sfreed ++ gfreed ++ after /\
    (forall f, pd_get d = Some f -> fnMap s1 !! (fnNextId s + 1) = Some (UserFn f)) /\
    (forall f, pd_set d = Some f ->
       fnMap s1 !! (fnNextId s + match pd_get d with Some _ => 2 | None => 1 end) = Some (UserFn f)) /\
    (pd_get d = None -> pd_set d = None -> fnMap s1 = fnMap s) /\
    same_lifetimes s s1.
Proof.
  intros Hh Ha Ho Hk Hu Hul Hv Hvp.
  assert (forall k, key = KeyHandle k ->
            exists lk, heap s !! k = Some lk /\ lt_alive lk = true) as Hk'
    by (intros k E; apply is_alive_true; by apply Hk).
  assert (forall v, pd_value d = Some v ->
            exists lv, heap s !! v = Some lv /\ lt_alive lv = true) as Hv'
    by (intros v E; apply is_alive_true; by apply Hv).
  destruct s as [hp sc pr tr ex id fm u0 g].
  destruct d as [v conf enum get set].
  cbn [heap _undefined trace fnMap fnNextId pd_value pd_get pd_set pd_configurable
       pd_enumerable] in *.
  subst u0. unfold argument_pointer in Hvp. cbn [heap] in Hvp.
  pose proof (lookup_lt_Some _ _ _ Hh) as Lh. pose proof (lookup_lt_Some _ _ _ Hul) as Lu.
  xstart (defineProp C vm user_fn_name h key (PropertyDescriptor user_fn v conf enum get set)
            (State hp sc pr tr ex id fm (Some u) g)).
  unfold defineProp at 1.
  cbn [pd_value pd_get pd_set pd_configurable pd_enumerable].
  destruct key as [n|str|k]; [| |destruct (Hk' k eq_refl) as (lk & Hlk & Hak);
                                pose proof (lookup_lt_Some _ _ _ Hlk) as Lk].
  all: destruct v as [v|]; [destruct (Hv' v eq_refl) as (lv & Hlv & Hav);
                            destruct Hvp as (lv' & Hlv' & <-);
                            assert (lv' = lv) as -> by congruence;
                            pose proof (lookup_lt_Some _ _ _ Hlv) as Lv
                           | subst vp].
  all: destruct get as [fg|], set as [fs|], Ho as [Ho|Ho]; yrun.
  all: xdone; cbn [fst snd]; eexists _, _, _, _, _, _, _, _, _, _;
    (split; [reflexivity|]); (split; [key_events_done|]);
    (split; [accessor_events_done|]); (split; [accessor_events_done|]).
  all: (split; [xnorm; rewrite <- ?app_assoc; cbn [app];
                replace (id + 1 + 1) with (id + 2) by lia; reflexivity|]).
  all: (split; [intros f E; try discriminate; injection E as <-; xnorm;
                rewrite ?lookup_insert_ne by lia; by rewrite lookup_insert_eq|]).
  all: (split; [intros f E; try discriminate; injection E as <-; xnorm;
                replace (id + 1 + 1) with (id + 2) by lia;
                by rewrite lookup_insert_eq|]).
  all: (split; [intros E1 E2; try discriminate; reflexivity|]).
  all: unfold same_lifetimes; xnorm; intros ? ?; xlook.
Qed.

End Properties.

(** ** Closed instances *)

Ltac conjuncts := repeat lazymatch goal with |- _ /\ _ => split end.

(** The handles of [Demo.deferred] in [Demo.pending Demo.calm]. *)
Ltac fresh_deferred :=
  unfold deferred_in;
  refine (conj (ex_intro _ 2 (ex_intro _ true _))
         (conj (ex_intro _ 3 (ex_intro _ true _))
         (conj (ex_intro _ 4 (ex_intro _ true _)) _)));
  [vm_compute; reflexivity ..|]; conjuncts; vm_compute; lia.

(** *** Ownership *)



(** *** Results *)

(** [evalCode] in a runtime that reports an exception: still one branch. *)
Lemma call_result_has_one_branch_witness :
  exists r s',
    evalCode Demo.C Demo.vm "1 + 1" None None (Demo.initial Demo.stormy) = (Ok r, s') /\
    one_branch r.
Proof.
  destruct (call_result_has_one_branch (user_fn := Demo.impl) Demo.C Demo.vm) as (_ & Hone & Hruns & _).
  destruct (Hruns "1 + 1" None None (Demo.initial Demo.stormy)) as (r & s' & E).
  exists r, s'. split; [exact E|]. exact (Hone _ _ _ _ _ _ E).
Defined.

(** A value passes through; a foreign [RangeError] comes out as a host
    [Error] of that name and message, and its handle is dead. *)
Lemma unwrapResult_returns_or_throws_witness :
  unwrapResult Demo.C Demo.vm (CallResult (Some 0%nat) None) (Demo.one_object Demo.stormy)
  = (Ok (Some 0%nat), Demo.one_object Demo.stormy) /\
  exists e s2,
    unwrapResult Demo.C Demo.vm (CallResult None (Some 0%nat)) (Demo.one_object Demo.stormy)
    = (Raise e, s2) /\
    e = ExnError (HostError (Some "RangeError") (Some "x") (Some (host_stack Demo.C))) /\
    is_alive s2 0%nat = false.
Proof.
  split.
  - apply (unwrapResult_returns_or_throws Demo.C Demo.vm (CallResult (Some 0%nat) None)
             (Demo.one_object Demo.stormy)).
    reflexivity.
  - destruct (unwrapResult_returns_or_throws Demo.C Demo.vm (CallResult None (Some 0%nat))
                (Demo.one_object Demo.stormy)) as [_ H].
    destruct (H 0%nat eq_refl) as (rd & s1 & s2 & e & Ed & _ & E & _ & Hobj & _ & Hdead).
    exists e, s2. split; [exact E|]. split.
    + apply (Hobj [("name", VStr "RangeError"); ("message", VStr "x")] "x").
      * apply (f_equal fst) in Ed. cbn [fst] in Ed. rewrite <- Ed. vm_compute. reflexivity.
      * reflexivity.
    + eapply Hdead; reflexivity.
Defined.



(** *** The bridge *)



(** A call for another context, and a call for the unknown id 7. *)
Lemma dispatch_fails_fast_witness :
  cToHostCallbackFunction Demo.C Demo.vm Demo.run 999 5 0 60 1 (Demo.registered Demo.Count)
  = (Raise (ExnError (HostError (Some "Error")
       (Some "QuickJSVm instance received C -> JS call with mismatched ctx")
       (Some (host_stack Demo.C)))), Demo.registered Demo.Count) /\
  cToHostCallbackFunction Demo.C Demo.vm Demo.run (ctx Demo.vm) 5 0 60 7
    (Demo.registered Demo.Count)
  = (Raise (ExnError (HostError (Some "Error")
       (Some ("QuickJSVm had no callback with id " +:+ pretty 7))
       (Some (host_stack Demo.C)))), Demo.registered Demo.Count).
Proof.
  destruct (dispatch_fails_fast Demo.C Demo.vm Demo.run 999 5 60 0 1
              (Demo.registered Demo.Count)) as [H1 _].
  destruct (dispatch_fails_fast Demo.C Demo.vm Demo.run (ctx Demo.vm) 5 60 0 7
              (Demo.registered Demo.Count)) as [_ H2].
  split; [apply H1; vm_compute; lia | apply H2; reflexivity].
Defined.


(** *** Deferred promises *)

(** [newPromise] in a fresh context makes [Demo.deferred], pending, with its
    three handles distinct heap values. *)
Lemma newPromise_deferred :
  newPromise Demo.C Demo.vm (Demo.initial Demo.calm) = (Ok Demo.deferred, Demo.pending Demo.calm) /\
  deferred_in Demo.vm (Demo.pending Demo.calm) Demo.deferred /\
  promises (Demo.pending Demo.calm) !! dp_settled Demo.deferred = Some Pending.
Proof.
  split; [vm_compute; reflexivity|]. split; [|reflexivity].
  fresh_deferred.
Qed.

(** C5, as stated, fails.  On a pending promise, [resolve] with a value
    that was disposed throws before the callback is called; and when the
    foreign runtime reports an exception for the call, [resolve] throws it.
    In both cases the callbacks stay alive and [settled] is not fired. *)
Lemma resolve_may_leave_the_promise_pending :
  is_alive Demo.pending_and_disposed 4%nat = false /\
  fst (resolve Demo.C Demo.vm Demo.deferred (Some 4%nat) Demo.pending_and_disposed)
  = Raise (use_after_dispose Demo.C) /\
  trace (snd (resolve Demo.C Demo.vm Demo.deferred (Some 4%nat) Demo.pending_and_disposed))
  = trace Demo.pending_and_disposed ++ [(QTS_GetUndefined, Pointer 10)] /\
  is_alive (snd (resolve Demo.C Demo.vm Demo.deferred (Some 4%nat)
                   Demo.pending_and_disposed)) 2%nat = true /\
  promises (snd (resolve Demo.C Demo.vm Demo.deferred (Some 4%nat)
                   Demo.pending_and_disposed)) = [Pending] /\
  fst (resolve Demo.C Demo.vm Demo.deferred None (Demo.pending Demo.stormy))
  = Raise (ExnError (HostError (Some "RangeError") (Some "x") (Some "at host.js:1:1"))) /\
  is_alive (snd (resolve Demo.C Demo.vm Demo.deferred None (Demo.pending Demo.stormy)))
    2%nat = true /\
  is_alive (snd (resolve Demo.C Demo.vm Demo.deferred None (Demo.pending Demo.stormy)))
    3%nat = true /\
  promises (snd (resolve Demo.C Demo.vm Demo.deferred None (Demo.pending Demo.stormy)))
  = [Pending].
Proof. conjuncts; vm_compute; reflexivity. Qed.

(** [resolve()] and [reject()] on the promise [newPromise] made. *)
Lemma pending_promise_is_settled_witness :
  heap_value Demo.vm (Demo.pending Demo.calm) 2%nat 3 true /\
  heap_value Demo.vm (Demo.pending Demo.calm) 3%nat 4 true /\
  settlement Demo.vm Demo.deferred None 3 3 4 (Demo.pending Demo.calm)
    (resolve Demo.C Demo.vm Demo.deferred None (Demo.pending Demo.calm)) /\
  settlement Demo.vm Demo.deferred None 4 3 4 (Demo.pending Demo.calm)
    (reject Demo.C Demo.vm Demo.deferred None (Demo.pending Demo.calm)).
Proof.
  split; [reflexivity|]. split; [reflexivity|].
  apply (pending_promise_is_settled Demo.C Demo.vm Demo.deferred None 3 4
           (Demo.pending Demo.calm)).
  - reflexivity.
  - reflexivity.
  - vm_compute; lia.
  - intros u Hu. vm_compute in Hu. discriminate.
  - intros h Hh. discriminate.
Defined.


(** After [resolve()] the promise handle is alive until it is disposed. *)
Lemma settling_keeps_promise_handle_witness :
  is_alive (Demo.pending Demo.calm) 1%nat = true /\
  resolve Demo.C Demo.vm Demo.deferred None (Demo.pending Demo.calm) = (Ok tt, Demo.settled) /\
  is_alive Demo.settled 1%nat = true /\
  deferred_alive Demo.deferred Demo.settled = (Ok true, Demo.settled) /\
  exists s'',
    dispose Demo.C 1%nat Demo.settled = (Ok tt, s'') /\
    deferred_alive Demo.deferred s'' = (Ok false, s'').
Proof.
  assert (resolve Demo.C Demo.vm Demo.deferred None (Demo.pending Demo.calm)
          = (Ok tt, Demo.settled)) as E by (vm_compute; reflexivity).
  split; [reflexivity|]. split; [exact E|].
  destruct (settling_keeps_promise_handle Demo.C Demo.vm Demo.deferred None
              (Demo.pending Demo.calm) Demo.settled) as (Ha & Hd & _ & Hlast).
  - fresh_deferred.
  - reflexivity.
  - left. exact E.
  - split; [exact Ha|]. split; [exact Hd|]. apply Hlast; reflexivity.
Defined.


(** *** More of the context *)

(** The object of [Demo.one_object], wherever it is still as it was made. *)
Lemma first_object {F} (s : state (external := Demo.world) (user_fn := F)) l :
  heap s !! 0%nat = Some l ->
  l = Lifetime OwnedLifetime 1 (Some (copyJSValue Demo.vm)) (Some (freeJSValue Demo.vm))
               (Some (owner Demo.vm)) true ->
  heap_value Demo.vm s 0%nat 1 true.
Proof. intros H ->. exact H. Qed.

Lemma no_handle_key {external user_fn} (s : state (external := external) (user_fn := user_fn))
    (str : string) :
  key_alive s (KeyStr str).
Proof. intros k E. discriminate E. Qed.

Lemma ids_in_use_empty {external user_fn}
    (s : state (external := external) (user_fn := user_fn)) :
  fnMap s = ∅ -> ids_in_use s.
Proof. intros E k fn H. rewrite E, lookup_empty in H. discriminate H. Qed.

Lemma global_is_cached_witness :
  global Demo.C Demo.vm Demo.with_global = (Ok 2%nat, Demo.with_global) /\
  exists p s1,
    global Demo.C Demo.vm (Demo.one_object Demo.calm) = (Ok 2%nat, s1) /\
    trace s1 = trace (Demo.one_object Demo.calm) ++
               [(QTS_GetGlobalObject (ctx Demo.vm), Pointer p)] /\
    global Demo.C Demo.vm s1 = (Ok 2%nat, s1) /\
    dispose Demo.C 2%nat s1 = (Ok tt, s1).
Proof.
  destruct (global_is_cached Demo.C Demo.vm Demo.with_global) as [H1 _].
  destruct (global_is_cached Demo.C Demo.vm (Demo.one_object Demo.calm)) as [_ H2].
  split; [apply H1; reflexivity|].
  destruct (H2 [] eq_refl eq_refl) as (p & s1 & E & T & _ & _ & _ & _ & G & D & _).
  exists p, s1. split; [exact E|]. split; [exact T|]. split; [exact G | exact D].
Defined.

Lemma new_values_are_owned_witness :
  is_alive (Demo.one_object Demo.calm) 0%nat = true /\
  exists p h s1,
    newObject Demo.C Demo.vm (Some 0%nat) (Demo.one_object Demo.calm) = (Ok h, s1) /\
    fresh_value Demo.vm (Demo.one_object Demo.calm) s1 h p
      [(QTS_NewObjectProto (ctx Demo.vm) 1, Pointer p)].
Proof.
  split; [reflexivity|].
  destruct (new_values_are_owned Demo.C Demo.vm (Demo.one_object Demo.calm))
    as (_ & _ & _ & _ & H).
  apply (H 0%nat (Lifetime OwnedLifetime 1 (Some (copyJSValue Demo.vm))
                           (Some (freeJSValue Demo.vm)) (Some (owner Demo.vm)) true)).
  - vm_compute; reflexivity.
  - reflexivity.
  - right; reflexivity.
Defined.

Lemma owned_value_is_released_once_witness :
  heap_value Demo.vm (Demo.one_object Demo.calm) 0%nat 1 true /\
  exists s1,
    dispose Demo.C 0%nat (Demo.one_object Demo.calm) = (Ok tt, s1) /\
    trace s1 = trace (Demo.one_object Demo.calm) ++
               [(QTS_FreeValuePointer (ctx Demo.vm) 1, NoAnswer)] /\
    dispose Demo.C 0%nat s1 = (Ok tt, s1) /\
    dup Demo.C 0%nat s1 = (Raise (use_after_dispose Demo.C), s1).
Proof.
  assert (heap_value Demo.vm (Demo.one_object Demo.calm) 0%nat 1 true) as H
    by (vm_compute; reflexivity).
  split; [exact H|].
  destruct (owned_value_is_released_once Demo.C Demo.vm 0%nat 1 _ H)
    as [(s1 & E & T & _ & D & _ & U) _].
  exists s1. split; [exact E|]. split; [exact T|]. split; [exact D | exact U].
Defined.

Lemma dead_handle_is_refused_witness :
  is_alive Demo.pending_and_disposed 5%nat = false /\
  owner_of Demo.pending_and_disposed 5%nat = Some (owner Demo.vm) /\
  typeof Demo.C Demo.vm 5%nat Demo.pending_and_disposed
  = (Raise (use_after_dispose Demo.C), Demo.pending_and_disposed) /\
  getNumber Demo.C Demo.vm 5%nat Demo.pending_and_disposed
  = (Raise (use_after_dispose Demo.C), Demo.pending_and_disposed) /\
  getString Demo.C Demo.vm 5%nat Demo.pending_and_disposed
  = (Raise (use_after_dispose Demo.C), Demo.pending_and_disposed) /\
  dump Demo.C Demo.vm 5%nat Demo.pending_and_disposed
  = (Raise (use_after_dispose Demo.C), Demo.pending_and_disposed) /\
  newObject Demo.C Demo.vm (Some 5%nat) Demo.pending_and_disposed
  = (Raise (use_after_dispose Demo.C), Demo.pending_and_disposed).
Proof.
  split; [reflexivity|]. split; [reflexivity|].
  apply dead_handle_is_refused; [reflexivity | right; reflexivity].
Defined.

Lemma newFunction_registers_witness :
  ids_in_use (Demo.initial Demo.calm) /\
  exists p s1,
    newFunction Demo.C Demo.vm "f" (UserFn Demo.Echo) (Demo.initial Demo.calm)
    = (Ok 0%nat, s1) /\
    trace s1 = [(QTS_NewFunction (ctx Demo.vm) 1 "f", Pointer p)] /\
    fnMap s1 !! 1 = Some (UserFn Demo.Echo) /\
    ids_in_use s1.
Proof.
  assert (ids_in_use (Demo.initial Demo.calm)) as H
    by (apply ids_in_use_empty; reflexivity).
  split; [exact H|].
  destruct (newFunction_registers Demo.C Demo.vm "f" (UserFn Demo.Echo) _ H)
    as (p & s1 & _ & E & T & _ & _ & _ & L & _ & I & _).
  exists p, s1. split; [exact E|]. split; [exact T|]. split; [exact L | exact I].
Defined.

Lemma property_key_is_borrowed_witness :
  is_alive (Demo.one_object Demo.calm) 0%nat = true /\
  exists kp before after p r s1,
    getProp Demo.C Demo.vm 0%nat (KeyStr "k") (Demo.one_object Demo.calm) = (Ok r, s1) /\
    key_events Demo.vm (Demo.one_object Demo.calm) (KeyStr "k") kp before after /\
    trace s1 = trace (Demo.one_object Demo.calm) ++ before ++
               [(QTS_GetProp (ctx Demo.vm) 1 kp, Pointer p)] ++ after /\
    heap_value Demo.vm s1 r p true.
Proof.
  split; [reflexivity|].
  destruct (property_key_is_borrowed Demo.C Demo.vm 0%nat (KeyStr "k")
              (Lifetime OwnedLifetime 1 (Some (copyJSValue Demo.vm))
                        (Some (freeJSValue Demo.vm)) (Some (owner Demo.vm)) true)
              (Demo.one_object Demo.calm))
    as [(kp & before & after & p & r & s1 & E & K & T & V & _) _].
  - vm_compute; reflexivity.
  - reflexivity.
  - right; reflexivity.
  - apply no_handle_key.
  - exists kp, before, after, p, r, s1.
    split; [exact E|]. split; [exact K|]. split; [exact T | exact V].
Defined.

Lemma failed_property_access_frees_key_witness :
  is_alive Demo.pending_and_disposed 5%nat = false /\
  exists kp before after s1,
    getProp Demo.C Demo.vm 5%nat (KeyStr "k") Demo.pending_and_disposed
    = (Raise (use_after_dispose Demo.C), s1) /\
    key_events Demo.vm Demo.pending_and_disposed (KeyStr "k") kp before after /\
    trace s1 = trace Demo.pending_and_disposed ++ before ++ after /\
    same_lifetimes Demo.pending_and_disposed s1.
Proof.
  split; [reflexivity|].
  destruct (failed_property_access_frees_key Demo.C Demo.vm 5%nat (KeyStr "k")
              (Lifetime OwnedLifetime 7 (Some (copyJSValue Demo.vm))
                        (Some (freeJSValue Demo.vm)) (Some (owner Demo.vm)) false)
              Demo.pending_and_disposed) as [H _].
  - vm_compute; reflexivity.
  - right; reflexivity.
  - apply H; [apply no_handle_key | reflexivity].
Defined.

Lemma callFunction_calls_once_witness :
  raw_values (Demo.one_object Demo.calm) [0%nat] [1] /\
  exists argv rp ep r s1,
    callFunction Demo.C Demo.vm 0%nat 0%nat [0%nat] (Demo.one_object Demo.calm)
    = (Ok r, s1) /\
    trace s1 = trace (Demo.one_object Demo.calm) ++
      result_events Demo.vm
        [(Module_malloc_pointers [1], Pointer argv);
         (QTS_Call (ctx Demo.vm) 1 1 1 argv, Pointer rp);
         (Module_free argv, NoAnswer)] rp ep /\
    result_of Demo.vm s1 rp ep r.
Proof.
  pose (l := Lifetime OwnedLifetime 1 (Some (copyJSValue Demo.vm))
                      (Some (freeJSValue Demo.vm)) (Some (owner Demo.vm)) true).
  assert (heap (Demo.one_object Demo.calm) !! 0%nat = Some l) as Hl
    by (vm_compute; reflexivity).
  assert (raw_values (Demo.one_object Demo.calm) [0%nat] [1]) as Hr.
  { constructor; [|constructor]. exists l. split; [exact Hl|]. split; reflexivity. }
  split; [exact Hr|].
  destruct (callFunction_calls_once Demo.C Demo.vm 0%nat 0%nat [0%nat] l l [1]
              (Demo.one_object Demo.calm) Hl eq_refl (or_intror eq_refl) Hl eq_refl Hr)
    as (argv & rp & ep & r & s1 & E & T & R & _).
  exists argv, rp, ep, r, s1. split; [exact E|]. split; [exact T | exact R].
Defined.

Lemma callFunction_on_dead_handles_witness :
  is_alive Demo.pending_and_disposed 5%nat = false /\
  callFunction Demo.C Demo.vm 1%nat 1%nat [5%nat] Demo.pending_and_disposed
  = (Raise (use_after_dispose Demo.C), Demo.pending_and_disposed) /\
  exists argv s1,
    callFunction Demo.C Demo.vm 5%nat 1%nat [1%nat] Demo.pending_and_disposed
    = (Raise (use_after_dispose Demo.C), s1) /\
    trace s1 = trace Demo.pending_and_disposed ++
      [(Module_malloc_pointers [2], Pointer argv); (Module_free argv, NoAnswer)].
Proof.
  pose (l := Lifetime OwnedLifetime 2 (Some (copyJSValue Demo.vm))
                      (Some (freeJSValue Demo.vm)) (Some (owner Demo.vm)) true).
  pose (d := Lifetime OwnedLifetime 7 (Some (copyJSValue Demo.vm))
                      (Some (freeJSValue Demo.vm)) (Some (owner Demo.vm)) false).
  assert (heap Demo.pending_and_disposed !! 1%nat = Some l) as Hl
    by (vm_compute; reflexivity).
  assert (heap Demo.pending_and_disposed !! 5%nat = Some d) as Hd
    by (vm_compute; reflexivity).
  split; [reflexivity|]. split.
  - destruct (callFunction_on_dead_handles Demo.C Demo.vm 1%nat 1%nat [5%nat] l l
                Demo.pending_and_disposed Hl (or_intror eq_refl) Hl) as [H _].
    apply H. apply Exists_cons_hd. reflexivity.
  - destruct (callFunction_on_dead_handles Demo.C Demo.vm 5%nat 1%nat [1%nat] d l
                Demo.pending_and_disposed Hd (or_intror eq_refl) Hl) as [_ H].
    destruct (H [2]) as (argv & s1 & E & T & _).
    + constructor; [|constructor]. exists l. split; [exact Hl|]. split; reflexivity.
    + left; reflexivity.
    + exists argv, s1. split; [exact E | exact T].
Defined.

Lemma throw_consumes_the_handle_witness :
  (exists tp s1,
     throw Demo.C Demo.vm (ExnHandle 0%nat) (Demo.one_object Demo.calm) = (Ok tp, s1) /\
     trace s1 = trace (Demo.one_object Demo.calm) ++
       [(QTS_Throw (ctx Demo.vm) 1, Pointer tp);
        (QTS_FreeValuePointer (ctx Demo.vm) 1, NoAnswer)] /\
     is_alive s1 0%nat = false) /\
  throw Demo.C Demo.vm (ExnHandle 5%nat) Demo.pending_and_disposed
  = (Raise (use_after_dispose Demo.C), Demo.pending_and_disposed).
Proof.
  split.
  - destruct (throw_consumes_the_handle Demo.C Demo.vm 0%nat 1 (Demo.one_object Demo.calm))
      as [H _].
    destruct H as (tp & s1 & E & T & _ & A); [vm_compute; reflexivity|].
    exists tp, s1. split; [exact E|]. split; [exact T | exact A].
  - destruct (throw_consumes_the_handle Demo.C Demo.vm 5%nat 7 Demo.pending_and_disposed)
      as [_ H].
    apply H. vm_compute; reflexivity.
Defined.

Lemma deferred_dispose_is_idempotent_witness :
  exists s1,
    deferred_dispose Demo.C Demo.deferred (Demo.pending Demo.calm) = (Ok tt, s1) /\
    trace s1 = trace (Demo.pending Demo.calm) ++
      [(QTS_FreeValuePointer (ctx Demo.vm) 2, NoAnswer);
       (QTS_FreeValuePointer (ctx Demo.vm) 3, NoAnswer);
       (QTS_FreeValuePointer (ctx Demo.vm) 4, NoAnswer)] /\
    deferred_alive Demo.deferred s1 = (Ok false, s1) /\
    deferred_dispose Demo.C Demo.deferred s1 = (Ok tt, s1).
Proof.
  destruct (deferred_dispose_is_idempotent Demo.C Demo.vm Demo.deferred 2 3 4
              true true true (Demo.pending Demo.calm))
    as (s1 & E & T & _ & A & D);
    [vm_compute; reflexivity .. | vm_compute; lia | vm_compute; lia | vm_compute; lia |].
  exists s1. split; [exact E|]. split; [exact T|]. split; [exact A | exact D].
Defined.

Lemma promise_callbacks_fulfil_witness :
  promises Demo.awaiting !! 0%nat = Some Pending /\
  (exists a q d s1,
     cToHostCallbackFunction Demo.C Demo.vm Demo.run (ctx Demo.vm) 5 1 60 1 Demo.awaiting
     = (Ok 0, s1) /\
     trace s1 = trace Demo.awaiting ++
       [(QTS_ArgvGetJSValueConstPointer 60 0, Pointer a);
        (QTS_DupValuePointer (ctx Demo.vm) a, Pointer q)] /\
     heap_value Demo.vm s1 d q true /\
     promises s1 = [Fulfilled (Some (CallResult (Some d) None))]) /\
  (exists q d s1,
     cToHostCallbackFunction Demo.C Demo.vm Demo.run (ctx Demo.vm) 5 1 60 2 Demo.awaiting
     = (Ok 0, s1) /\
     heap_value Demo.vm s1 d q true /\
     promises s1 = [Fulfilled (Some (CallResult None (Some d)))]).
Proof.
  split; [reflexivity|]. split.
  - destruct (promise_callbacks_fulfil Demo.C Demo.vm Demo.run 5 60 1 (ResolveThen 0%nat)
                0%nat Demo.awaiting)
      as (a & q & d & s1 & E & T & V & _ & P & _);
      [vm_compute; reflexivity | left; reflexivity | reflexivity |].
    exists a, q, d, s1. split; [exact E|]. split; [exact T|]. split; [exact V | exact P].
  - destruct (promise_callbacks_fulfil Demo.C Demo.vm Demo.run 5 60 2 (RejectThen 0%nat)
                0%nat Demo.awaiting)
      as (a & q & d & s1 & E & _ & V & _ & P & _);
      [vm_compute; reflexivity | right; reflexivity | reflexivity |].
    exists q, d, s1. split; [exact E|]. split; [exact V | exact P].
Defined.

Lemma arguments_are_read_in_order_witness :
  exists a b s1,
    wrap_args Demo.C Demo.vm 0%nat 60 0 2 (Demo.initial Demo.calm)
    = (Ok [0%nat; 1%nat], s1) /\
    trace s1 = [(QTS_ArgvGetJSValueConstPointer 60 0, Pointer a);
                (QTS_ArgvGetJSValueConstPointer 60 1, Pointer b)] /\
    heap s1 = [weak_lifetime Demo.vm a; weak_lifetime Demo.vm b] /\
    scopes s1 = [ScopeObj [0%nat; 1%nat] true].
Proof.
  destruct (arguments_are_read_in_order Demo.C Demo.vm 0%nat 60 2 []
              (Demo.initial Demo.calm) eq_refl)
    as (ptrs & s1 & E & L & T & H & Sc & _).
  destruct ptrs as [|a [|b [|c ptrs]]]; try discriminate L.
  exists a, b, s1. split; [exact E|]. split; [exact T|]. split; [exact H | exact Sc].
Defined.

Lemma returned_handle_is_released_witness :
  fnMap Demo.keeping !! 1 = Some (UserFn (Demo.Keeps 0%nat)) /\
  is_alive Demo.keeping 0%nat = true /\
  exists q s3,
    cToHostCallbackFunction Demo.C Demo.vm Demo.run_keeper (ctx Demo.vm) 5 0 60 1
      Demo.keeping = (Ok q, s3) /\
    is_alive s3 0%nat = false.
Proof.
  assert (fnMap Demo.keeping !! 1 = Some (UserFn (Demo.Keeps 0%nat))) as Hf
    by (vm_compute; reflexivity).
  split; [exact Hf|]. split; [reflexivity|].
  destruct (returned_handle_is_released Demo.C Demo.vm Demo.run_keeper 5 60 0 1
              (UserFn (Demo.Keeps 0%nat)) Demo.keeping Hf)
    as (scope & thisHandle & argHandles & s1 & _ & Hsc & Hsame & Hrel).
  destruct (Hrel (ImplHandle 0%nat) s1 0%nat 1) as (q & frees & s3 & E & _ & _ & A).
  - reflexivity.
  - left; reflexivity.
  - eexists; exact Hsc.
  - apply (first_object s1 _ (Hsame 0%nat ltac:(vm_compute; lia))).
    vm_compute; reflexivity.
  - exists q, s3. split; [exact E | exact A].
Defined.

Lemma resolvePromise_protocol_witness :
  _global Demo.with_global = Some 2%nat /\
  exists P R evsP evsR argv rp ep rest s1,
    resolvePromise Demo.C Demo.vm 0%nat Demo.with_global = (Ok 0%nat, s1) /\
    get_events Demo.vm 2 "Promise" P evsP /\
    get_events Demo.vm P "resolve" R evsR /\
    trace s1 = trace Demo.with_global ++ evsP ++ evsR ++
      [(Module_malloc_pointers [1], Pointer argv);
       (QTS_Call (ctx Demo.vm) R P 1 argv, Pointer rp);
       (Module_free argv, NoAnswer);
       (QTS_ResolveException (ctx Demo.vm) rp, Pointer ep)] ++ rest.
Proof.
  split; [reflexivity|].
  destruct (resolvePromise_protocol Demo.C Demo.vm 0%nat 2%nat
              (Lifetime OwnedLifetime 1 (Some (copyJSValue Demo.vm))
                        (Some (freeJSValue Demo.vm)) (Some (owner Demo.vm)) true)
              2 Demo.with_global)
    as (P & R & evsP & evsR & argv & rp & ep & rest & s1 & E & GP & GR & T & _).
  - vm_compute; reflexivity.
  - reflexivity.
  - right; reflexivity.
  - reflexivity.
  - vm_compute; reflexivity.
  - exists P, R, evsP, evsR, argv, rp, ep, rest, s1.
    split; [exact E|]. split; [exact GP|]. split; [exact GR | exact T].
Defined.

Lemma defineProp_defines_once_witness :
  _undefined Demo.with_undefined = Some 1%nat /\
  exists kp before after gp s1,
    defineProp Demo.C Demo.vm Demo.impl_name 0%nat (KeyStr "k") Demo.counted
      Demo.with_undefined = (Ok tt, s1) /\
    key_events Demo.vm Demo.with_undefined (KeyStr "k") kp before after /\
    trace s1 = trace Demo.with_undefined ++ before ++
      [(QTS_NewFunction (ctx Demo.vm) 1 "count", Pointer gp);
       (QTS_DefineProp (ctx Demo.vm) 1 kp 1 gp 2 true false true, NoAnswer);
       (QTS_FreeValuePointer (ctx Demo.vm) gp, NoAnswer)] ++ after /\
    fnMap s1 !! 1 = Some (UserFn Demo.Count).
Proof.
  split; [reflexivity|].
  pose (l := Lifetime OwnedLifetime 1 (Some (copyJSValue Demo.vm))
                      (Some (freeJSValue Demo.vm)) (Some (owner Demo.vm)) true).
  assert (heap Demo.with_undefined !! 0%nat = Some l) as Hl by (vm_compute; reflexivity).
  destruct (defineProp_defines_once Demo.C Demo.vm Demo.impl_name 0%nat 1%nat (KeyStr "k")
              Demo.counted l 2 1 Demo.with_undefined)
    as (kp & before & after & gp & sp & gmade & gfreed & smade & sfreed & s1 &
        E & K & [-> ->] & (-> & -> & ->) & T & G & _).
  - exact Hl.
  - reflexivity.
  - right; reflexivity.
  - apply no_handle_key.
  - reflexivity.
  - vm_compute; reflexivity.
  - intros h [= <-]. reflexivity.
  - exists l. split; [exact Hl | reflexivity].
  - exists kp, before, after, gp, s1.
    split; [exact E|]. split; [exact K|]. split; [exact T|]. apply G. reflexivity.
Defined.
